(** * elisa.model.node: a shallow embedding and its properties

    The Python module [src/elisa/model/node.py] builds a graph of model and
    parameter nodes with [+] and [*], compiles a model graph into one
    evaluator ([generate_func]) and renders readable labels ([LabelSpace]).

    Python strings are lists of characters, exceptions are values of [exn],
    and code that reads or writes process state (the module-level [_UUID]
    list, the [uuid4] source, the [default] attribute of parameter leaves)
    is written in a state-and-exception monad over [world]. *)

From Stdlib Require Import List Arith Lia Bool Ascii String ZArith.
From Stdlib Require Import DecimalString.
From Equations Require Import Equations.
Import ListNotations.

Set Implicit Arguments.
Set Warnings "-register-all".

(** ** Strings *)

Definition str := list ascii.

(** A Python string literal. *)
Definition py (s : string) : str := list_ascii_of_string s.

Definition str_eq_dec : forall a b : str, {a = b} + {a <> b} :=
  list_eq_dec ascii_dec.

Definition str_eqb (a b : str) : bool :=
  if str_eq_dec a b then true else false.

(** [x in l] for a list of strings. *)
Definition str_mem (x : str) (l : list str) : bool :=
  existsb (str_eqb x) l.

(** [f'{n}'] for a non-negative integer. *)
Definition str_of_nat (n : nat) : str :=
  list_ascii_of_string (NilZero.string_of_uint (Nat.to_uint n)).

(** ** Exceptions and results *)

Inductive exn :=
| TypeError | ValueError | RuntimeError | KeyError | IndexError
| AttributeError.

Inductive result (A : Type) :=
| Ok (a : A)
| Err (e : exn).
Arguments Ok {A} a.
Arguments Err {A} e.

Definition is_ok {A} (r : result A) : bool :=
  match r with Ok _ => true | Err _ => false end.

Definition rbind {A B} (r : result A) (k : A -> result B) : result B :=
  match r with Ok a => k a | Err e => Err e end.

Declare Scope res_scope.
Delimit Scope res_scope with res.
Notation "x <- r ;; k" := (rbind r (fun x => k))
  (at level 61, r at next level, right associativity) : res_scope.

(** Python dictionaries keep insertion order: association lists. *)
Fixpoint dict_get {V} (d : list (str * V)) (k : str) : option V :=
  match d with
  | [] => None
  | (k', v) :: d' => if str_eq_dec k k' then Some v else dict_get d' k
  end.

(** [d[k] = v]: overwrite in place when the key exists, append otherwise. *)
Fixpoint dict_set {V} (d : list (str * V)) (k : str) (v : V)
  : list (str * V) :=
  match d with
  | [] => [(k, v)]
  | (k', v') :: d' =>
      if str_eq_dec k k' then (k', v) :: d' else (k', v') :: dict_set d' k v
  end.

(** ** The embedding *)

Section Embedding.

(** Numbers are Python floats and ints; the embedding is generic in them.
    [float] is the builtin conversion, [num_eqb] is [==], [num_add] and
    [num_mul] are [+] and [*]. *)
Variable num : Type.
Variable float : num -> num.
Variable num_eqb : num -> num -> bool.
Variables num_add num_mul : num -> num -> num.

(** [numpyro.distributions.Distribution] is an external class;
    [validate_sample d x] is the truth value of [d._validate_sample(x)]. *)
Variable Distribution : Type.
Variable validate_sample : Distribution -> num -> bool.

(** Arrays (energy grids, per-bin fluxes) are external as well. *)
Variable array : Type.

(** *** Run-time values seen by evaluators *)

Definition kwargs := list (str * num).

Inductive val :=
| VNone
| VDict (d : list (str * kwargs))   (* {model_name: {param: value}} *)
| VArr (a : array).

(** A flux function is only ever applied to two plain values in the module
    ([ff(p_, e_)]), so it takes a list of [val]. *)
Definition flux_func := list val -> result val.

Inductive arg :=
| AVal (v : val)
| AFun (f : flux_func).

(** A compiled evaluator receives its positional arguments as a list. *)
Definition evaluator := list arg -> result val.

(** A model function: called with positional arguments and the keyword
    arguments [**p[model_name]]. *)
Definition func := list arg -> kwargs -> result val.

(** What a call of [func_generator] can return: a Python function, or an
    object of another kind. For such an object [copied] is what copying it
    as a function yields: an exception when it lacks [__code__],
    [__globals__], [__defaults__], [__closure__] or [__kwdefaults__]. *)
Inductive generated :=
| PyFunction (f : func)
| PyOther (copied : result func).

(** [FunctionType(code=func.__code__, ...)], [update_wrapper] and the
    assignment of [__kwdefaults__]: the copy of a function has its code,
    globals, defaults and closure, and computes what the function does;
    the new name does not change that. *)
Definition copy_function (g : generated) : result func :=
  match g with
  | PyFunction f => Ok f
  | PyOther copied => copied
  end.

(** [+] and [*] on the values evaluators return. *)
Variables v_add v_mul : val -> val -> result val.

(** *** Process state *)

Record world := mk_world {
  _UUID : list str;        (* the module-level list [_UUID] *)
  uuid4_hex : nat -> str;  (* the successive values of [str(uuid4().hex)] *)
  drawn : nat;             (* how many of them have been drawn *)
  heap : nat -> num;       (* [attrs['default']] of the leaf at an address *)
  brk : nat                (* next free address *)
}.

Definition M (A : Type) := world -> result A * world.

Definition ret {A} (a : A) : M A := fun w => (Ok a, w).
Definition raise {A} (e : exn) : M A := fun w => (Err e, w).
Definition bind {A B} (m : M A) (k : A -> M B) : M B :=
  fun w => match m w with
           | (Ok a, w') => k a w'
           | (Err e, w') => (Err e, w')
           end.
Definition lift {A} (r : result A) : M A := fun w => (r, w).

Declare Scope m_scope.
Delimit Scope m_scope with M.
Notation "x <- m ;; k" := (bind m (fun x => k))
  (at level 61, m at next level, right associativity) : m_scope.
Notation "m ;;; k" := (bind m (fun _ => k))
  (at level 61, right associativity) : m_scope.

(** [str(uuid4().hex)] *)
Definition uuid4 : M str :=
  fun w => (Ok (uuid4_hex w (drawn w)),
            mk_world (_UUID w) (uuid4_hex w) (S (drawn w)) (heap w) (brk w)).

Definition read_UUID : M (list str) := fun w => (Ok (_UUID w), w).

(** A fresh cell for the [default] entry of a parameter leaf's [attrs]. *)
Definition alloc (x : num) : M nat :=
  fun w => (Ok (brk w),
            mk_world (_UUID w) (uuid4_hex w) (drawn w)
              (fun a => if Nat.eqb a (brk w) then x else heap w a)
              (S (brk w))).

Definition store (l : nat) (x : num) : M unit :=
  fun w => (Ok tt,
            mk_world (_UUID w) (uuid4_hex w) (drawn w)
              (fun a => if Nat.eqb a l then x else heap w a)
              (brk w)).

(** *** Nodes *)

Inductive mtype := add | mul | con.

Definition mtype_eqb (a b : mtype) : bool :=
  match a, b with
  | add, add | mul, mul | con, con => true
  | _, _ => false
  end.

Inductive ntype := parameter | model.

Definition ntype_eqb (a b : ntype) : bool :=
  match a, b with
  | parameter, parameter | model, model => true
  | _, _ => false
  end.

(** The entries of [attrs] every node has ([type] is a class property). *)
Record attrs := mk_attrs {
  a_name : str;
  a_fmt : str;
  a_is_operation : bool;
  a_id : str
}.

(** [distribution: Distribution | float | int] *)
Inductive dist :=
| Dist (d : Distribution)
| Fixed (c : num).

(** The shape of a value passed as [deterministic]. *)
Inductive pyobj :=
| PyStr (s : str)
| PyNum (x : num)
| PyCallable
| PySeq (l : list pyobj).

Inductive node :=
| ParameterNode (a : attrs) (default : nat) (distribution : dist)
    (deterministic : option pyobj)
| ParameterOperationNode (a : attrs) (lh rh : node)
| ModelNode (a : attrs) (mt : mtype)
    (func_generator : str -> result generated)
    (is_ncon : bool) (params_name : list str) (predecessor : list node)
| ModelOperationNode (a : attrs) (mt : mtype) (is_ncon : bool)
    (lh rh : node).

Definition node_attrs (n : node) : attrs :=
  match n with
  | ParameterNode a _ _ _ => a
  | ParameterOperationNode a _ _ => a
  | ModelNode a _ _ _ _ _ => a
  | ModelOperationNode a _ _ _ _ => a
  end.

(** The [type] property. *)
Definition type (n : node) : ntype :=
  match n with
  | ParameterNode _ _ _ _ | ParameterOperationNode _ _ _ => parameter
  | ModelNode _ _ _ _ _ _ | ModelOperationNode _ _ _ _ _ => model
  end.

(** The [predecessor] property. *)
Definition predecessor (n : node) : list node :=
  match n with
  | ParameterNode _ _ _ _ => []
  | ParameterOperationNode _ lh rh => [lh; rh]
  | ModelNode _ _ _ _ _ ps => ps
  | ModelOperationNode _ _ _ lh rh => [lh; rh]
  end.

(** [n.attrs['mtype']] and [n.attrs['is_ncon']]: parameter nodes have no
    such entries. *)
Definition attrs_mtype (n : node) : result mtype :=
  match n with
  | ModelNode _ mt _ _ _ _ | ModelOperationNode _ mt _ _ _ => Ok mt
  | _ => Err KeyError
  end.

Definition attrs_is_ncon (n : node) : result bool :=
  match n with
  | ModelNode _ _ _ nc _ _ | ModelOperationNode _ _ nc _ _ => Ok nc
  | _ => Err KeyError
  end.

(** [Node.__init__]; [extra] lists the keys of the [attrs] argument. *)
Definition Node_init (name fmt : str) (is_operation : bool)
  (extra : list str) : M attrs :=
  (if str_mem (py "id") extra then raise TypeError
   else if str_mem (py "type") extra then raise TypeError
   else
     node_id <- uuid4 ;;
     used <- read_UUID ;;
     if str_mem node_id used then raise RuntimeError
     else ret (mk_attrs name fmt is_operation node_id))%M.

(** [OperationNode._check_type]; every value of [node] is a [Node], so the
    two [isinstance] tests cannot fail. *)
Definition _check_type (lh rh : node) (op : str) : result ntype :=
  if negb (str_mem op [py "+"; py "*"]) then Err TypeError
  else
    let type1 := type lh in
    let type2 := type rh in
    if negb (ntype_eqb type1 type2) then Err TypeError
    else Ok type1.

(** [OperationNode.__init__]: the attributes of the new operation node;
    its predecessors are [lh; rh]. *)
Definition OperationNode_init (lh rh : node) (op : str) : M attrs :=
  (_ <- lift (_check_type lh rh op) ;;
   let fmt := if str_eqb op (py "*") then py "\times" else op in
   Node_init op fmt true [])%M.

(** *** Parameters *)

Definition is_str (o : pyobj) : bool :=
  match o with PyStr _ => true | _ => false end.

Definition is_callable (o : pyobj) : bool :=
  match o with PyCallable => true | _ => false end.

(** [ParameterNode._validate_input]; [dist] is a distribution or a number
    by its type. *)
Definition _validate_input (d : dist) (determ : option pyobj)
  : result unit :=
  match determ with
  | None => Ok tt
  | Some (PySeq [d0; d1]) =>
      match d0 with
      | PySeq names =>
          if negb (is_callable d1) then Err ValueError
          else if negb (forallb is_str names) then Err ValueError
          else Ok tt
      | _ => Err ValueError
      end
  | Some _ => Err ValueError
  end.

(** [ParameterNode._validate_default] *)
Definition _validate_default (d : dist) (default : num) : result unit :=
  match d with
  | Dist d' =>
      if negb (validate_sample d' default) then Err ValueError else Ok tt
  | Fixed c =>
      if negb (num_eqb c default) then Err ValueError else Ok tt
  end.

(** [ParameterNode.__init__] *)
Definition ParameterNode_init (name fmt : str) (default : num)
  (distribution : dist) (deterministic : option pyobj) : M node :=
  (_ <- lift (_validate_input distribution deterministic) ;;
   _ <- lift (_validate_default distribution default) ;;
   cell <- alloc default ;;
   a <- Node_init name fmt false
          [py "default"; py "distribution"; py "deterministic"] ;;
   ret (ParameterNode a cell distribution deterministic))%M.

(** [ParameterOperationNode.__init__] *)
Definition ParameterOperationNode_init (lh rh : node) (op : str) : M node :=
  (a <- OperationNode_init lh rh op ;;
   ret (ParameterOperationNode a lh rh))%M.

(** The [default] property of [ParameterNode] and
    [ParameterOperationNode], read in world [w]; model nodes have none. *)
Fixpoint default (n : node) (w : world) : result num :=
  match n with
  | ParameterNode _ cell _ _ => Ok (heap w cell)
  | ParameterOperationNode a p0 p1 =>
      (lh <- default p0 w ;;
       rh <- default p1 w ;;
       if str_eqb (a_name a) (py "+") then Ok (num_add lh rh)
       else Ok (num_mul lh rh))%res
  | _ => Err AttributeError
  end.

(** The setter of [ParameterNode.default]. [ParameterOperationNode.default]
    is a property without setter; on a model node the assignment creates an
    unrelated instance attribute. *)
Definition set_default (n : node) (value : num) : M unit :=
  match n with
  | ParameterNode _ cell distribution _ =>
      (let value := float value in
       _ <- lift (_validate_default distribution value) ;;
       store cell value)%M
  | ParameterOperationNode _ _ _ => raise AttributeError
  | _ => ret tt
  end.

(** *** Models *)

(** [mtype not in {'add', 'mul', 'con'}] *)
Definition parse_mtype (s : str) : option mtype :=
  if str_eqb s (py "add") then Some add
  else if str_eqb s (py "mul") then Some mul
  else if str_eqb s (py "con") then Some con
  else None.

(** [ModelNode.__init__]; [params] is [None] or an ordered dictionary. *)
Definition ModelNode_init (name fmt mtype_ : str)
  (params : option (list (str * node)))
  (func_generator : str -> result generated)
  (is_ncon : bool) : M node :=
  match parse_mtype mtype_ with
  | None => raise TypeError
  | Some mt =>
      (ps <- match params with
             | None => ret ([], [])
             | Some d =>
                 if forallb (fun v => ntype_eqb (type v) parameter)
                      (map snd d)
                 then ret (map fst d, map snd d)
                 else raise ValueError
             end ;;
       a <- Node_init name fmt false
              [py "mtype"; py "func_generator"; py "is_ncon"] ;;
       ret (ModelNode a mt func_generator is_ncon (fst ps) (snd ps)))%M
  end.

Definition is_ModelOperationNode (n : node) : bool :=
  match n with ModelOperationNode _ _ _ _ _ => true | _ => false end.

(** [lh.attrs.get('mtype', '') == 'con'] *)
Definition attrs_get_mtype_is_con (n : node) : bool :=
  match attrs_mtype n with Ok con => true | _ => false end.

Definition with_fmt (a : attrs) (fmt : str) : attrs :=
  mk_attrs (a_name a) fmt (a_is_operation a) (a_id a).

(** [ModelOperationNode.__init__] *)
Definition ModelOperationNode_init (lh rh : node) (op : str) : M node :=
  (_ <- lift (_check_type lh rh op) ;;
   mtype1 <- lift (attrs_mtype lh) ;;
   mtype2 <- lift (attrs_mtype rh) ;;
   (* check if operand is legal for the op *)
   _ <- (if str_eqb op (py "+") then
           if negb (mtype_eqb mtype1 add) then raise TypeError
           else if negb (mtype_eqb mtype2 add) then raise TypeError
           else ret tt
         else
           _ <- (if mtype_eqb mtype1 add then
                   if mtype_eqb mtype2 add then raise TypeError
                   else if mtype_eqb mtype2 con then raise TypeError
                   else ret tt
                 else ret tt) ;;
           n1 <- lift (attrs_is_ncon lh) ;;
           n2 <- (if n1 then lift (attrs_is_ncon rh) else ret false) ;;
           if n1 && n2 then raise TypeError else ret tt) ;;
   (* determine the mtype *)
   r <- (if mtype_eqb mtype1 add || mtype_eqb mtype2 add then
           ret (add, false)
         else if mtype_eqb mtype1 con || mtype_eqb mtype2 con then
           n1 <- lift (attrs_is_ncon lh) ;;
           n2 <- (if n1 then ret true else lift (attrs_is_ncon rh)) ;;
           ret (con, n1 || n2)
         else ret (mul, false)) ;;
   a <- OperationNode_init lh rh op ;;
   (* for a convolution model, fmt is * *)
   let a := if negb (is_ModelOperationNode lh) && attrs_get_mtype_is_con lh
            then with_fmt a (py "*") else a in
   ret (ModelOperationNode a (fst r) (snd r) lh rh))%M.

(** *** Labels with identity suffix *)

Inductive label_type := name | fmt.

(** [attrs[label]] for [label] in [{'name', 'fmt'}] *)
Definition attrs_label (l : label_type) (a : attrs) : str :=
  match l with name => a_name a | fmt => a_fmt a end.

(** [Node._label_with_id]: [f'{self.attrs[label]}_{self.attrs["id"]}'] *)
Definition Node_label_with_id (l : label_type) (a : attrs) : str :=
  attrs_label l a ++ py "_" ++ a_id a.

(** [OperationNode._label_with_id], given the labels of the operands. *)
Definition OperationNode_label_with_id (l : label_type) (a : attrs)
  (lh rh : node) (lh_label rh_label : str) : str :=
  let op_name := a_name a in
  let op := attrs_label l a in
  let lh_label :=
    if str_eqb op_name (py "*") && str_eqb (a_name (node_attrs lh)) (py "+")
    then py "(" ++ lh_label ++ py ")" else lh_label in
  let rh_label :=
    if str_eqb op_name (py "*") && str_eqb (a_name (node_attrs rh)) (py "+")
    then py "(" ++ rh_label ++ py ")" else rh_label in
  lh_label ++ py " " ++ op ++ py " " ++ rh_label.

(** The [name] and [fmt] properties: [getattr(node, label)]. *)
Fixpoint label_with_id (l : label_type) (n : node) : str :=
  match n with
  | ParameterNode a _ _ _ => Node_label_with_id l a
  | ModelNode a _ _ _ _ _ => Node_label_with_id l a
  | ParameterOperationNode a lh rh =>
      OperationNode_label_with_id l a lh rh
        (label_with_id l lh) (label_with_id l rh)
  | ModelOperationNode a _ _ lh rh =>
      OperationNode_label_with_id l a lh rh
        (label_with_id l lh) (label_with_id l rh)
  end.

(** *** Compiling evaluators *)

(** [p[model_name]] for whatever was passed as [p]: a dictionary is looked
    up, an array cannot be indexed by a string, [None] and functions are
    not subscriptable. *)
Definition getitem (p : arg) (key : str) : result kwargs :=
  match p with
  | AVal (VDict d) =>
      match dict_get d key with Some kw => Ok kw | None => Err KeyError end
  | AVal (VArr _) => Err IndexError
  | AVal VNone => Err TypeError
  | AFun _ => Err TypeError
  end.

(** Calling whatever was passed as [ff] with plain values. *)
Definition call (ff : arg) (vs : list val) : result val :=
  match ff with
  | AFun f => f vs
  | AVal _ => Err TypeError
  end.

(** [x * f] where [f] is whatever was passed as flux. *)
Definition mul_by (x : val) (f : arg) : result val :=
  match f with
  | AVal y => v_mul x y
  | AFun _ => Err TypeError
  end.

(** An evaluator handed over as flux function. *)
Definition as_flux_func (m : evaluator) : flux_func :=
  fun vs => m (map AVal vs).

(** The closures of [ModelNode.generate_func]. *)
Definition wrapper_add (func_ : func) (model_name : str) : evaluator :=
  fun args =>
    match args with
    | p :: e :: _ => (kw <- getitem p model_name ;; func_ [e] kw)%res
    | _ => Err TypeError
    end.

Definition wrapper_mul (func_ : func) (model_name : str) : evaluator :=
  fun args =>
    match args with
    | p :: e :: _ => (kw <- getitem p model_name ;; func_ [e] kw)%res
    | _ => Err TypeError
    end.

(** [def wrapper_ncon(p, _=None, f=None, ff=None)] *)
Definition wrapper_ncon (func_ : func) (model_name : str) : evaluator :=
  fun args =>
    let run p f ff :=
      (kw <- getitem p model_name ;; func_ [ff; f] kw)%res in
    match args with
    | [p] => run p (AVal VNone) (AVal VNone)
    | [p; _] => run p (AVal VNone) (AVal VNone)
    | [p; _; f] => run p f (AVal VNone)
    | [p; _; f; ff] => run p f ff
    | _ => Err TypeError
    end.

Definition wrapper_con (func_ : func) (model_name : str) : evaluator :=
  fun args =>
    match args with
    | p :: e :: f :: _ => (kw <- getitem p model_name ;; func_ [e; f] kw)%res
    | _ => Err TypeError
    end.

(** The closures of [ModelOperationNode.generate_func]. *)
Definition wrapper_add_add (m1 m2 : evaluator) : evaluator :=
  fun args =>
    match args with
    | p :: e :: _ => (x <- m1 [p; e] ;; y <- m2 [p; e] ;; v_add x y)%res
    | _ => Err TypeError
    end.

Definition wrapper_op (m1 m2 : evaluator) : evaluator :=
  fun args =>
    match args with
    | p :: e :: _ => (x <- m1 [p; e] ;; y <- m2 [p; e] ;; v_mul x y)%res
    | _ => Err TypeError
    end.

Definition wrapper_mul_ncon (m1 m2 : evaluator) : evaluator :=
  fun args =>
    match args with
    | [p; e; f; ff] =>
        (x <- m1 [p; e] ;; y <- m2 [p; e; f; ff] ;; v_mul x y)%res
    | _ => Err TypeError
    end.

Definition wrapper_mul_con (m1 m2 : evaluator) : evaluator :=
  fun args =>
    match args with
    | p :: e :: f :: _ =>
        (x <- m1 [p; e] ;; y <- m2 [p; e; f] ;; v_mul x y)%res
    | _ => Err TypeError
    end.

Definition wrapper_ncon_add (m1 m2 : evaluator) : evaluator :=
  fun args =>
    match args with
    | p :: e :: _ =>
        (y <- m2 [p; e] ;; m1 [p; e; AVal y; AFun (as_flux_func m2)])%res
    | _ => Err TypeError
    end.

(** [def wrapper_ncon_mul(e, p, f, ff)]: the first positional argument is
    bound to [e] and the second to [p]. *)
Definition wrapper_ncon_mul (m1 m2 : evaluator) : evaluator :=
  fun args =>
    match args with
    | [e; p; f; ff] =>
        let m2_ff : flux_func := fun vs =>
          match vs with
          | e_ :: p_ :: _ =>
              (x <- m2 [AVal e_; AVal p_] ;;
               y <- call ff [e_; p_] ;;
               v_mul x y)%res
          | _ => Err TypeError
          end in
        (x <- m2 [e; p] ;;
         y <- mul_by x f ;;
         m1 [p; e; AVal y; AFun m2_ff])%res
    | _ => Err TypeError
    end.

Definition wrapper_ncon_con (m1 m2 : evaluator) : evaluator :=
  fun args =>
    match args with
    | [p; e; f; ff] =>
        let m2_ff : flux_func := fun vs =>
          match vs with
          | p_ :: e_ :: _ =>
              (y <- call ff [p_; e_] ;;
               m2 [AVal p_; AVal e_; AVal y])%res
          | _ => Err TypeError
          end in
        (y <- m2 [p; e; f] ;; m1 [p; e; AVal y; AFun m2_ff])%res
    | _ => Err TypeError
    end.

Definition wrapper_con_add (m1 m2 : evaluator) : evaluator :=
  fun args =>
    match args with
    | p :: e :: _ => (y <- m2 [p; e] ;; m1 [p; e; AVal y])%res
    | _ => Err TypeError
    end.

Definition wrapper_con_mul (m1 m2 : evaluator) : evaluator :=
  fun args =>
    match args with
    | p :: e :: f :: _ =>
        (x <- m2 [p; e] ;; y <- mul_by x f ;; m1 [p; e; AVal y])%res
    | _ => Err TypeError
    end.

Definition wrapper_con_ncon (m1 m2 : evaluator) : evaluator :=
  fun args =>
    match args with
    | [p; e; f; ff] => (y <- m2 [p; e; f; ff] ;; m1 [p; e; AVal y])%res
    | _ => Err TypeError
    end.

Definition wrapper_con_con (m1 m2 : evaluator) : evaluator :=
  fun args =>
    match args with
    | p :: e :: f :: _ => (y <- m2 [p; e; f] ;; m1 [p; e; AVal y])%res
    | _ => Err TypeError
    end.

(** [ModelNode.generate_func] and [ModelOperationNode.generate_func]; the
    call of the generator and the copy of what it returns can both raise.
    Parameter nodes have no such method. *)
Fixpoint generate_func (n : node) (mapping : list (str * str))
  : result evaluator :=
  match n with
  | ModelNode a mt func_generator is_ncon _ _ =>
      match dict_get mapping (Node_label_with_id name a) with
      | None => Err KeyError
      | Some model_name =>
          (func_ <- func_generator model_name ;;
           func_ <- copy_function func_ ;;
           match mt with
           | add => Ok (wrapper_add func_ model_name)
           | mul => Ok (wrapper_mul func_ model_name)
           | con =>
               if is_ncon then Ok (wrapper_ncon func_ model_name)
               else Ok (wrapper_con func_ model_name)
           end)%res
      end
  | ModelOperationNode a _ _ lh rh =>
      let op := a_name a in
      (m1 <- generate_func lh mapping ;;
       m2 <- generate_func rh mapping ;;
       type1 <- attrs_mtype lh ;;
       type2 <- attrs_mtype rh ;;
       if str_eqb op (py "+") then Ok (wrapper_add_add m1 m2)
       else if negb (mtype_eqb type1 con) then
         if negb (mtype_eqb type2 con) then Ok (wrapper_op m1 m2)
         else
           rh_ncon <- attrs_is_ncon rh ;;
           if rh_ncon then Ok (wrapper_mul_ncon m1 m2)
           else Ok (wrapper_mul_con m1 m2)
       else
         lh_ncon <- attrs_is_ncon lh ;;
         if lh_ncon then
           match type2 with
           | add => Ok (wrapper_ncon_add m1 m2)
           | mul => Ok (wrapper_ncon_mul m1 m2)
           | con => Ok (wrapper_ncon_con m1 m2)
           end
         else
           match type2 with
           | add => Ok (wrapper_con_add m1 m2)
           | mul => Ok (wrapper_con_mul m1 m2)
           | con =>
               rh_ncon <- attrs_is_ncon rh ;;
               if rh_ncon then Ok (wrapper_con_ncon m1 m2)
               else Ok (wrapper_con_con m1 m2)
           end)%res
  | _ => Err AttributeError
  end.

(** *** LabelSpace *)

(** [s.startswith(old)] *)
Fixpoint prefixb (old s : str) : bool :=
  match old, s with
  | [], _ => true
  | a :: old', b :: s' => Ascii.eqb a b && prefixb old' s'
  | _ :: _, [] => false
  end.

(** Scanning [s] from the left for a non-empty [old]; [skip] counts the
    characters of a match still to be dropped. *)
Fixpoint replace_from (skip : nat) (old new s : str) : str :=
  match s with
  | [] => []
  | c :: s' =>
      match skip with
      | S k => replace_from k old new s'
      | 0 =>
          if prefixb old s
          then new ++ replace_from (List.length old - 1) old new s'
          else c :: replace_from 0 old new s'
      end
  end.

(** [s.replace(old, new)]: every non-overlapping occurrence, leftmost
    first; an empty [old] matches before every character and at the end. *)
Definition str_replace (old new s : str) : str :=
  match old with
  | [] => new ++ flat_map (fun c => c :: new) s
  | _ :: _ => replace_from 0 old new s
  end.

Fixpoint node_size (n : node) : nat :=
  match n with
  | ParameterNode _ _ _ _ => 1
  | ParameterOperationNode _ lh rh => S (node_size lh + node_size rh)
  | ModelNode _ _ _ _ _ ps =>
      S ((fix sizes (l : list node) : nat :=
            match l with
            | [] => 0
            | x :: l' => node_size x + sizes l'
            end) ps)
  | ModelOperationNode _ _ _ lh rh => S (node_size lh + node_size rh)
  end.

Fixpoint stack_size (s : list node) : nat :=
  match s with
  | [] => 0
  | x :: s' => node_size x + stack_size s'
  end.

(** The loop of [LabelSpace._get_sub_nodes_label]. *)
Equations? sub_nodes_loop (l : label_type) (node_stack : list node)
  (labels : list (node * str)) : list (node * str)
  by wf (stack_size node_stack) lt :=
  sub_nodes_loop l [] labels := labels;
  sub_nodes_loop l (i :: node_stack) labels :=
    if negb (a_is_operation (node_attrs i)) then
      sub_nodes_loop l node_stack
        (labels ++ [(i, attrs_label l (node_attrs i))])
    else sub_nodes_loop l (predecessor i ++ node_stack) labels.
Proof.
  - destruct i; simpl; lia.
  - assert (A : forall s t : list node,
               stack_size (s ++ t) = stack_size s + stack_size t)
      by (intros s t; induction s; simpl; lia).
    assert (P : node_size i = S (stack_size (predecessor i)))
      by (destruct i; simpl; try reflexivity; lia).
    rewrite A, P. lia.
Qed.

(** What one leaf does to [label_space] and [id_to_str] in
    [LabelSpace._get_suffix_mapping]. *)
Definition suffix_visit (l : label_type) (i : node)
  (st : list (str * list str) * list (str * str))
  : list (str * list str) * list (str * str) :=
  let label_space := fst st in
  let id_to_str := snd st in
  let label := attrs_label l (node_attrs i) in
  let id_ := a_id (node_attrs i) in
  match dict_get label_space label with
  | None =>
      (dict_set label_space label [id_],
       dict_set id_to_str (label ++ py "_" ++ id_) label)
  | Some same_label_nodes =>
      if negb (str_mem id_ same_label_nodes) then
        let same_label_nodes := same_label_nodes ++ [id_] in
        let num := List.length same_label_nodes in
        let str_ := match l with
                    | name => str_of_nat num
                    | fmt => py "_" ++ str_of_nat num
                    end in
        (dict_set label_space label same_label_nodes,
         dict_set id_to_str (label ++ py "_" ++ id_) (label ++ str_))
      else st
  end.

(** The loop of [LabelSpace._get_suffix_mapping]. *)
Equations? suffix_loop (l : label_type) (node_stack : list node)
  (st : list (str * list str) * list (str * str))
  : list (str * list str) * list (str * str)
  by wf (stack_size node_stack) lt :=
  suffix_loop l [] st := st;
  suffix_loop l (i :: node_stack) st :=
    if negb (a_is_operation (node_attrs i)) then
      suffix_loop l node_stack (suffix_visit l i st)
    else suffix_loop l (predecessor i ++ node_stack) st.
Proof.
  - destruct i; simpl; lia.
  - assert (A : forall s t : list node,
               stack_size (s ++ t) = stack_size s + stack_size t)
      by (intros s t; induction s; simpl; lia).
    assert (P : node_size i = S (stack_size (predecessor i)))
      by (destruct i; simpl; try reflexivity; lia).
    rewrite A, P. lia.
Qed.

Definition _get_sub_nodes_label (n : node) (l : label_type)
  : list (node * str) :=
  sub_nodes_loop l [n] [].

Definition _get_suffix_mapping (n : node) (l : label_type)
  : list (str * str) :=
  snd (suffix_loop l [n] ([], [])).

(** A [LabelSpace] object: the node and the two dictionaries keyed by
    ['name'] and ['fmt']. *)
Record LabelSpace := mk_LabelSpace {
  ls_node : node;
  _label_space : label_type -> list (node * str);
  _label_map : label_type -> list (str * str)
}.

(** [LabelSpace.__init__] *)
Definition LabelSpace_init (n : node) : LabelSpace :=
  mk_LabelSpace n (_get_sub_nodes_label n) (_get_suffix_mapping n).

Definition label_type_eqb (a b : label_type) : bool :=
  match a, b with
  | name, name | fmt, fmt => true
  | _, _ => false
  end.

(** [LabelSpace._check_if_label_changed]: the object after the call. *)
Definition _check_if_label_changed (ls : LabelSpace) (label : label_type)
  : LabelSpace :=
  let flag :=
    existsb (fun nl => negb (str_eqb (attrs_label label (node_attrs (fst nl)))
                               (snd nl)))
      (_label_space ls label) in
  if flag then
    mk_LabelSpace (ls_node ls)
      (fun k => if label_type_eqb k label
                then _get_sub_nodes_label (ls_node ls) label
                else _label_space ls k)
      (fun k => if label_type_eqb k label
                then _get_suffix_mapping (ls_node ls) label
                else _label_map ls k)
  else ls.

(** [LabelSpace._label] *)
Definition _label (ls : LabelSpace) (l : label_type) : str :=
  let ls := _check_if_label_changed ls l in
  fold_left (fun label kv => str_replace (fst kv) (snd kv) label)
    (_label_map ls l) (label_with_id l (ls_node ls)).

(** The [name] and [fmt] properties of [LabelSpace]. *)
Definition LabelSpace_name (ls : LabelSpace) : str := _label ls name.
Definition LabelSpace_fmt (ls : LabelSpace) : str := _label ls fmt.


(** *** What a rendered tree should look like

    The definitions below follow the words of the specification, not the
    code: the leaves of a finished tree from left to right, the label a
    leaf is displayed with, and the label of the tree with every leaf
    displayed that way. *)

(** The leaves of a tree, left to right, depth first. *)
Fixpoint leaves (n : node) : list attrs :=
  match n with
  | ParameterNode a _ _ _ => [a]
  | ModelNode a _ _ _ _ _ => [a]
  | ParameterOperationNode _ lh rh => leaves lh ++ leaves rh
  | ModelOperationNode _ _ _ lh rh => leaves lh ++ leaves rh
  end.

(** The distinct strings of a list, in the order of their first
    occurrence. *)
Definition add_new (seen : list str) (x : str) : list str :=
  if str_mem x seen then seen else seen ++ [x].

Definition distinct (l : list str) : list str := fold_left add_new l [].

(** The ids of the distinct leaves whose raw label is [label]. *)
Definition same_label_ids (l : label_type) (L : list attrs) (label : str)
  : list str :=
  distinct
    (map a_id (filter (fun b => str_eqb (attrs_label l b) label) L)).

Fixpoint index_of (x : str) (l : list str) : nat :=
  match l with
  | [] => 0
  | y :: l' => if str_eq_dec x y then 0 else S (index_of x l')
  end.

(** A leaf is the [n]-th distinct leaf with its raw label. *)
Definition rank (l : label_type) (L : list attrs) (a : attrs) : nat :=
  S (index_of (a_id a) (same_label_ids l L (attrs_label l a))).

(** Nothing for the first leaf, ["2"], ["3"], ... for display names and
    ["_2"], ["_3"], ... for formula strings. *)
Definition suffix (l : label_type) (n : nat) : str :=
  if Nat.eqb n 1 then []
  else match l with
       | name => str_of_nat n
       | fmt => py "_" ++ str_of_nat n
       end.

(** The label a leaf is displayed with among the leaves [L]. *)
Definition display (l : label_type) (L : list attrs) (a : attrs) : str :=
  attrs_label l a ++ suffix l (rank l L a).

(** The label of a tree in which every leaf is rendered by [leaf]. *)
Fixpoint label_with (l : label_type) (leaf : attrs -> str) (n : node)
  : str :=
  match n with
  | ParameterNode a _ _ _ => leaf a
  | ModelNode a _ _ _ _ _ => leaf a
  | ParameterOperationNode a lh rh =>
      OperationNode_label_with_id l a lh rh
        (label_with l leaf lh) (label_with l leaf rh)
  | ModelOperationNode a _ _ lh rh =>
      OperationNode_label_with_id l a lh rh
        (label_with l leaf lh) (label_with l leaf rh)
  end.

(** *** Finished trees

    What the constructors guarantee of a tree, and the condition on labels
    under which textual replacement cannot hit anything but a leaf. *)

Definition hexdigit (c : ascii) : bool :=
  existsb (Ascii.eqb c) (py "0123456789abcdef").

(** The form of [uuid4().hex]: 32 hexadecimal digits. *)
Definition is_uuid (s : str) : bool :=
  Nat.eqb (List.length s) 32 && forallb hexdigit s.

(** Leaves are not operations and carry a uuid; operation nodes are
    flagged as such and carry the operator strings [OperationNode.__init__]
    and [ModelOperationNode.__init__] give them. *)
Fixpoint finished (n : node) : bool :=
  match n with
  | ParameterNode a _ _ _ => negb (a_is_operation a) && is_uuid (a_id a)
  | ModelNode a _ _ _ _ _ => negb (a_is_operation a) && is_uuid (a_id a)
  | ParameterOperationNode a lh rh =>
      a_is_operation a
      && str_mem (a_name a) [py "+"; py "*"]
      && str_mem (a_fmt a) [py "+"; py "\times"; py "*"]
      && finished lh && finished rh
  | ModelOperationNode a _ _ lh rh =>
      a_is_operation a
      && str_mem (a_name a) [py "+"; py "*"]
      && str_mem (a_fmt a) [py "+"; py "\times"; py "*"]
      && finished lh && finished rh
  end.

(** An id stands for one leaf: two occurrences with the same id are the
    same node and so have the same raw label. *)
Definition ids_identify (l : label_type) (L : list attrs) : bool :=
  forallb (fun a =>
    forallb (fun b =>
      negb (str_eqb (a_id a) (a_id b))
      || str_eqb (attrs_label l a) (attrs_label l b)) L) L.

(** [u in s] *)
Fixpoint infixb (u s : str) : bool :=
  prefixb u s || match s with [] => false | _ :: s' => infixb u s' end.

(** No raw label and no displayed label contains an underscore followed by
    the id of a leaf of the tree. *)
Definition hygienic (l : label_type) (L : list attrs) : bool :=
  forallb (fun i =>
    forallb (fun a =>
      negb (infixb (py "_" ++ a_id i) (attrs_label l a))
      && negb (infixb (py "_" ++ a_id i) (display l L a))) L) L.

(** *** Vocabulary of the proofs

    Auxiliary notions the properties below are stated and proved with. *)

(** The world after one draw from [uuid4]. *)
Definition after_draw (w : world) : world :=
  mk_world (_UUID w) (uuid4_hex w) (S (drawn w)) (heap w) (brk w).

(** The domain of a parameter: the support of a proper distribution, or
    the one value equal to a fixed constant. *)
Definition in_domain (d : dist) (x : num) : Prop :=
  match d with
  | Dist d' => validate_sample d' x = true
  | Fixed c => num_eqb c x = true
  end.

(** The non-operation nodes the two loops of [LabelSpace] visit, in the
    order they visit them. *)
Fixpoint sub_nodes (n : node) : list node :=
  if negb (a_is_operation (node_attrs n)) then [n]
  else match n with
       | ParameterNode _ _ _ _ => []
       | ParameterOperationNode _ lh rh => sub_nodes lh ++ sub_nodes rh
       | ModelNode _ _ _ _ _ ps =>
           (fix visit (s : list node) : list node :=
              match s with
              | [] => []
              | x :: s' => sub_nodes x ++ visit s'
              end) ps
       | ModelOperationNode _ _ _ lh rh => sub_nodes lh ++ sub_nodes rh
       end.

(** [suffix_visit] only reads the attributes of the node it visits. *)
Definition visit (l : label_type) (a : attrs)
  (st : list (str * list str) * list (str * str))
  : list (str * list str) * list (str * str) :=
  let label := attrs_label l a in
  let id_ := a_id a in
  match dict_get (fst st) label with
  | None =>
      (dict_set (fst st) label [id_],
       dict_set (snd st) (label ++ py "_" ++ id_) label)
  | Some ids =>
      if negb (str_mem id_ ids) then
        let num := List.length (ids ++ [id_]) in
        let str_ := match l with
                    | name => str_of_nat num
                    | fmt => py "_" ++ str_of_nat num
                    end in
        (dict_set (fst st) label (ids ++ [id_]),
         dict_set (snd st) (label ++ py "_" ++ id_) (label ++ str_))
      else st
  end.

Definition nonempty (ids : list str) : option (list str) :=
  match ids with [] => None | _ :: _ => Some ids end.

(** What holds of [label_space] and [id_to_str] once the leaves [P] have
    been visited, [L] being all the leaves of the tree. *)
Record visited (l : label_type) (L P : list attrs)
  (st : list (str * list str) * list (str * str)) : Prop := {
  v_space : forall label,
    dict_get (fst st) label = nonempty (same_label_ids l P label);
  v_keys : forall a,
    In a P -> In (Node_label_with_id l a) (map fst (snd st));
  v_vals : forall k v,
    In (k, v) (snd st) ->
    exists a, In a P /\ k = Node_label_with_id l a /\ v = display l L a
}.

(** A label is laid out as separators and leaves. *)
Inductive token :=
| TSep (s : str)
| TLeaf (a : attrs).

Definition piece (leaf : attrs -> str) (t : token) : str :=
  match t with TSep s => s | TLeaf a => leaf a end.

Definition render (leaf : attrs -> str) (ts : list token) : str :=
  List.concat (map (piece leaf) ts).

(** Every occurrence of [k] in the rendered text is a leaf rendered as
    [k]. *)
Definition aligned (k : str) (leaf : attrs -> str) (ts : list token)
  : Prop :=
  forall x y,
    render leaf ts = x ++ k ++ y ->
    exists ts1 a ts2,
      ts = ts1 ++ TLeaf a :: ts2 /\ leaf a = k /\
      x = render leaf ts1 /\ y = render leaf ts2.

Definition infix (u s : str) : Prop := exists x y, s = x ++ u ++ y.

(** A separator is not empty, begins with a character that no id
    contains, and has no underscore. *)
Definition sep_ok (s : str) : Prop :=
  (exists c s', s = c :: s' /\ hexdigit c = false) /\ ~ In "_"%char s.

(** No two leaves stand next to each other. *)
Fixpoint good (ts : list token) : Prop :=
  match ts with
  | [] => True
  | TSep s :: ts' => sep_ok s /\ good ts'
  | TLeaf _ :: ts' =>
      match ts' with TLeaf _ :: _ => False | _ => True end /\ good ts'
  end.

(** A leaf is rendered with its id, or by a text in which the id does not
    follow an underscore; its raw label has no such place either. *)
Definition leaf_ok (l : label_type) (i : str) (leaf : attrs -> str)
  (a : attrs) : Prop :=
  is_uuid (a_id a) = true /\
  ~ infix ("_"%char :: i) (attrs_label l a) /\
  (leaf a = Node_label_with_id l a \/ ~ infix ("_"%char :: i) (leaf a)).

Definition paren (b : bool) (ts : list token) : list token :=
  if b then TSep (py "(") :: ts ++ [TSep (py ")")] else ts.

Definition op_tokens (l : label_type) (a : attrs) (lh rh : node)
  (tl tr : list token) : list token :=
  paren (str_eqb (a_name a) (py "*")
         && str_eqb (a_name (node_attrs lh)) (py "+")) tl
  ++ TSep (py " " ++ attrs_label l a ++ py " ")
  :: paren (str_eqb (a_name a) (py "*")
            && str_eqb (a_name (node_attrs rh)) (py "+")) tr.

Fixpoint tokens (l : label_type) (n : node) : list token :=
  match n with
  | ParameterNode a _ _ _ => [TLeaf a]
  | ModelNode a _ _ _ _ _ => [TLeaf a]
  | ParameterOperationNode a lh rh =>
      op_tokens l a lh rh (tokens l lh) (tokens l rh)
  | ModelOperationNode a _ _ lh rh =>
      op_tokens l a lh rh (tokens l lh) (tokens l rh)
  end.

(** The leaves whose label with id is in [K] are displayed, the others
    still carry their id. *)
Definition stage (l : label_type) (L : list attrs) (K : list str)
  (a : attrs) : str :=
  if str_mem (Node_label_with_id l a) K then display l L a
  else Node_label_with_id l a.

(** *** Components, parameters and sites

    The introspection properties of the four node classes. *)

(** [{**a, **b}]: the entries of [a], overwritten or followed by those of
    [b]. *)
Definition dict_merge {V} (a b : list (str * V)) : list (str * V) :=
  fold_left (fun d kv => dict_set d (fst kv) (snd kv)) b a.

(** [{k: v for k, v in kvs}] *)
Definition dict_of {V} (kvs : list (str * V)) : list (str * V) :=
  dict_merge [] kvs.

(** [functools.reduce(f, l)] without initial value. *)
Definition reduce {A} (f : A -> A -> A) (l : list A) : result A :=
  match l with
  | [] => Err TypeError
  | x :: l' => Ok (fold_left f l' x)
  end.

(** [ModelNode.comps] and [ModelOperationNode.comps]; parameter nodes have
    no such property. *)
Fixpoint comps (n : node) : result (list str) :=
  match n with
  | ModelNode a _ _ _ _ _ => Ok [Node_label_with_id name a]
  | ModelOperationNode _ _ _ lh rh =>
      (l <- comps lh ;; r <- comps rh ;; Ok (l ++ r))%res
  | _ => Err AttributeError
  end.

(** [ModelNode.params] and [ModelOperationNode.params] *)
Fixpoint params (n : node) : result (list (str * list (str * str))) :=
  match n with
  | ModelNode a _ _ _ params_name ps =>
      Ok [(Node_label_with_id name a,
           dict_of (combine params_name (map (label_with_id name) ps)))]
  | ModelOperationNode _ _ _ lh rh =>
      (l <- params lh ;; r <- params rh ;; Ok (dict_merge l r))%res
  | _ => Err AttributeError
  end.

(** The function of a deterministic site: one of the two lambdas of
    [ParameterOperationNode.site], or the callable given to a leaf. *)
Inductive site_func :=
| lambda_add
| lambda_mul
| given (f : pyobj).

(** The dictionary a [site] property returns. *)
Record site_info := mk_site {
  s_sample : list (str * dist);
  s_deterministic : list (str * (list str * site_func))
}.

(** Unpacking [o] into [n] targets: sequences and strings are iterable. *)
Definition unpack (n : nat) (o : pyobj) : result (list pyobj) :=
  match o with
  | PySeq l => if Nat.eqb (List.length l) n then Ok l else Err ValueError
  | PyStr s =>
      if Nat.eqb (List.length s) n then Ok (map (fun c => PyStr [c]) s)
      else Err ValueError
  | _ => Err TypeError
  end.

(** [template.format(name=name)] is the builtin of Python. *)
Variable str_format : str -> str -> result str.

(** [ParameterNode.site] *)
Definition ParameterNode_site (a : attrs) (distribution : dist)
  (determ : option pyobj) : result site_info :=
  let name_ := Node_label_with_id name a in
  let info := mk_site [(name_, distribution)] [] in
  match determ with
  | None => Ok info
  | Some d =>
      (outer <- unpack 2 d ;;
       match outer with
       | [d0; func_] =>
           inner <- unpack 1 d0 ;;
           match inner with
           | [PyStr deterministic_fmt] =>
               deterministic_fmt <- str_format deterministic_fmt name_ ;;
               Ok (mk_site (s_sample info)
                     (dict_set (s_deterministic info) deterministic_fmt
                        ([name_], given func_)))
           | _ => Err AttributeError
           end
       | _ => Err ValueError
       end)%res
  end.

(** The [site] property of the four classes. *)
Fixpoint site (n : node) : result site_info :=
  match n with
  | ParameterNode a _ distribution determ =>
      ParameterNode_site a distribution determ
  | ParameterOperationNode a p0 p1 =>
      let name_ := label_with_id name n in
      let lh_name := label_with_id name p0 in
      let rh_name := label_with_id name p1 in
      (lh <- site p0 ;;
       rh <- site p1 ;;
       let sample := dict_merge (s_sample lh) (s_sample rh) in
       let deterministic :=
         dict_merge (s_deterministic lh) (s_deterministic rh) in
       let operand_name := [lh_name; rh_name] in
       if str_eqb (a_name a) (py "+") then
         Ok (mk_site sample
               (dict_set deterministic name_ (operand_name, lambda_add)))
       else
         Ok (mk_site sample
               (dict_set deterministic name_ (operand_name, lambda_mul))))%res
  | ModelNode _ _ _ _ _ ps =>
      (sites <- (fix all (l : list node) : result (list site_info) :=
                   match l with
                   | [] => Ok []
                   | p :: l' => s <- site p ;; r <- all l' ;; Ok (s :: r)
                   end) ps ;;
       sample <- reduce dict_merge (map s_sample sites) ;;
       deterministic <- reduce dict_merge (map s_deterministic sites) ;;
       Ok (mk_site sample deterministic))%res
  | ModelOperationNode _ _ _ lh rh =>
      (lh <- site lh ;;
       rh <- site rh ;;
       Ok (mk_site (dict_merge (s_sample lh) (s_sample rh))
             (dict_merge (s_deterministic lh) (s_deterministic rh))))%res
  end.

(** [LabelSpace.mapping]: the object after the call and the dictionary
    returned. *)
Definition LabelSpace_mapping (ls : LabelSpace)
  : LabelSpace * (label_type -> list (str * str)) :=
  let ls := _check_if_label_changed ls fmt in
  (ls, _label_map ls).

(** [ModelNode.__add__] and [ModelOperationNode.__add__] *)
Definition Model_add (self other : node) : M node :=
  ModelOperationNode_init self other (py "+").

(** *** Trees the constructors build *)

(** The nodes of a tree that are no operation nodes, left to right. *)
Fixpoint leaf_nodes (n : node) : list node :=
  match n with
  | ParameterOperationNode _ lh rh => leaf_nodes lh ++ leaf_nodes rh
  | ModelOperationNode _ _ _ lh rh => leaf_nodes lh ++ leaf_nodes rh
  | _ => [n]
  end.

(** A model tree obtained from [ModelNode] leaves with [+] and [*]. *)
Inductive built : node -> Prop :=
| built_leaf nm fm mt ps fg nc w n w' :
    ModelNode_init nm fm mt ps fg nc w = (Ok n, w') -> built n
| built_op lh rh op w n w' :
    built lh -> built rh ->
    ModelOperationNode_init lh rh op w = (Ok n, w') -> built n.

(** [n.attrs['is_ncon']] is true. *)
Definition is_norm (n : node) : bool :=
  match attrs_is_ncon n with Ok true => true | _ => false end.



(** The exception compiling the leaf [m] raises, if it raises: [KeyError]
    when [mapping] has no entry for the name with id of the leaf, or what
    the generator raises for the mapped name, or what copying the
    generated object raises. *)
Definition leaf_failure (mapping : list (str * str)) (m : node)
  : option exn :=
  match m with
  | ModelNode a _ func_generator _ _ _ =>
      match dict_get mapping (Node_label_with_id name a) with
      | None => Some KeyError
      | Some model_name =>
          match (g <- func_generator model_name ;; copy_function g)%res with
          | Ok _ => None
          | Err e => Some e
          end
      end
  | _ => Some AttributeError
  end.

(** The failure of the first node of [l] that has one. *)
Fixpoint first_failure (mapping : list (str * str)) (l : list node)
  : option exn :=
  match l with
  | [] => None
  | m :: l' =>
      match leaf_failure mapping m with
      | Some e => Some e
      | None => first_failure mapping l'
      end
  end.

(** The leaf [m] can be compiled under the name [model_name]: its
    generator returns for that name, and what it returns can be copied. *)
Definition generates (m : node) (model_name : str) : Prop :=
  exists a k fg nc pn ps g f,
    m = ModelNode a k fg nc pn ps /\
    fg model_name = Ok g /\ copy_function g = Ok f.

(** The parameter leaves a tree depends on, from left to right: those of a
    parameter tree, and those of the parameters of every model leaf. *)
Fixpoint parameter_leaves (n : node) : list node :=
  match n with
  | ParameterNode _ _ _ _ => [n]
  | ParameterOperationNode _ lh rh =>
      parameter_leaves lh ++ parameter_leaves rh
  | ModelNode _ _ _ _ _ ps =>
      (fix go (l : list node) : list node :=
         match l with
         | [] => []
         | p :: l' => parameter_leaves p ++ go l'
         end) ps
  | ModelOperationNode _ _ _ lh rh =>
      parameter_leaves lh ++ parameter_leaves rh
  end.

(** Every model leaf has a parameter and no parameter leaf has a
    deterministic specification. *)
Fixpoint sampled (n : node) : bool :=
  match n with
  | ParameterNode _ _ _ det =>
      match det with None => true | Some _ => false end
  | ParameterOperationNode _ lh rh => sampled lh && sampled rh
  | ModelNode _ _ _ _ _ ps =>
      match ps with [] => false | _ :: _ => true end
      && (fix go (l : list node) : bool :=
            match l with
            | [] => true
            | p :: l' => sampled p && go l'
            end) ps
  | ModelOperationNode _ _ _ lh rh => sampled lh && sampled rh
  end.


(** [[p.site for p in l]], the list [ModelNode.site] starts from. *)
Fixpoint all_sites (l : list node) : result (list site_info) :=
  match l with
  | [] => Ok []
  | p :: l' => (s <- site p ;; r <- all_sites l' ;; Ok (s :: r))%res
  end.

(** The parameter operations a tree depends on, operands first. *)
Fixpoint parameter_operations (n : node) : list node :=
  match n with
  | ParameterNode _ _ _ _ => []
  | ParameterOperationNode _ lh rh =>
      (parameter_operations lh ++ parameter_operations rh) ++ [n]
  | ModelNode _ _ _ _ _ ps =>
      (fix go (l : list node) : list node :=
         match l with
         | [] => []
         | p :: l' => parameter_operations p ++ go l'
         end) ps
  | ModelOperationNode _ _ _ lh rh =>
      parameter_operations lh ++ parameter_operations rh
  end.

(** The entries of a dictionary [s] are the nodes [L]: no key twice, the
    keys are the names with id of the nodes, and every entry is the entry
    [R] describes for a node, under the name with id of that node. *)
Definition entries_are {V} (R : node -> V -> Prop) (L : list node)
  (s : list (str * V)) : Prop :=
  NoDup (map fst s) /\
  (forall k, In k (map fst s) <-> In k (map (label_with_id name) L)) /\
  (forall k v, In (k, v) s ->
               exists m, In m L /\ k = label_with_id name m /\ R m v).

(** The sample site of a parameter leaf is its distribution. *)
Definition sample_of (m : node) (d : dist) : Prop :=
  exists a c det, m = ParameterNode a c d det.

(** The deterministic site of a parameter operation depends on the names
    with id of its operands, through the lambda for its operator. *)
Definition deterministic_of (m : node) (v : list str * site_func) : Prop :=
  exists a lh rh,
    m = ParameterOperationNode a lh rh /\
    v = ([label_with_id name lh; label_with_id name rh],
         if str_eqb (a_name a) (py "+") then lambda_add else lambda_mul).

End Embedding.

Arguments Dist {num Distribution} d.
Arguments Fixed {num Distribution} c.
Arguments VNone {num array}.
Arguments VDict {num array} d.
Arguments VArr {num array} a.
Arguments PyStr {num} s.
Arguments PyCallable {num}.
Arguments ParameterNode {num Distribution array} a default distribution
  deterministic.
Arguments ParameterNode_init {num} num_eqb {Distribution} validate_sample
  {array} name fmt default distribution deterministic _.
Arguments sub_nodes {num Distribution array} n.

(** ** A concrete run time for examples

    Integers for numbers, closed intervals for distributions, lists for
    arrays with element-wise arithmetic. *)

Module Toy.

Definition num := Z.
Definition Distribution := (Z * Z)%type.
Definition array := list Z.

Definition node := node num Distribution array.

Definition validate_sample (d : Distribution) (x : num) : bool :=
  (fst d <=? x)%Z && (x <=? snd d)%Z.

Fixpoint zip_with (f : Z -> Z -> Z) (a b : list Z) : result (list Z) :=
  match a, b with
  | [], [] => Ok []
  | x :: a', y :: b' =>
      match zip_with f a' b' with
      | Ok r => Ok (f x y :: r)
      | Err e => Err e
      end
  | _, _ => Err ValueError
  end.

Definition v_op (f : Z -> Z -> Z) (x y : val num array)
  : result (val num array) :=
  match x, y with
  | VArr a, VArr b =>
      match zip_with f a b with
      | Ok r => Ok (VArr r)
      | Err e => Err e
      end
  | _, _ => Err TypeError
  end.

Definition v_add := v_op Z.add.
Definition v_mul := v_op Z.mul.

(** A process in which the first 256 draws of [uuid4] are distinct. *)
Definition hex_of (n : nat) : str :=
  py "000000000000000000000000000000" ++
  [nth (n / 16) (py "0123456789abcdef") "f"%char;
   nth (n mod 16) (py "0123456789abcdef") "f"%char].

Definition w0 : world num :=
  mk_world [] hex_of 0 (fun _ => 0%Z) 0.

(** A process whose randomness source is broken: every draw is the same. *)
Definition w_stuck : world num :=
  mk_world [] (fun _ => py "5f0c2e9a41d84b6e8a3b7c1d9e0f2a64") 0
    (fun _ => 0%Z) 0.

(** A leaf evaluator with a fixed output. *)
Definition const_func (out : list Z) : func num array :=
  fun _ _ => Ok (VArr out).

(** A generator that returns that function under every name. *)
Definition const_gen (out : list Z) : str -> result (generated num array) :=
  fun _ => Ok (PyFunction (const_func out)).

(** A norm-convolution function that looks at both its arguments: it
    evaluates the flux function at the parameters [d] and the grid [e] and
    adds the flux to what it gets. *)
Definition probe_func (d : list (str * kwargs num)) (e : list Z)
  : func num array :=
  fun args _ =>
    match args with
    | [AFun ff; AVal flux] =>
        match ff [VDict d; VArr e] with
        | Ok y => v_add flux y
        | Err x => Err x
        end
    | _ => Err TypeError
    end.

(** A model leaf without parameters, with the [n]-th token as id. *)
Definition leaf (label : string) (n : nat) (mt : mtype) (is_ncon : bool)
  (out : list Z) : node :=
  ModelNode (mk_attrs (py label) (py label) false (hex_of n)) mt
    (const_gen out) is_ncon [] [].

(** A parameter leaf whose default lives at address [n]. *)
Definition param (label : string) (n : nat) (d : dist num Distribution)
  : node :=
  ParameterNode (mk_attrs (py label) (py label) false (hex_of n)) n d None.

(** An operation node over two model nodes, with the [n]-th token. *)
Definition op_node (op fmt_ : string) (n : nat) (mt : mtype)
  (lh rh : node) : node :=
  ModelOperationNode (mk_attrs (py op) (py fmt_) true (hex_of n)) mt false
    lh rh.

(** The mapping that names every leaf by its raw label. *)
Definition raw_names (leaves : list node) : list (str * str) :=
  map (fun n => (label_with_id name n, a_name (node_attrs n))) leaves.

(** A [format] for templates whose only replacement field is [{name}]. *)
Definition str_format (template name_ : str) : result str :=
  Ok (str_replace (py "{name}") name_ template).

End Toy.


(** ** The composition table as the specification words it

    The rows for [*] that the specification allows, with the kind and norm
    flag each row gives the result: a convolution on the right with a left
    operand that is not additive and at most one norm operand; an additive
    right operand with an additive or multiplicative left operand; two
    multiplicative operands. Any other pair is in no allowed row. *)
Definition claimed_star_row (k1 : mtype) (n1 : bool) (k2 : mtype) (n2 : bool)
  : option (mtype * bool) :=
  match k2 with
  | con =>
      if negb (mtype_eqb k1 add) && negb (n1 && n2)
      then Some (con, n1 || n2) else None
  | add =>
      if mtype_eqb k1 add || mtype_eqb k1 mul
      then Some (add, false) else None
  | mul =>
      if mtype_eqb k1 mul then Some (mul, false) else None
  end.

(** ** Properties *)

Section Properties.

Context {num Distribution array : Type}.
Variable float : num -> num.
Variable num_eqb : num -> num -> bool.
Variables num_add num_mul : num -> num -> num.
Variable validate_sample : Distribution -> num -> bool.
Variables v_add v_mul :
  val num array -> val num array -> result (val num array).

Local Abbreviation node := (node num Distribution array).
Local Abbreviation world := (world num).

Lemma str_eqb_refl (s : str) : str_eqb s s = true.
Proof. unfold str_eqb. destruct (str_eq_dec s s); congruence. Qed.

Lemma str_eqb_eq (s t : str) : str_eqb s t = true <-> s = t.
Proof. unfold str_eqb. destruct (str_eq_dec s t); split; congruence. Qed.

Lemma str_eqb_neq (s t : str) : str_eqb s t = false <-> s <> t.
Proof. unfold str_eqb. destruct (str_eq_dec s t); split; congruence. Qed.

Lemma str_mem_In (x : str) (l : list str) : str_mem x l = true <-> In x l.
Proof.
  unfold str_mem. rewrite existsb_exists. split.
  - intros (y & Hy & E). apply str_eqb_eq in E. now subst.
  - intros H. exists x. split; [assumption | apply str_eqb_refl].
Qed.

(** [Node.__init__] never writes to [_UUID]. *)
Lemma Node_init_UUID nm fm op ex (w : world) :
  _UUID (snd (Node_init nm fm op ex w)) = _UUID w.
Proof.
  unfold Node_init.
  destruct (str_mem (py "id") ex); [reflexivity |].
  destruct (str_mem (py "type") ex); [reflexivity |].
  unfold bind, uuid4, read_UUID; simpl.
  destruct (str_mem _ _); reflexivity.
Qed.

(** With no reserved key and a token that is not in [_UUID], the
    attributes are built from the next token. *)
Lemma Node_init_fresh nm fm op ex (w : world) :
  str_mem (py "id") ex = false ->
  str_mem (py "type") ex = false ->
  str_mem (uuid4_hex w (drawn w)) (_UUID w) = false ->
  Node_init nm fm op ex w
  = (Ok (mk_attrs nm fm op (uuid4_hex w (drawn w))), after_draw w).
Proof.
  intros H1 H2 H3. unfold Node_init. rewrite H1, H2.
  unfold bind, uuid4, read_UUID; simpl. rewrite H3. reflexivity.
Qed.


(** No constructor and no assignment writes to [_UUID]: it stays the empty
    list the module creates. *)
Lemma constructors_keep_UUID (w : world) :
  (forall nm fm d ds det,
      _UUID (snd (@ParameterNode_init num num_eqb Distribution
                    validate_sample array nm fm d ds det w)) = _UUID w) /\
  (forall (lh rh : node) op,
      _UUID (snd (ParameterOperationNode_init lh rh op w)) = _UUID w) /\
  (forall nm fm mt (ps : option (list (str * node))) fg nc,
      _UUID (snd (ModelNode_init nm fm mt ps fg nc w)) = _UUID w) /\
  (forall (lh rh : node) op,
      _UUID (snd (ModelOperationNode_init lh rh op w)) = _UUID w) /\
  (forall (n : node) value,
      _UUID (snd (set_default float num_eqb validate_sample n value w))
      = _UUID w).
Proof.
  repeat split; intros;
    unfold ParameterNode_init, ParameterOperationNode_init, ModelNode_init,
      ModelOperationNode_init, OperationNode_init, set_default, Node_init,
      bind, lift, ret, raise, uuid4, read_UUID, alloc, store;
    repeat match goal with
           | |- context [match ?x with _ => _ end] =>
               match x with
               | context [match _ with _ => _ end] => fail 1
               | _ => destruct x; simpl; try reflexivity
               end
           end.
Qed.

(** C1 (as the code behaves): nothing is ever recorded in [_UUID], so when
    the second of two node creations draws the token of the first, it
    succeeds with the same id instead of raising. *)
Theorem Node_init_collision_undetected :
  forall (w : world) name1 fmt1 op1 ex1 name2 fmt2 op2 ex2,
    _UUID w = [] ->
    uuid4_hex w (S (drawn w)) = uuid4_hex w (drawn w) ->
    str_mem (py "id") ex1 = false -> str_mem (py "type") ex1 = false ->
    str_mem (py "id") ex2 = false -> str_mem (py "type") ex2 = false ->
    exists a1 w1 a2 w2,
      Node_init name1 fmt1 op1 ex1 w = (Ok a1, w1) /\
      Node_init name2 fmt2 op2 ex2 w1 = (Ok a2, w2) /\
      a_id a2 = a_id a1 /\ _UUID w1 = [] /\ _UUID w2 = [].
Proof.
  intros w n1 f1 o1 e1 n2 f2 o2 e2 Hreg Hsame I1 T1 I2 T2.
  assert (F : forall v : world, _UUID v = [] ->
            str_mem (uuid4_hex v (drawn v)) (_UUID v) = false)
    by (intros v Hv; rewrite Hv; reflexivity).
  do 4 eexists.
  rewrite Node_init_fresh by auto.
  split; [reflexivity |].
  rewrite Node_init_fresh by auto.
  split; [reflexivity |]. simpl. auto.
Qed.


(** *** Composition of model nodes *)

Lemma attrs_mtype_model (n : node) (k : mtype) :
  attrs_mtype n = Ok k -> type n = model.
Proof. destruct n; simpl; congruence. Qed.

Lemma attrs_mtype_is_ncon (n : node) (k : mtype) :
  attrs_mtype n = Ok k -> exists b, attrs_is_ncon n = Ok b.
Proof. destruct n; simpl; try congruence; eauto. Qed.

(** The attributes [OperationNode.__init__] builds in a world whose
    registry is empty. *)
Lemma OperationNode_init_fresh (lh rh : node) (op : str) (w : world) :
  str_mem op [py "+"; py "*"] = true ->
  type lh = type rh ->
  _UUID w = [] ->
  OperationNode_init lh rh op w
  = (Ok (mk_attrs op (if str_eqb op (py "*") then py "\times" else op)
           true (uuid4_hex w (drawn w))), after_draw w).
Proof.
  intros Hop Hty Hreg. unfold OperationNode_init, _check_type, bind, lift.
  rewrite Hop, Hty. simpl.
  replace (ntype_eqb (type rh) (type rh)) with true
    by (destruct (type rh); reflexivity).
  simpl. apply Node_init_fresh; try reflexivity.
  rewrite Hreg. reflexivity.
Qed.

(** What [ModelOperationNode.__init__] does with [*] on two model nodes,
    by the kinds and norm flags of the operands. *)
Lemma ModelOperationNode_init_star (lh rh : node) (w : world) k1 n1 k2 n2 :
  attrs_mtype lh = Ok k1 -> attrs_is_ncon lh = Ok n1 ->
  attrs_mtype rh = Ok k2 -> attrs_is_ncon rh = Ok n2 ->
  _UUID w = [] ->
  ModelOperationNode_init lh rh (py "*") w =
  if (mtype_eqb k1 add && (mtype_eqb k2 add || mtype_eqb k2 con))
     || (n1 && n2)
  then (Err TypeError, w)
  else
    (Ok (ModelOperationNode
           (mk_attrs (py "*")
              (if negb (is_ModelOperationNode lh) && mtype_eqb k1 con
               then py "*" else py "\times")
              true (uuid4_hex w (drawn w)))
           (if mtype_eqb k1 add || mtype_eqb k2 add then add
            else if mtype_eqb k1 con || mtype_eqb k2 con then con else mul)
           (negb (mtype_eqb k1 add || mtype_eqb k2 add)
            && (mtype_eqb k1 con || mtype_eqb k2 con) && (n1 || n2))
           lh rh),
     after_draw w).
Proof.
  intros H1 H2 H3 H4 Hreg.
  pose proof (attrs_mtype_model _ H1) as T1.
  pose proof (attrs_mtype_model _ H3) as T2.
  unfold ModelOperationNode_init, bind, lift, _check_type.
  rewrite T1, T2, H1, H3. simpl.
  destruct k1, k2; simpl; rewrite ?H2, ?H4; simpl;
    destruct n1, n2; simpl; try reflexivity;
    rewrite ?H2, ?H4; simpl;
    (rewrite OperationNode_init_fresh;
     [ | reflexivity | congruence | assumption ]);
    unfold attrs_get_mtype_is_con, with_fmt; rewrite H1; simpl;
    destruct (is_ModelOperationNode lh); reflexivity.
Qed.

(** A failing [*] raises before anything is drawn, whatever [_UUID]
    holds. *)
Lemma ModelOperationNode_init_star_illegal (lh rh : node) (w : world)
  k1 n1 k2 n2 :
  attrs_mtype lh = Ok k1 -> attrs_is_ncon lh = Ok n1 ->
  attrs_mtype rh = Ok k2 -> attrs_is_ncon rh = Ok n2 ->
  (mtype_eqb k1 add && (mtype_eqb k2 add || mtype_eqb k2 con))
  || (n1 && n2) = true ->
  ModelOperationNode_init lh rh (py "*") w = (Err TypeError, w).
Proof.
  intros H1 H2 H3 H4 Hbad.
  pose proof (attrs_mtype_model _ H1) as T1.
  pose proof (attrs_mtype_model _ H3) as T2.
  unfold ModelOperationNode_init, bind, lift, _check_type.
  rewrite T1, T2, H1, H3. simpl.
  destruct k1, k2; simpl in *; rewrite ?H2, ?H4; simpl;
    destruct n1, n2; simpl in *; try reflexivity; try discriminate;
    rewrite ?H2, ?H4; simpl; reflexivity.
Qed.

(** [+] on two additive model nodes. *)
Lemma ModelOperationNode_init_plus (lh rh : node) (w : world) :
  attrs_mtype lh = Ok add -> attrs_mtype rh = Ok add ->
  _UUID w = [] ->
  ModelOperationNode_init lh rh (py "+") w =
  (Ok (ModelOperationNode
         (mk_attrs (py "+") (py "+") true (uuid4_hex w (drawn w)))
         add false lh rh),
   after_draw w).
Proof.
  intros H1 H3 Hreg.
  pose proof (attrs_mtype_model _ H1) as T1.
  pose proof (attrs_mtype_model _ H3) as T2.
  unfold ModelOperationNode_init, bind, lift, _check_type.
  rewrite T1, T2, H1, H3. simpl.
  rewrite OperationNode_init_fresh;
    [ | reflexivity | congruence | assumption ].
  unfold attrs_get_mtype_is_con, with_fmt; rewrite H1; simpl.
  rewrite andb_false_r. reflexivity.
Qed.

(** C5: on two additive model nodes [*] always raises, and [+] always
    succeeds (the registry [_UUID] being empty, as the module leaves it)
    and yields an additive node. *)
Theorem additive_star_raises_plus_succeeds :
  forall (lh rh : node) (w : world),
    attrs_mtype lh = Ok add -> attrs_mtype rh = Ok add ->
    ModelOperationNode_init lh rh (py "*") w = (Err TypeError, w) /\
    (_UUID w = [] ->
     exists n w', ModelOperationNode_init lh rh (py "+") w = (Ok n, w') /\
                  attrs_mtype n = Ok add /\ predecessor n = [lh; rh]).
Proof.
  intros lh rh w H1 H2. split.
  - destruct (attrs_mtype_is_ncon _ H1) as [n1 N1].
    destruct (attrs_mtype_is_ncon _ H2) as [n2 N2].
    now apply (ModelOperationNode_init_star_illegal lh rh w H1 N1 H2 N2).
  - intros Hreg. rewrite ModelOperationNode_init_plus by assumption.
    do 2 eexists. split; [reflexivity |]. split; reflexivity.
Qed.

(** C6: [*] on two norm-convolution model nodes raises, in either
    order. *)
Theorem norm_convolution_star_raises :
  forall (lh rh : node) (w : world),
    attrs_mtype lh = Ok con -> attrs_is_ncon lh = Ok true ->
    attrs_mtype rh = Ok con -> attrs_is_ncon rh = Ok true ->
    ModelOperationNode_init lh rh (py "*") w = (Err TypeError, w) /\
    ModelOperationNode_init rh lh (py "*") w = (Err TypeError, w).
Proof.
  intros lh rh w H1 N1 H2 N2. split.
  - now apply (ModelOperationNode_init_star_illegal lh rh w H1 N1 H2 N2).
  - now apply (ModelOperationNode_init_star_illegal rh lh w H2 N2 H1 N1).
Qed.


(** C3 (amended): [*] on two model nodes raises exactly when the left
    operand is additive and the right one additive or convolution, or when
    both operands carry the norm flag. Otherwise it succeeds at once; the
    result is additive when either operand is additive, else convolution
    when either is convolution (norm iff either operand is norm), else
    multiplicative. *)
Theorem star_composition_outcome :
  forall (lh rh : node) (w : world) k1 n1 k2 n2,
    attrs_mtype lh = Ok k1 -> attrs_is_ncon lh = Ok n1 ->
    attrs_mtype rh = Ok k2 -> attrs_is_ncon rh = Ok n2 ->
    _UUID w = [] ->
    let illegal :=
      (k1 = add /\ (k2 = add \/ k2 = con)) \/ (n1 = true /\ n2 = true) in
    (illegal ->
     ModelOperationNode_init lh rh (py "*") w = (Err TypeError, w)) /\
    (~ illegal ->
     exists n w',
       ModelOperationNode_init lh rh (py "*") w = (Ok n, w') /\
       predecessor n = [lh; rh] /\
       (k1 = add \/ k2 = add ->
        attrs_mtype n = Ok add /\ attrs_is_ncon n = Ok false) /\
       (k1 <> add -> k2 <> add -> k1 = con \/ k2 = con ->
        attrs_mtype n = Ok con /\ attrs_is_ncon n = Ok (n1 || n2)) /\
       (k1 = mul -> k2 = mul ->
        attrs_mtype n = Ok mul /\ attrs_is_ncon n = Ok false)).
Proof.
  intros lh rh w k1 n1 k2 n2 H1 N1 H2 N2 Hreg illegal. subst illegal.
  split.
  - intros Hbad.
    apply (ModelOperationNode_init_star_illegal lh rh w H1 N1 H2 N2).
    destruct Hbad as [[-> [-> | ->]] | [-> ->]]; simpl;
      try reflexivity; apply orb_true_r.
  - intros Hgood.
    rewrite (ModelOperationNode_init_star lh rh w H1 N1 H2 N2 Hreg).
    destruct k1, k2, n1, n2; simpl;
      try (exfalso; apply Hgood; tauto);
      (do 2 eexists; split; [reflexivity |]; split; [reflexivity |];
       simpl; repeat split; intros; try congruence;
       repeat match goal with H : _ \/ _ |- _ => destruct H end;
       congruence).
Qed.


(** *** Parameter leaves and their defaults *)

Lemma _validate_default_ok d x :
  _validate_default num_eqb validate_sample d x = Ok tt
  <-> in_domain num_eqb validate_sample d x.
Proof.
  unfold _validate_default, in_domain.
  destruct d as [d' | c];
    [destruct (validate_sample d' x) | destruct (num_eqb c x)];
    simpl; split; congruence.
Qed.

Lemma _validate_default_err d x :
  ~ in_domain num_eqb validate_sample d x ->
  _validate_default num_eqb validate_sample d x = Err ValueError.
Proof.
  unfold _validate_default, in_domain.
  destruct d as [d' | c];
    [destruct (validate_sample d' x) | destruct (num_eqb c x)];
    simpl; congruence.
Qed.

Lemma _validate_input_result (ds : dist num Distribution) det :
  _validate_input ds det = Ok tt \/ _validate_input ds det = Err ValueError.
Proof.
  unfold _validate_input.
  destruct det as [[s | x | | [| [s | x | | names] [| d1 [| d2 rest]]]] |];
    auto.
  destruct (is_callable d1); simpl; auto.
  destruct (forallb _ names); simpl; auto.
Qed.

Lemma Node_init_heap nm fm op ex (w : world) :
  heap (snd (Node_init nm fm op ex w)) = heap w.
Proof.
  unfold Node_init.
  destruct (str_mem (py "id") ex); [reflexivity |].
  destruct (str_mem (py "type") ex); [reflexivity |].
  unfold bind, uuid4, read_UUID; simpl.
  destruct (str_mem _ _); reflexivity.
Qed.

(** A successful [ParameterNode.__init__] yields a leaf that stores the
    validated default and the distribution it was given. *)
Lemma ParameterNode_init_ok nm fm d ds det (w w' : world) (n : node) :
  ParameterNode_init num_eqb validate_sample nm fm d ds det w = (Ok n, w') ->
  in_domain num_eqb validate_sample ds d /\
  exists a cell, n = ParameterNode a cell ds det /\ heap w' cell = d.
Proof.
  unfold ParameterNode_init, bind, lift.
  destruct (_validate_input ds det) as [[] | e]; [| discriminate].
  destruct (_validate_default num_eqb validate_sample ds d) as [[] | e] eqn:V;
    [| discriminate].
  apply _validate_default_ok in V. simpl.
  match goal with |- context [Node_init ?a ?b ?c ?e ?v] =>
    pose proof (Node_init_heap a b c e v) as Hh;
    destruct (Node_init a b c e v) as [[a0 | e0] w1] end;
    [| discriminate].
  unfold ret. intros E. inversion E; subst. split; [assumption |].
  do 2 eexists. split; [reflexivity |].
  simpl in Hh. rewrite Hh. simpl. now rewrite Nat.eqb_refl.
Qed.

(** C7: after a successful construction, and after every successful
    assignment to [default], the stored default is in the domain of the
    leaf's distribution (inside the support, or equal to the constant);
    a construction or an assignment with a value outside the domain
    raises, and the failed assignment leaves the stored default as it
    was. *)
Theorem parameter_default_in_domain :
  forall (w : world),
    (forall nm fm d ds det (n : node) w',
        ParameterNode_init num_eqb validate_sample nm fm d ds det w
        = (Ok n, w') ->
        default num_add num_mul n w' = Ok d /\
        in_domain num_eqb validate_sample ds d) /\
    (forall nm fm d ds det,
        ~ in_domain num_eqb validate_sample ds d ->
        @ParameterNode_init num num_eqb Distribution validate_sample array
          nm fm d ds det w = (Err ValueError, w)) /\
    (forall a cell ds det value w',
        set_default float num_eqb validate_sample
          (ParameterNode a cell ds det : node) value w = (Ok tt, w') ->
        default num_add num_mul (ParameterNode a cell ds det : node) w'
        = Ok (float value) /\
        in_domain num_eqb validate_sample ds (float value)) /\
    (forall a cell ds det value,
        ~ in_domain num_eqb validate_sample ds (float value) ->
        set_default float num_eqb validate_sample
          (ParameterNode a cell ds det : node) value w
        = (Err ValueError, w)).
Proof.
  intros w. repeat split.
  - destruct (ParameterNode_init_ok _ _ _ _ _ _ H)
      as (_ & a & cell & -> & Hc).
    simpl. now rewrite Hc.
  - now destruct (ParameterNode_init_ok _ _ _ _ _ _ H).
  - intros nm fm d ds det Hbad.
    unfold ParameterNode_init, bind, lift.
    destruct (_validate_input_result ds det) as [-> | ->]; [| reflexivity].
    now rewrite (_validate_default_err _ _ Hbad).
  - revert H. unfold set_default, bind, lift, store.
    destruct (_validate_default num_eqb validate_sample ds (float value))
      as [[] | e]; [| discriminate].
    intros E. inversion E; subst. simpl. now rewrite Nat.eqb_refl.
  - revert H. unfold set_default, bind, lift, store.
    destruct (_validate_default num_eqb validate_sample ds (float value))
      as [[] | e] eqn:V; [| discriminate].
    intros _. now apply _validate_default_ok.
  - intros a cell ds det value Hbad. unfold set_default, bind, lift.
    now rewrite (_validate_default_err _ _ Hbad).
Qed.

(** C8: the default of a parameter composite is read from the current
    defaults of its two operands at each access: in every world it is
    their sum for [+] and their product for [*], also after an operand's
    default has been assigned a new value. *)
Theorem composite_default_from_operands :
  forall (p q : node) (w : world),
    type p = parameter -> type q = parameter -> _UUID w = [] ->
    exists plus w1 times w2,
      ParameterOperationNode_init p q (py "+") w = (Ok plus, w1) /\
      ParameterOperationNode_init p q (py "*") w1 = (Ok times, w2) /\
      (forall (v : world),
          default num_add num_mul plus v
          = (x <- default num_add num_mul p v ;;
             y <- default num_add num_mul q v ;; Ok (num_add x y))%res /\
          default num_add num_mul times v
          = (x <- default num_add num_mul p v ;;
             y <- default num_add num_mul q v ;; Ok (num_mul x y))%res) /\
      (forall a cell ds det value (v v' : world),
          p = ParameterNode a cell ds det ->
          set_default float num_eqb validate_sample p value v = (Ok tt, v') ->
          default num_add num_mul plus v'
          = (y <- default num_add num_mul q v' ;;
             Ok (num_add (float value) y))%res /\
          default num_add num_mul times v'
          = (y <- default num_add num_mul q v' ;;
             Ok (num_mul (float value) y))%res).
Proof.
  intros p q w Tp Tq Hreg.
  assert (E : forall op (v : world),
             str_mem op [py "+"; py "*"] = true -> _UUID v = [] ->
             ParameterOperationNode_init p q op v
             = (Ok (ParameterOperationNode
                      (mk_attrs op
                         (if str_eqb op (py "*") then py "\times" else op)
                         true (uuid4_hex v (drawn v))) p q),
                after_draw v)).
  { intros op v Hop Hv. unfold ParameterOperationNode_init, bind.
    rewrite OperationNode_init_fresh; [reflexivity | | congruence |];
      assumption. }
  do 4 eexists. split; [apply E; [reflexivity | assumption] |].
  split; [apply E; [reflexivity | assumption] |].
  split.
  - intros v. simpl. split; reflexivity.
  - intros a cell ds det value v v' -> Hset.
    assert (Hp : heap v' cell = float value).
    { revert Hset. unfold set_default, bind, lift, store.
      destruct (_validate_default num_eqb validate_sample ds (float value))
        as [[] | e]; [| discriminate].
      intros X. inversion X; subst. simpl. now rewrite Nat.eqb_refl. }
    simpl. rewrite Hp. split; reflexivity.
Qed.


(** *** Compiled evaluators *)

Local Abbreviation generate_func := (generate_func v_add v_mul).

(** A successful [ModelOperationNode.__init__] yields an operation node
    over its two operands, named after the operator. *)
Lemma ModelOperationNode_init_shape (lh rh n : node) op (w w' : world) :
  ModelOperationNode_init lh rh op w = (Ok n, w') ->
  exists a k nc, n = ModelOperationNode a k nc lh rh /\ a_name a = op.
Proof.
  unfold ModelOperationNode_init, OperationNode_init, Node_init, bind, lift,
    ret, raise, uuid4, read_UUID.
  repeat match goal with
         | |- context [match ?x with _ => _ end] =>
             match x with
             | context [match _ with _ => _ end] => fail 1
             | _ => destruct x; simpl; try discriminate
             end
         end;
    intros E; inversion E; subst; do 3 eexists; split; reflexivity.
Qed.

(** Compiling a leaf succeeds when [mapping] names it, the generator
    returns under that name and what it returns can be copied; the
    evaluator is the closure for the kind of the leaf around the copy. *)
Lemma generate_func_leaf a mt fg nc pn ps mapping ev :
  generate_func (ModelNode a mt fg nc pn ps : node) mapping = Ok ev ->
  exists model_name g func_,
    dict_get mapping (Node_label_with_id name a) = Some model_name /\
    fg model_name = Ok g /\ copy_function g = Ok func_ /\
    ev = match mt with
         | add => wrapper_add func_ model_name
         | mul => wrapper_mul func_ model_name
         | con => if nc then wrapper_ncon func_ model_name
                  else wrapper_con func_ model_name
         end.
Proof.
  simpl. destruct (dict_get mapping (Node_label_with_id name a)) as [s |];
    [| discriminate].
  destruct (fg s) as [g |] eqn:G; [| discriminate]. simpl.
  destruct (copy_function g) as [f |] eqn:C; [| discriminate]. simpl.
  intros H. exists s, g, f. repeat (split; [reflexivity || assumption |]).
  destruct mt; [| | destruct nc]; inversion H; reflexivity.
Qed.

(** Every leaf closure subscripts its first argument with the model name,
    and every composite closure hands its first argument (for
    [wrapper_ncon_mul]: as first argument of [m2]) to a sub-evaluator
    first: an array in first position makes any compiled evaluator
    raise. *)
Lemma evaluator_array_first (n : node) :
  forall mapping ev,
    generate_func n mapping = Ok ev ->
    forall a rest, is_ok (ev (AVal (VArr a) :: rest)) = false.
Proof.
  induction n as [ | | a mt fg nc pn ps | a mt nc lh IHl rh IHr ];
    intros mapping ev H; try discriminate.
  - apply generate_func_leaf in H as (s & g & f & _ & _ & _ & ->).
    destruct mt; [| | destruct nc]; intros x rest;
      destruct rest as [| ? [| ? [| ? [| ? ?]]]]; reflexivity.
  - simpl in H.
    destruct (generate_func lh mapping) as [m1 |] eqn:G1;
      [| discriminate].
    destruct (generate_func rh mapping) as [m2 |] eqn:G2;
      [| discriminate].
    specialize (IHl _ _ G1). specialize (IHr _ _ G2). simpl in H.
    assert (F1 : forall x rest, m1 (AVal (VArr x) :: rest) = Err
                                  match m1 (AVal (VArr x) :: rest) with
                                  | Err e => e | Ok _ => TypeError end).
    { intros x rest. specialize (IHl x rest).
      destruct (m1 _); [discriminate | reflexivity]. }
    assert (F2 : forall x rest, m2 (AVal (VArr x) :: rest) = Err
                                  match m2 (AVal (VArr x) :: rest) with
                                  | Err e => e | Ok _ => TypeError end).
    { intros x rest. specialize (IHr x rest).
      destruct (m2 _); [discriminate | reflexivity]. }
    destruct (attrs_mtype lh) as [t1 |]; [| discriminate].
    destruct (attrs_mtype rh) as [t2 |]; [| discriminate]. simpl in H.
    match type of H with
    | context [str_eqb ?x ?y] => destruct (str_eqb x y)
    end;
      [| destruct t1, t2; simpl in H;
         repeat match type of H with
                | context [attrs_is_ncon ?x] =>
                    destruct (attrs_is_ncon x) as [[] |]; simpl in H
                end; try discriminate ];
      inversion H; subst; intros x rest;
      destruct rest as [| ? [| ? [| ? [| ? ?]]]]; simpl;
      try reflexivity;
      try (rewrite F2; reflexivity); try (rewrite F1; reflexivity).
Qed.


(** C2 (as the code behaves): [wrapper_ncon_mul] binds its first argument
    to [e] and its second to [p]. Called in the uniform order, with the
    parameter dictionary first and the energy grid second, the evaluator
    of a norm-convolution node times a multiplicative node hands the grid
    to the norm-convolution operand as its parameters and raises; it never
    returns a value. With the grid first it raises as well, in the
    multiplicative operand. *)
Theorem ncon_mul_evaluator_rejects_uniform_call :
  forall (lh rh n : node) (w w' : world) mapping ev,
    attrs_mtype lh = Ok con -> attrs_is_ncon lh = Ok true ->
    attrs_mtype rh = Ok mul ->
    ModelOperationNode_init lh rh (py "*") w = (Ok n, w') ->
    generate_func n mapping = Ok ev ->
    forall p e f ff,
      is_ok (ev [AVal (VDict p); AVal (VArr e); f; ff]) = false /\
      is_ok (ev [AVal (VArr e); AVal (VDict p); f; ff]) = false.
Proof.
  intros lh rh n w w' mapping ev K1 N1 K2 Hinit Hgen p e f ff.
  split; [| apply (evaluator_array_first n mapping Hgen)].
  destruct (ModelOperationNode_init_shape _ _ _ _ Hinit)
    as (a & k & nc & -> & Hop).
  simpl in Hgen.
  destruct (generate_func lh mapping) as [m1 |] eqn:G1; [| discriminate].
  destruct (generate_func rh mapping) as [m2 |] eqn:G2; [| discriminate].
  rewrite K1, K2, Hop in Hgen. simpl in Hgen. rewrite N1 in Hgen.
  simpl in Hgen. inversion Hgen; subst ev. simpl.
  destruct (m2 _); [| reflexivity]. simpl.
  destruct (mul_by v_mul a0 f); [| reflexivity]. simpl.
  apply (evaluator_array_first lh mapping G1).
Qed.

(** C4: for a norm-convolution leaf [A] and additive leaves [B] and [C]
    whose generators return, for the mapped names, objects that can be
    copied as functions, [B + C] and [A * (B + C)] can be built and
    compiled, and the evaluator compiled for [A * (B + C)]
    returns what the evaluator of [A] returns for the flux
    [evaluate(B) + evaluate(C)] and a flux evaluator [ff] that is the
    compiled evaluator of [B + C]: applied to plain values, [ff] returns
    what that evaluator returns for them. With leaf functions of fixed
    outputs the result is the function of [A] applied to [ff] and the sum
    of the two outputs, and whenever the function of [A] calls [ff] on
    parameters that name [B] and [C] it gets that sum. *)
Theorem ncon_times_sum_evaluator :
  forall aA fA pnA psA aB fB ncB pnB psB aC fC ncC pnC psC
         (w : world) mapping nameA nameB nameC gA gB gC funcA funcB funcC,
    let A : node := ModelNode aA con fA true pnA psA in
    let B : node := ModelNode aB add fB ncB pnB psB in
    let C : node := ModelNode aC add fC ncC pnC psC in
    _UUID w = [] ->
    dict_get mapping (label_with_id name A) = Some nameA ->
    dict_get mapping (label_with_id name B) = Some nameB ->
    dict_get mapping (label_with_id name C) = Some nameC ->
    fA nameA = Ok gA -> copy_function gA = Ok funcA ->
    fB nameB = Ok gB -> copy_function gB = Ok funcB ->
    fC nameC = Ok gC -> copy_function gC = Ok funcC ->
    exists bc w1 t w2 evA evB evC evBC evT (ff : flux_func num array),
      ModelOperationNode_init B C (py "+") w = (Ok bc, w1) /\
      ModelOperationNode_init A bc (py "*") w1 = (Ok t, w2) /\
      generate_func A mapping = Ok evA /\
      generate_func B mapping = Ok evB /\
      generate_func C mapping = Ok evC /\
      generate_func bc mapping = Ok evBC /\
      generate_func t mapping = Ok evT /\
      (forall vs, ff vs = evBC (map (@AVal _ _) vs)) /\
      (forall p e rest,
          evBC (p :: e :: rest)
          = (x <- evB [p; e] ;; y <- evC [p; e] ;; v_add x y)%res) /\
      (forall p e rest,
          evT (p :: e :: rest)
          = (flux <- evBC [p; e] ;; evA [p; e; AVal flux; AFun ff])%res) /\
      (forall p e flux flux_func,
          evA [p; e; flux; flux_func]
          = (kw <- getitem p nameA ;; funcA [flux_func; flux] kw)%res) /\
      (forall outB outC sum d kwA kwB kwC e rest,
          (forall args kw, funcB args kw = Ok outB) ->
          (forall args kw, funcC args kw = Ok outC) ->
          v_add outB outC = Ok sum ->
          dict_get d nameA = Some kwA ->
          dict_get d nameB = Some kwB ->
          dict_get d nameC = Some kwC ->
          evT (AVal (VDict d) :: e :: rest)
          = funcA [AFun ff; AVal sum] kwA /\
          (forall d' kwB' kwC' e',
              dict_get d' nameB = Some kwB' ->
              dict_get d' nameC = Some kwC' ->
              ff [VDict d'; e'] = Ok sum)).
Proof.
  intros aA fA pnA psA aB fB ncB pnB psB aC fC ncC pnC psC
    w mapping nameA nameB nameC gA gB gC funcA funcB funcC A B C
    Hreg HA HB HC GA CA GB CB GC CC.
  simpl in HA, HB, HC.
  assert (EA : generate_func A mapping = Ok (wrapper_ncon funcA nameA))
    by (simpl; rewrite HA; simpl; rewrite GA; simpl; now rewrite CA).
  assert (EB : generate_func B mapping = Ok (wrapper_add funcB nameB))
    by (simpl; rewrite HB; simpl; rewrite GB; simpl; now rewrite CB).
  assert (EC : generate_func C mapping = Ok (wrapper_add funcC nameC))
    by (simpl; rewrite HC; simpl; rewrite GC; simpl; now rewrite CC).
  eexists _, _, _, _, _, _, _, _, _, _.
  split.
  { apply ModelOperationNode_init_plus; [reflexivity | reflexivity |].
    assumption. }
  split.
  { rewrite (@ModelOperationNode_init_star A _ (after_draw w)
               con true add false); try reflexivity.
    simpl. assumption. }
  split; [exact EA |]. split; [exact EB |]. split; [exact EC |].
  split.
  { change (generate_func (ModelOperationNode ?a ?k ?n B C) mapping)
      with (m1 <- generate_func B mapping ;;
            m2 <- generate_func C mapping ;;
            Ok (wrapper_add_add v_add m1 m2))%res.
    rewrite EB, EC. reflexivity. }
  split.
  { match goal with
    | |- generate_func (ModelOperationNode ?a ?k ?n A ?bc) mapping = _ =>
        change (generate_func (ModelOperationNode a k n A bc) mapping)
          with (m1 <- generate_func A mapping ;;
                m2 <- generate_func bc mapping ;;
                Ok (wrapper_ncon_add m1 m2))%res
    end.
    rewrite EA.
    change (generate_func (ModelOperationNode ?a ?k ?n B C) mapping)
      with (m1 <- generate_func B mapping ;;
            m2 <- generate_func C mapping ;;
            Ok (wrapper_add_add v_add m1 m2))%res.
    rewrite EB, EC. reflexivity. }
  split; [intros vs; reflexivity |].
  split; [reflexivity |].
  split; [reflexivity |].
  split; [reflexivity |].
  intros outB outC sum d kwA kwB kwC e rest FB FC Hsum DA DB DC. split.
  - simpl. rewrite DB, DC. simpl. rewrite FB, FC. simpl. rewrite Hsum.
    simpl. rewrite DA. reflexivity.
  - intros d' kwB' kwC' e' DB' DC'. simpl. rewrite DB', DC'. simpl.
    rewrite FB, FC. simpl. exact Hsum.
Qed.



(** *** The constructors build finished trees *)

Lemma OperationNode_init_attrs (lh rh : node) op (w w' : world) a :
  OperationNode_init lh rh op w = (Ok a, w') ->
  a_is_operation a = true /\ a_name a = op /\
  str_mem op [py "+"; py "*"] = true /\
  a_fmt a = (if str_eqb op (py "*") then py "\times" else op).
Proof.
  unfold OperationNode_init, _check_type, Node_init, bind, lift, ret, raise,
    uuid4, read_UUID.
  destruct (str_mem op [py "+"; py "*"]) eqn:Hop; simpl; [| discriminate].
  destruct (ntype_eqb (type lh) (type rh)); simpl; [| discriminate].
  destruct (str_mem _ (_UUID w)); [discriminate |].
  intros E. inversion E; subst. simpl. auto.
Qed.

Lemma operator_fmt_ok op :
  str_mem op [py "+"; py "*"] = true ->
  str_mem (if str_eqb op (py "*") then py "\times" else op)
    [py "+"; py "\times"; py "*"] = true.
Proof.
  intros H. apply str_mem_In in H.
  destruct H as [<- | [<- | []]]; reflexivity.
Qed.

Lemma finished_operation (a : attrs) (lh rh : node) :
  a_is_operation a = true ->
  str_mem (a_name a) [py "+"; py "*"] = true ->
  str_mem (a_fmt a) [py "+"; py "\times"; py "*"] = true ->
  finished lh = true -> finished rh = true ->
  finished (ParameterOperationNode a lh rh) = true /\
  forall k nc, finished (ModelOperationNode a k nc lh rh) = true.
Proof.
  intros H1 H2 H3 H4 H5.
  change (finished (ParameterOperationNode a lh rh))
    with (a_is_operation a && str_mem (a_name a) [py "+"; py "*"]
          && str_mem (a_fmt a) [py "+"; py "\times"; py "*"]
          && finished lh && finished rh).
  split; [now rewrite H1, H2, H3, H4, H5 |]. intros k nc.
  change (finished (ModelOperationNode a k nc lh rh))
    with (a_is_operation a && str_mem (a_name a) [py "+"; py "*"]
          && str_mem (a_fmt a) [py "+"; py "\times"; py "*"]
          && finished lh && finished rh).
  now rewrite H1, H2, H3, H4, H5.
Qed.

Lemma ParameterOperationNode_init_finished (lh rh n : node) op
  (w w' : world) :
  finished lh = true -> finished rh = true ->
  ParameterOperationNode_init lh rh op w = (Ok n, w') ->
  finished n = true.
Proof.
  intros Fl Fr. unfold ParameterOperationNode_init, bind, ret.
  destruct (OperationNode_init lh rh op w) as [[a | e] w1] eqn:E;
    [| discriminate].
  apply OperationNode_init_attrs in E as (Ho & Hn & Hop & Hf).
  intros X. inversion X; subst n.
  apply finished_operation; try assumption.
  - now rewrite Hn.
  - rewrite Hf. now apply operator_fmt_ok.
Qed.

Lemma ModelOperationNode_init_finished (lh rh n : node) op (w w' : world) :
  finished lh = true -> finished rh = true ->
  ModelOperationNode_init lh rh op w = (Ok n, w') ->
  finished n = true.
Proof.
  intros Fl Fr. unfold ModelOperationNode_init, bind, ret.
  repeat match goal with
         | |- context [OperationNode_init ?a ?b ?c ?v] =>
             let E := fresh "E" in
             destruct (OperationNode_init a b c v) as [[? | ?] ?] eqn:E;
             [apply OperationNode_init_attrs in E as (Ho & Hn & Hop & Hf)
             | try discriminate]
         | |- context [match ?x with _ => _ end] =>
             match x with
             | context [match _ with _ => _ end] => fail 1
             | context [OperationNode_init] => fail 1
             | _ => destruct x; simpl; try discriminate
             end
         end;
    intros X; inversion X; subst n;
    apply finished_operation; try assumption;
    unfold with_fmt; simpl; rewrite ?Hn, ?Hf;
    try assumption; try reflexivity; now apply operator_fmt_ok.
Qed.

Lemma ModelNode_init_finished nm fm mt ps fg nc (n : node) (w w' : world) :
  is_uuid (uuid4_hex w (drawn w)) = true ->
  ModelNode_init nm fm mt ps fg nc w = (Ok n, w') ->
  finished n = true.
Proof.
  intros U. unfold ModelNode_init, Node_init, bind, lift, ret, raise, uuid4,
    read_UUID.
  destruct (parse_mtype mt); [| discriminate].
  destruct ps as [d |]; [destruct (forallb _ _) |]; simpl;
    try discriminate;
    (destruct (str_mem _ (_UUID w)); [discriminate |]);
    intros X; inversion X; subst n; simpl; now rewrite U.
Qed.

Lemma ParameterNode_init_finished nm fm d ds det (n : node) (w w' : world) :
  is_uuid (uuid4_hex w (drawn w)) = true ->
  ParameterNode_init num_eqb validate_sample nm fm d ds det w = (Ok n, w') ->
  finished n = true.
Proof.
  intros U. unfold ParameterNode_init, Node_init, bind, lift, ret, raise,
    uuid4, read_UUID, alloc.
  destruct (_validate_input ds det) as [[] | e]; [| discriminate].
  destruct (_validate_default num_eqb validate_sample ds d) as [[] | e];
    [| discriminate].
  simpl. destruct (str_mem _ (_UUID w)); [discriminate |].
  intros X. inversion X; subst n. simpl. now rewrite U.
Qed.

(** *** LabelSpace: the traversal *)

Lemma sub_nodes_leaf (n : node) :
  a_is_operation (node_attrs n) = false -> sub_nodes n = [n].
Proof. intros H. destruct n; simpl in *; rewrite H; reflexivity. Qed.

Lemma sub_nodes_operation (n : node) :
  a_is_operation (node_attrs n) = true ->
  sub_nodes n = flat_map sub_nodes (predecessor n).
Proof.
  intros H. destruct n; simpl in *; rewrite H; simpl;
    rewrite ?app_nil_r; reflexivity.
Qed.

(** The loop of [_get_suffix_mapping] visits the nodes of [sub_nodes],
    stack after stack. *)
Lemma suffix_loop_fold (l : label_type) (stack : list node) st :
  suffix_loop l stack st
  = fold_left (fun s i => suffix_visit l i s) (flat_map sub_nodes stack) st.
Proof.
  funelim (suffix_loop l stack st); [reflexivity |].
  destruct (a_is_operation (node_attrs i)) eqn:F; simpl in *.
  - rewrite H0. rewrite flat_map_app, (sub_nodes_operation i F).
    reflexivity.
  - rewrite H. rewrite (sub_nodes_leaf i F). reflexivity.
Qed.

Lemma sub_nodes_loop_fold (l : label_type) (stack : list node) acc :
  sub_nodes_loop l stack acc
  = acc ++ map (fun i => (i, attrs_label l (node_attrs i)))
             (flat_map sub_nodes stack).
Proof.
  funelim (sub_nodes_loop l stack acc); [now rewrite app_nil_r |].
  destruct (a_is_operation (node_attrs i)) eqn:F; simpl in *.
  - rewrite H0. rewrite flat_map_app, (sub_nodes_operation i F).
    reflexivity.
  - rewrite H. rewrite (sub_nodes_leaf i F). simpl.
    now rewrite <- app_assoc.
Qed.

(** In a finished tree the visited nodes are the leaves. *)
Lemma sub_nodes_finished (n : node) :
  finished n = true -> map (@node_attrs _ _ _) (sub_nodes n) = leaves n.
Proof.
  induction n as [a c d dt | a lh IHl rh IHr | a mt fg nc pn ps
                 | a mt nc lh IHl rh IHr]; simpl; intros H.
  - apply andb_prop in H as [H _]. apply negb_true_iff in H.
    rewrite H. reflexivity.
  - repeat (apply andb_prop in H as [H ?]). rewrite H. simpl.
    rewrite map_app, IHl, IHr by assumption. reflexivity.
  - apply andb_prop in H as [H _]. apply negb_true_iff in H.
    rewrite H. reflexivity.
  - repeat (apply andb_prop in H as [H ?]). rewrite H. simpl.
    rewrite map_app, IHl, IHr by assumption. reflexivity.
Qed.

(** A fresh [LabelSpace] finds none of its labels changed. *)
Lemma _check_if_label_changed_init (n : node) (l : label_type) :
  _check_if_label_changed (LabelSpace_init n) l = LabelSpace_init n.
Proof.
  unfold _check_if_label_changed.
  replace (existsb _ _) with false; [reflexivity |].
  symmetry. apply not_true_is_false. intros E.
  apply existsb_exists in E as ([i s] & Hin & Hne).
  simpl in Hin. unfold _get_sub_nodes_label in Hin.
  rewrite sub_nodes_loop_fold in Hin. simpl in Hin.
  apply in_map_iff in Hin as (j & Hj & _). inversion Hj; subst.
  simpl in Hne. now rewrite str_eqb_refl in Hne.
Qed.


(** *** LabelSpace: the suffix mapping *)

Lemma dict_get_set_same {V} (d : list (str * V)) k v :
  dict_get (dict_set d k v) k = Some v.
Proof.
  induction d as [| [k' v'] d IH]; simpl.
  - destruct (str_eq_dec k k); congruence.
  - destruct (str_eq_dec k k') as [-> | N]; simpl.
    + destruct (str_eq_dec k' k'); congruence.
    + destruct (str_eq_dec k k'); congruence.
Qed.

Lemma dict_get_set_other {V} (d : list (str * V)) k v k' :
  k' <> k -> dict_get (dict_set d k v) k' = dict_get d k'.
Proof.
  intros N. induction d as [| [k0 v0] d IH]; simpl.
  - destruct (str_eq_dec k' k); congruence.
  - destruct (str_eq_dec k k0) as [-> | N0]; simpl.
    + destruct (str_eq_dec k' k0); congruence.
    + destruct (str_eq_dec k' k0); congruence.
Qed.

Lemma dict_set_In {V} (d : list (str * V)) k v k' v' :
  In (k', v') (dict_set d k v) -> (k', v') = (k, v) \/ In (k', v') d.
Proof.
  induction d as [| [k0 v0] d IH]; simpl.
  - intros [E | []]. left. congruence.
  - destruct (str_eq_dec k k0) as [-> | N0]; simpl.
    + intros [E | H]; [left; congruence | right; right; assumption].
    + intros [E | H]; [right; left; assumption |].
      destruct (IH H); [left | right; right]; assumption.
Qed.

Lemma dict_set_key {V} (d : list (str * V)) k v :
  In k (map fst (dict_set d k v)).
Proof.
  induction d as [| [k0 v0] d IH]; simpl; [now left |].
  destruct (str_eq_dec k k0) as [-> | N0]; simpl; [now left | now right].
Qed.

Lemma dict_set_keys {V} (d : list (str * V)) k v k' :
  In k' (map fst d) -> In k' (map fst (dict_set d k v)).
Proof.
  induction d as [| [k0 v0] d IH]; simpl; [intros [] |].
  destruct (str_eq_dec k k0) as [-> | N0]; simpl; [tauto |].
  intros [E | H]; [now left | right; auto].
Qed.

Lemma add_new_In seen x y :
  In y (add_new seen x) <-> In y seen \/ y = x.
Proof.
  unfold add_new. destruct (str_mem x seen) eqn:E.
  - apply str_mem_In in E. split; [tauto |]. intros [H | ->]; assumption.
  - rewrite in_app_iff. simpl. intuition (subst; auto).
Qed.

Lemma fold_add_new_extends xs seen :
  exists t, fold_left add_new xs seen = seen ++ t.
Proof.
  revert seen. induction xs as [| x xs IH]; intros seen; simpl.
  - exists []. now rewrite app_nil_r.
  - destruct (IH (add_new seen x)) as [t Ht]. rewrite Ht.
    unfold add_new. destruct (str_mem x seen).
    + now exists t.
    + exists ([x] ++ t). now rewrite app_assoc.
Qed.

Lemma fold_add_new_In xs seen y :
  In y (fold_left add_new xs seen) -> In y seen \/ In y xs.
Proof.
  revert seen. induction xs as [| x xs IH]; intros seen; simpl; [tauto |].
  intros H. destruct (IH _ H) as [H1 | H1]; [| tauto].
  apply add_new_In in H1. destruct H1; [tauto | subst; tauto].
Qed.

Lemma same_label_ids_snoc (l : label_type) P a label :
  same_label_ids l (P ++ [a]) label
  = if str_eqb (attrs_label l a) label
    then add_new (same_label_ids l P label) (a_id a)
    else same_label_ids l P label.
Proof.
  unfold same_label_ids, distinct. rewrite filter_app, map_app, fold_left_app.
  simpl. destruct (str_eqb (attrs_label l a) label); reflexivity.
Qed.

Lemma same_label_ids_app (l : label_type) P Q label :
  exists t, same_label_ids l (P ++ Q) label = same_label_ids l P label ++ t.
Proof.
  unfold same_label_ids, distinct. rewrite filter_app, map_app, fold_left_app.
  apply fold_add_new_extends.
Qed.

Lemma same_label_ids_In (l : label_type) P label x :
  In x (same_label_ids l P label) ->
  exists b, In b P /\ attrs_label l b = label /\ a_id b = x.
Proof.
  unfold same_label_ids, distinct. intros H.
  apply fold_add_new_In in H as [[] | H].
  apply in_map_iff in H as (b & <- & Hb).
  apply filter_In in Hb as [Hb E]. apply str_eqb_eq in E. eauto.
Qed.

Lemma index_of_app_In x s t :
  In x s -> index_of x (s ++ t) = index_of x s.
Proof.
  induction s as [| y s IH]; simpl; [intros [] |].
  destruct (str_eq_dec x y); [reflexivity |].
  intros [E | H]; [congruence | now rewrite IH].
Qed.

Lemma index_of_app_new x s t :
  ~ In x s -> index_of x (s ++ x :: t) = List.length s.
Proof.
  induction s as [| y s IH]; simpl; intros N.
  - destruct (str_eq_dec x x); congruence.
  - destruct (str_eq_dec x y) as [-> | _]; [tauto |].
    rewrite IH; tauto.
Qed.

Lemma suffix_visit_visit (l : label_type) (i : node) st :
  suffix_visit l i st = visit l (node_attrs i) st.
Proof. reflexivity. Qed.

Lemma _get_suffix_mapping_fold (n : node) (l : label_type) :
  _get_suffix_mapping n l
  = snd (fold_left (fun s a => visit l a s)
           (map (@node_attrs _ _ _) (sub_nodes n)) ([], [])).
Proof.
  unfold _get_suffix_mapping. rewrite suffix_loop_fold. simpl.
  rewrite app_nil_r. f_equal.
  generalize (@nil (str * list str), @nil (str * str)).
  induction (sub_nodes n) as [| i s IH]; intros st; simpl; [reflexivity |].
  now rewrite IH.
Qed.


Lemma visited_nil (l : label_type) L : visited l L [] ([], []).
Proof. split; simpl; intros; tauto || reflexivity. Qed.

Lemma nonempty_add_new ids x : nonempty (add_new ids x) = Some (add_new ids x).
Proof.
  unfold add_new. destruct (str_mem x ids) eqn:E.
  - apply str_mem_In in E. destruct ids; [destruct E | reflexivity].
  - destruct ids; reflexivity.
Qed.

Lemma visited_step (l : label_type) P a Q st :
  visited l (P ++ a :: Q) P st ->
  visited l (P ++ a :: Q) (P ++ [a]) (visit l a st).
Proof.
  intros [Hs Hk Hv].
  assert (Hspace : forall label,
             nonempty (same_label_ids l (P ++ [a]) label)
             = if str_eqb (attrs_label l a) label
               then Some (add_new (same_label_ids l P label) (a_id a))
               else nonempty (same_label_ids l P label)).
  { intros label. rewrite same_label_ids_snoc.
    destruct (str_eqb (attrs_label l a) label); [| reflexivity].
    apply nonempty_add_new. }
  assert (Hrank : forall ids,
             same_label_ids l (P ++ [a]) (attrs_label l a) = ids ->
             In (a_id a) ids ->
             display l (P ++ a :: Q) a
             = attrs_label l a ++ suffix l (S (index_of (a_id a) ids))).
  { intros ids E Hin. unfold display, rank.
    replace (P ++ a :: Q) with ((P ++ [a]) ++ Q)
      by (rewrite <- app_assoc; reflexivity).
    destruct (same_label_ids_app l (P ++ [a]) Q (attrs_label l a))
      as [t Ht].
    rewrite Ht, E, index_of_app_In by assumption. reflexivity. }
  assert (Hold : forall k v,
             In (k, v) (snd st) ->
             exists b, In b (P ++ [a]) /\ k = Node_label_with_id l b /\
                       v = display l (P ++ a :: Q) b).
  { intros k v H. destruct (Hv k v H) as (b & Hb & E1 & E2).
    exists b. rewrite in_app_iff. auto. }
  unfold visit. rewrite Hs.
  destruct (same_label_ids l P (attrs_label l a)) as [| i0 ids0] eqn:Eids;
    simpl nonempty; cbv iota.
  - (* the label has not been seen *)
    split; simpl fst; simpl snd.
    + intros label. rewrite Hspace.
      destruct (str_eq_dec label (attrs_label l a)) as [-> | N].
      * rewrite dict_get_set_same, str_eqb_refl, Eids. reflexivity.
      * rewrite dict_get_set_other by assumption.
        destruct (str_eqb (attrs_label l a) label) eqn:E;
          [apply str_eqb_eq in E; congruence | apply Hs].
    + intros b Hb. apply in_app_iff in Hb as [Hb | [<- | []]].
      * apply dict_set_keys, Hk, Hb.
      * apply dict_set_key.
    + intros k v H. apply dict_set_In in H as [E | H]; [| now apply Hold].
      inversion E; subst. exists a. rewrite in_app_iff. simpl.
      split; [tauto |]. split; [reflexivity |].
      rewrite (Hrank [a_id a]).
      * simpl. destruct (str_eq_dec (a_id a) (a_id a)); [| congruence].
        simpl. now rewrite app_nil_r.
      * rewrite same_label_ids_snoc, str_eqb_refl, Eids. reflexivity.
      * now left.
  - (* the label has been seen, with the ids [i0 :: ids0] *)
    destruct (str_mem (a_id a) (i0 :: ids0)) eqn:Emem; simpl negb; cbv iota.
    + (* by this very node *)
      apply str_mem_In in Emem.
      split.
      * intros label. rewrite Hspace, Hs.
        destruct (str_eqb (attrs_label l a) label) eqn:E; [| reflexivity].
        apply str_eqb_eq in E. subst label. rewrite Eids.
        unfold add_new.
        replace (str_mem (a_id a) (i0 :: ids0)) with true
          by (symmetry; now apply str_mem_In).
        reflexivity.
      * intros b Hb. apply in_app_iff in Hb as [Hb | [<- | []]];
          [now apply Hk |].
        rewrite <- Eids in Emem.
        apply same_label_ids_In in Emem as (b & Hb & E1 & E2).
        replace (Node_label_with_id l a) with (Node_label_with_id l b)
          by (unfold Node_label_with_id; congruence).
        now apply Hk.
      * assumption.
    + (* by other nodes: one more id for the label *)
      assert (Hnot : ~ In (a_id a) (i0 :: ids0)).
      { intros H. apply str_mem_In in H. congruence. }
      assert (Enew : same_label_ids l (P ++ [a]) (attrs_label l a)
                     = (i0 :: ids0) ++ [a_id a]).
      { rewrite same_label_ids_snoc, str_eqb_refl, Eids. unfold add_new.
        now rewrite Emem. }
      split; simpl fst; simpl snd.
      * intros label. rewrite Hspace.
        destruct (str_eq_dec label (attrs_label l a)) as [-> | N].
        -- rewrite dict_get_set_same, str_eqb_refl, Eids. unfold add_new.
           now rewrite Emem.
        -- rewrite dict_get_set_other by assumption.
           destruct (str_eqb (attrs_label l a) label) eqn:E;
             [apply str_eqb_eq in E; congruence | apply Hs].
      * intros b Hb. apply in_app_iff in Hb as [Hb | [<- | []]].
        -- apply dict_set_keys, Hk, Hb.
        -- apply dict_set_key.
      * intros k v H. apply dict_set_In in H as [E | H]; [| now apply Hold].
        inversion E; subst. exists a. rewrite in_app_iff. simpl.
        split; [tauto |]. split; [reflexivity |].
        rewrite (Hrank _ Enew) by (apply in_app_iff; simpl; tauto).
        rewrite index_of_app_new by assumption.
        rewrite !length_app. simpl List.length. rewrite !Nat.add_1_r.
        unfold suffix. simpl Nat.eqb. destruct l; reflexivity.
Qed.

Lemma visited_fold (l : label_type) Q : forall P st,
  visited l (P ++ Q) P st ->
  visited l (P ++ Q) (P ++ Q) (fold_left (fun s a => visit l a s) Q st).
Proof.
  induction Q as [| a Q IH]; intros P st H; simpl.
  - now rewrite app_nil_r in *.
  - replace (P ++ a :: Q) with ((P ++ [a]) ++ Q)
      by (rewrite <- app_assoc; reflexivity).
    apply IH. rewrite <- app_assoc. simpl. now apply visited_step.
Qed.

(** The suffix mapping of a finished tree: every leaf has an entry under
    its label with id, and every entry maps such a key to the label the
    leaf is displayed with. *)
Lemma _get_suffix_mapping_finished (n : node) (l : label_type) :
  finished n = true ->
  (forall a, In a (leaves n) ->
             In (Node_label_with_id l a)
               (map fst (_get_suffix_mapping n l))) /\
  (forall k v, In (k, v) (_get_suffix_mapping n l) ->
               exists a, In a (leaves n) /\ k = Node_label_with_id l a /\
                         v = display l (leaves n) a).
Proof.
  intros F. rewrite _get_suffix_mapping_fold, (sub_nodes_finished n F).
  destruct (@visited_fold l (leaves n) [] _ (visited_nil l (leaves n)))
    as [_ Hk Hv].
  split; assumption.
Qed.


(** *** LabelSpace: textual replacement *)

Lemma prefixb_app (u s : str) : prefixb u (u ++ s) = true.
Proof.
  induction u as [| c u IH]; simpl; [reflexivity |].
  now rewrite Ascii.eqb_refl.
Qed.

Lemma prefixb_true (u s : str) :
  prefixb u s = true -> exists t, s = u ++ t.
Proof.
  revert s. induction u as [| c u IH]; intros s; simpl.
  - intros _. now exists s.
  - destruct s as [| d s]; [discriminate |].
    intros H. apply andb_prop in H as [E H]. apply Ascii.eqb_eq in E.
    destruct (IH _ H) as [t ->]. exists t. now subst.
Qed.

Lemma replace_from_skip (old new u s : str) :
  replace_from (List.length u) old new (u ++ s) = replace_from 0 old new s.
Proof. induction u as [| c u IH]; simpl; [destruct s |]; auto. Qed.

Lemma replace_from_match (old new s : str) :
  old <> [] ->
  replace_from 0 old new (old ++ s) = new ++ replace_from 0 old new s.
Proof.
  destruct old as [| c old]; [congruence |]. intros _.
  change ((c :: old) ++ s) with (c :: old ++ s).
  change (replace_from 0 (c :: old) new (c :: old ++ s))
    with (if prefixb (c :: old) (c :: old ++ s)
          then new ++ replace_from (List.length (c :: old) - 1) (c :: old)
                        new (old ++ s)
          else c :: replace_from 0 (c :: old) new (old ++ s)).
  replace (prefixb (c :: old) (c :: old ++ s)) with true
    by (symmetry; apply (prefixb_app (c :: old) s)).
  replace (List.length (c :: old) - 1) with (List.length old)
    by (simpl; lia).
  now rewrite replace_from_skip.
Qed.

(** A stretch of text in which no occurrence of [old] begins is copied. *)
Lemma replace_from_copy (old new p s : str) :
  (forall x z, p = x ++ z -> z <> [] -> prefixb old (z ++ s) = false) ->
  replace_from 0 old new (p ++ s) = p ++ replace_from 0 old new s.
Proof.
  induction p as [| c p IH]; intros H; [reflexivity |].
  change ((c :: p) ++ s) with (c :: p ++ s).
  change (replace_from 0 old new (c :: p ++ s))
    with (if prefixb old (c :: p ++ s)
          then new ++ replace_from (List.length old - 1) old new (p ++ s)
          else c :: replace_from 0 old new (p ++ s)).
  assert (H0 : prefixb old (c :: p ++ s) = false)
    by (apply (H [] (c :: p)); [reflexivity | discriminate]).
  rewrite H0, IH; [reflexivity |].
  intros x z -> Hz. apply (H (c :: x) z); [reflexivity | assumption].
Qed.

Lemma render_app leaf ts us :
  render leaf (ts ++ us) = render leaf ts ++ render leaf us.
Proof. unfold render. now rewrite map_app, concat_app. Qed.

Lemma render_ext leaf leaf' ts :
  (forall a, In (TLeaf a) ts -> leaf a = leaf' a) ->
  render leaf ts = render leaf' ts.
Proof.
  induction ts as [| t ts IH]; intros H; [reflexivity |].
  unfold render in *. simpl. rewrite IH by (intros; apply H; now right).
  destruct t; simpl; [reflexivity |]. rewrite H; [reflexivity | now left].
Qed.

Lemma aligned_tail k leaf t ts :
  k <> [] -> aligned k leaf (t :: ts) -> aligned k leaf ts.
Proof.
  intros Hk H x y E.
  destruct (H (piece leaf t ++ x) y) as (ts1 & a & ts2 & E1 & E2 & E3 & E4).
  { unfold render in *. simpl. rewrite E. now rewrite app_assoc. }
  destruct ts1 as [| t' ts1].
  - simpl in E1. inversion E1; subst. simpl in E3.
    unfold render in E3. simpl in E3.
    apply app_eq_nil in E3 as [E3 _]. congruence.
  - simpl in E1. inversion E1; subst.
    exists ts1, a, ts2. repeat split; try assumption.
    unfold render in E3. simpl in E3. now apply app_inv_head in E3.
Qed.

Lemma replace_render (k v : str) leaf ts :
  k <> [] -> aligned k leaf ts ->
  replace_from 0 k v (render leaf ts)
  = render (fun a => if str_eqb (leaf a) k then v else leaf a) ts.
Proof.
  intros Hk. induction ts as [| t ts IH]; intros Hal; [reflexivity |].
  specialize (IH (aligned_tail Hk Hal)).
  unfold render in *. simpl.
  destruct (str_eq_dec (piece leaf t) k) as [E | N].
  - (* the token reads [k] *)
    rewrite E, replace_from_match, IH by assumption. f_equal.
    destruct t as [s | a]; simpl in *.
    + (* a separator cannot be an occurrence *)
      destruct (Hal [] (List.concat (map (piece leaf) ts)))
        as (ts1 & a & ts2 & E1 & E2 & E3 & _).
      { unfold render. simpl. now rewrite E. }
      destruct ts1 as [| t' ts1]; [discriminate |].
      inversion E1; subst. unfold render in E3. simpl in E3.
      symmetry in E3. apply app_eq_nil in E3 as [E3 _]. congruence.
    + now rewrite E, str_eqb_refl.
  - (* the token does not read [k]: no occurrence begins inside it *)
    rewrite replace_from_copy, IH.
    + f_equal. destruct t as [s | a]; simpl in *; [reflexivity |].
      destruct (str_eqb (leaf a) k) eqn:E; [| reflexivity].
      apply str_eqb_eq in E. congruence.
    + intros x z Ep Hz.
      destruct (prefixb k (z ++ List.concat (map (piece leaf) ts))) eqn:Hp;
        [| reflexivity].
      apply prefixb_true in Hp as [y Hy].
      destruct (Hal x y) as (ts1 & a & ts2 & E1 & E2 & E3 & _).
      { unfold render. simpl. rewrite Ep, <- app_assoc, Hy. reflexivity. }
      destruct ts1 as [| t' ts1].
      * simpl in E1. injection E1 as Et _. rewrite Et in N. simpl in N.
        congruence.
      * simpl in E1. injection E1 as Et _. subst t'.
        unfold render in E3. simpl in E3. rewrite Ep in E3.
        apply (f_equal (@List.length ascii)) in E3.
        rewrite !length_app in E3.
        destruct z; [congruence | simpl in E3; lia].
Qed.


(** *** LabelSpace: where an id can occur in a rendered label *)

Lemma infixb_complete (u s : str) : infix u s -> infixb u s = true.
Proof.
  intros (x & y & ->). induction x as [| c x IH]; simpl.
  - pose proof (prefixb_app u y) as H.
    destruct (u ++ y); simpl; rewrite H; reflexivity.
  - rewrite IH. apply orb_true_r.
Qed.

Lemma hex_prefix (i y a b : str) (c : ascii) :
  forallb hexdigit i = true -> hexdigit c = false ->
  i ++ y = a ++ c :: b -> exists a', a = i ++ a'.
Proof.
  revert a. induction i as [| h i IH]; intros a Hi Hc E.
  - now exists a.
  - simpl in Hi. apply andb_prop in Hi as [Hh Hi].
    destruct a as [| h' a]; simpl in E; inversion E; subst.
    + congruence.
    + destruct (IH a Hi Hc H1) as [a' ->]. now exists a'.
Qed.

Lemma app_same_length (i j y r : str) :
  List.length i = List.length j -> i ++ y = j ++ r -> i = j /\ y = r.
Proof.
  revert j. induction i as [| h i IH]; intros [| h' j] L E;
    simpl in *; try discriminate; [tauto |].
  inversion E; subst. destruct (IH j) as [-> ->]; auto.
Qed.

Lemma hex_no_underscore (s x y : str) :
  forallb hexdigit s = true -> s <> x ++ "_"%char :: y.
Proof.
  intros H ->. rewrite forallb_app in H. apply andb_prop in H as [_ H].
  simpl in H. discriminate.
Qed.

Lemma is_uuid_hex (s : str) : is_uuid s = true -> forallb hexdigit s = true.
Proof. unfold is_uuid. intros H. now apply andb_prop in H. Qed.

Lemma is_uuid_length (s : str) : is_uuid s = true -> List.length s = 32.
Proof.
  unfold is_uuid. intros H. apply andb_prop in H as [H _].
  now apply Nat.eqb_eq.
Qed.

Lemma good_tail t ts : good (t :: ts) -> good ts.
Proof. destruct t; simpl; tauto. Qed.

Lemma good_after_leaf leaf a ts :
  good (TLeaf a :: ts) ->
  render leaf ts = [] \/
  exists c r, render leaf ts = c :: r /\ hexdigit c = false.
Proof.
  destruct ts as [| [s | b] ts]; simpl; [now left | | tauto].
  intros (_ & ((c & s' & -> & Hc) & _) & _). right.
  unfold render. simpl. eauto.
Qed.

Section Tag.

Variable l : label_type.
Variable i : str.
Variable leaf : attrs -> str.
Hypothesis i_uuid : is_uuid i = true.

(** An underscore followed by the id [i] occurs in the text only as the
    end of a leaf that is rendered with that id. *)
Lemma tag_aligned (ts : list token) :
  good ts -> (forall a, In (TLeaf a) ts -> leaf_ok l i leaf a) ->
  forall x y,
    render leaf ts = x ++ ("_"%char :: i) ++ y ->
    exists ts1 a ts2,
      ts = ts1 ++ TLeaf a :: ts2 /\ leaf a = Node_label_with_id l a /\
      a_id a = i /\ x = render leaf ts1 ++ attrs_label l a /\
      y = render leaf ts2.
Proof.
  pose proof (is_uuid_hex _ i_uuid) as Hhex.
  pose proof (is_uuid_length _ i_uuid) as Hlen.
  induction ts as [| t ts IH]; intros Hgood Hok x y E.
  - unfold render in E. simpl in E. destruct x; discriminate.
  - assert (IH' : forall z, render leaf ts = z ++ ("_"%char :: i) ++ y ->
              exists ts1 a ts2,
                t :: ts = ts1 ++ TLeaf a :: ts2 /\
                leaf a = Node_label_with_id l a /\ a_id a = i /\
                piece leaf t ++ z = render leaf ts1 ++ attrs_label l a /\
                y = render leaf ts2).
    { intros z Ez.
      destruct (IH (good_tail _ _ Hgood)
                  (fun a H => Hok a (or_intror H)) z y Ez)
        as (ts1 & a & ts2 & -> & E2 & E3 & -> & E5).
      exists (t :: ts1), a, ts2. repeat split; try assumption.
      unfold render. simpl. now rewrite app_assoc. }
    change (render leaf (t :: ts)) with (piece leaf t ++ render leaf ts) in E.
    apply app_eq_app in E as [z [[Ep Er] | [Ex Er]]].
    2:{ subst x. now apply IH'. }
    destruct z as [| u z].
    { rewrite app_nil_r in Ep. subst x. rewrite <- (app_nil_r (piece leaf t)).
      apply IH'. simpl in Er. now rewrite <- Er. }
    simpl in Er. inversion Er; subst u. clear Er. rename H1 into Er.
    destruct t as [s | a]; simpl in Ep.
    { (* a separator has no underscore *)
      destruct Hgood as [[_ Hs] _]. exfalso. apply Hs. rewrite Ep.
      apply in_or_app. right. now left. }
    destruct (Hok a (or_introl eq_refl)) as (Ua & Hlab & Hleaf).
    assert (Hin : forall z', z = i ++ z' -> infix ("_"%char :: i) (leaf a)).
    { intros z' ->. exists x, z'. now rewrite Ep. }
    assert (Hval : ~ infix ("_"%char :: i) (leaf a) -> False).
    { intros Hno. apply Hno.
      destruct (@good_after_leaf leaf a ts Hgood) as [R | (c & r & R & Hc)];
        rewrite R in Er.
      - apply (Hin y). now rewrite app_nil_r in Er.
      - destruct (hex_prefix _ _ _ _ _ Hhex Hc Er) as [z' ->].
        now apply (Hin z'). }
    destruct Hleaf as [Hkey | Hno]; [| destruct (Hval Hno)].
    rewrite Hkey in Ep. unfold Node_label_with_id in Ep. simpl in Ep.
    assert (Haligned : x = attrs_label l a -> z = a_id a ->
              exists ts1 a0 ts2,
                TLeaf a :: ts = ts1 ++ TLeaf a0 :: ts2 /\
                leaf a0 = Node_label_with_id l a0 /\ a_id a0 = i /\
                x = render leaf ts1 ++ attrs_label l a0 /\
                y = render leaf ts2).
    { intros -> ->.
      assert (Esame : i = a_id a /\ y = render leaf ts).
      { apply app_same_length; [| assumption].
        rewrite Hlen. symmetry. now apply is_uuid_length. }
      destruct Esame as [Ei Ey].
      exists [], a, ts. repeat split; try assumption; congruence. }
    apply app_eq_app in Ep as [w [[E1 E2] | [E1 E2]]].
    + (* the underscore lies in the raw label of the leaf *)
      destruct w as [| u w]; simpl in E2.
      * inversion E2. apply Haligned; [| congruence].
        rewrite E1. now rewrite app_nil_r.
      * inversion E2; subst u. exfalso. apply Hlab.
        assert (Hc : hexdigit "_"%char = false) by reflexivity.
        rewrite H1 in Er. rewrite <- app_assoc in Er. simpl in Er.
        destruct (hex_prefix _ _ _ _ _ Hhex Hc Er) as [w' ->].
        exists x, w'. rewrite E1. reflexivity.
    + (* the underscore lies in the id of the leaf *)
      destruct w as [| u w]; simpl in E2.
      * inversion E2. apply Haligned; [| congruence].
        rewrite E1. now rewrite app_nil_r.
      * inversion E2; subst u.
        exfalso. apply (hex_no_underscore w z (is_uuid_hex _ Ua)).
        assumption.
Qed.

End Tag.


(** *** LabelSpace: the layout of a label *)

Lemma render_paren leaf b ts :
  render leaf (paren b ts)
  = if b then py "(" ++ render leaf ts ++ py ")" else render leaf ts.
Proof.
  destruct b; simpl; [| reflexivity].
  unfold render. simpl. rewrite map_app, concat_app. reflexivity.
Qed.

Lemma render_op_tokens leaf l a (lh rh : node) tl tr :
  render leaf (op_tokens l a lh rh tl tr)
  = OperationNode_label_with_id l a lh rh (render leaf tl) (render leaf tr).
Proof.
  unfold op_tokens, OperationNode_label_with_id.
  rewrite render_app.
  change (render leaf (?t :: ?ts)) with (piece leaf t ++ render leaf ts).
  rewrite !render_paren. simpl piece.
  f_equal. simpl. f_equal. now rewrite <- app_assoc.
Qed.

Lemma label_with_tokens leaf (l : label_type) (n : node) :
  label_with l leaf n = render leaf (tokens l n).
Proof.
  induction n as [a c d dt | a lh IHl rh IHr | a mt fg nc pn ps
                 | a mt nc lh IHl rh IHr]; simpl;
    rewrite ?render_op_tokens, ?IHl, ?IHr; try reflexivity;
    unfold render; simpl; now rewrite app_nil_r.
Qed.

Lemma label_with_id_label_with (l : label_type) (n : node) :
  label_with_id l n = label_with l (Node_label_with_id l) n.
Proof.
  induction n as [a c d dt | a lh IHl rh IHr | a mt fg nc pn ps
                 | a mt nc lh IHl rh IHr]; simpl;
    rewrite ?IHl, ?IHr; reflexivity.
Qed.

Lemma tokens_leaves (l : label_type) (n : node) (a : attrs) :
  In (TLeaf a) (tokens l n) <-> In a (leaves n).
Proof.
  assert (P : forall b ts, In (TLeaf a) (paren b ts) <-> In (TLeaf a) ts).
  { intros [] ts; simpl; [| tauto]. rewrite in_app_iff. simpl.
    split; [intros [H | [H | [H | []]]]; congruence || assumption | tauto]. }
  assert (O : forall a' (lh rh : node),
             (In (TLeaf a) (tokens l lh) <-> In a (leaves lh)) ->
             (In (TLeaf a) (tokens l rh) <-> In a (leaves rh)) ->
             In (TLeaf a)
               (op_tokens l a' lh rh (tokens l lh) (tokens l rh))
             <-> In a (leaves lh ++ leaves rh)).
  { intros a' lh rh IHl IHr. unfold op_tokens.
    rewrite !in_app_iff. simpl. rewrite !P, IHl, IHr.
    split; [intros [H | [H | H]] | ]; try tauto. discriminate. }
  induction n as [a' c d dt | a' lh IHl rh IHr | a' mt fg nc pn ps
                 | a' mt nc lh IHl rh IHr]; simpl.
  - split; intros [H | []]; left; congruence.
  - now apply O.
  - split; intros [H | []]; left; congruence.
  - now apply O.
Qed.

Lemma good_app ts s us :
  good ts -> good (TSep s :: us) -> good (ts ++ TSep s :: us).
Proof.
  intros Hts Hus. induction ts as [| t ts IH]; [assumption |].
  destruct t as [s' | a]; simpl in *.
  - split; [tauto | apply IH; tauto].
  - split; [| apply IH; tauto].
    destruct ts as [| [s'' | b] ts]; simpl; tauto.
Qed.

Lemma sep_ok_paren_open : sep_ok (py "(").
Proof.
  split; [exists "("%char, []; split; reflexivity |].
  simpl. intros [H | []]. discriminate.
Qed.

Lemma sep_ok_paren_close : sep_ok (py ")").
Proof.
  split; [exists ")"%char, []; split; reflexivity |].
  simpl. intros [H | []]. discriminate.
Qed.

Lemma sep_ok_operator (op : str) :
  str_mem op [py "+"; py "\times"; py "*"] = true ->
  sep_ok (py " " ++ op ++ py " ").
Proof.
  intros H. apply str_mem_In in H.
  split; [exists " "%char, (op ++ py " "); split; reflexivity |].
  destruct H as [<- | [<- | [<- | []]]]; simpl;
    intuition discriminate.
Qed.

Lemma good_paren b ts : good ts -> good (paren b ts).
Proof.
  intros H. destruct b; simpl; [| assumption].
  split; [apply sep_ok_paren_open |].
  apply good_app; [assumption |]. simpl. split; [| exact I].
  apply sep_ok_paren_close.
Qed.

Lemma good_tokens (l : label_type) (n : node) :
  finished n = true -> good (tokens l n).
Proof.
  assert (Hop : forall a : attrs,
             str_mem (a_name a) [py "+"; py "*"] = true ->
             str_mem (a_fmt a) [py "+"; py "\times"; py "*"] = true ->
             sep_ok (py " " ++ attrs_label l a ++ py " ")).
  { intros a Hn Hf. apply sep_ok_operator. destruct l; [| exact Hf].
    unfold attrs_label. apply str_mem_In. apply str_mem_In in Hn.
    destruct Hn as [<- | [<- | []]]; simpl; tauto. }
  induction n as [a c d dt | a lh IHl rh IHr | a mt fg nc pn ps
                 | a mt nc lh IHl rh IHr]; simpl; intros F; try tauto;
    repeat (apply andb_prop in F as [F ?]);
    unfold op_tokens; apply good_app;
    try (apply good_paren; auto);
    (split; [apply Hop; assumption | apply good_paren; auto]).
Qed.

Lemma finished_leaves_uuid (n : node) (a : attrs) :
  finished n = true -> In a (leaves n) -> is_uuid (a_id a) = true.
Proof.
  induction n as [a' c d dt | a' lh IHl rh IHr | a' mt fg nc pn ps
                 | a' mt nc lh IHl rh IHr]; simpl; intros F H;
    repeat (apply andb_prop in F as [F ?]);
    try (destruct H as [<- | []]; assumption);
    apply in_app_iff in H as [H | H]; auto.
Qed.


(** *** LabelSpace: rendering a finished tree *)

Lemma app_same_length_tail (x y u w : str) :
  List.length u = List.length w -> x ++ u = y ++ w -> x = y /\ u = w.
Proof.
  intros L E. apply (f_equal (@rev ascii)) in E. rewrite !rev_app_distr in E.
  apply app_same_length in E as [E1 E2]; [| now rewrite !length_rev].
  split; apply rev_inj; assumption.
Qed.

(** The label with id determines the raw label and the id. *)
Lemma Node_label_with_id_inj (l : label_type) (a b : attrs) :
  is_uuid (a_id a) = true -> is_uuid (a_id b) = true ->
  Node_label_with_id l a = Node_label_with_id l b ->
  attrs_label l a = attrs_label l b /\ a_id a = a_id b.
Proof.
  intros Ua Ub E. unfold Node_label_with_id in E.
  apply app_same_length_tail in E as [E1 E2].
  - split; [assumption |]. simpl in E2. congruence.
  - simpl. now rewrite (is_uuid_length _ Ua), (is_uuid_length _ Ub).
Qed.

Lemma display_ext (l : label_type) L (a b : attrs) :
  attrs_label l a = attrs_label l b -> a_id a = a_id b ->
  display l L a = display l L b.
Proof. intros E1 E2. unfold display, rank. now rewrite E1, E2. Qed.

Lemma str_replace_nonempty (old new s : str) :
  old <> [] -> str_replace old new s = replace_from 0 old new s.
Proof. destruct old; [congruence | reflexivity]. Qed.

Section Rendering.

Variable l : label_type.
Variable n : node.
Hypothesis n_finished : finished n = true.
Hypothesis n_ids : ids_identify l (leaves n) = true.
Hypothesis n_hygienic : hygienic l (leaves n) = true.

Let L := leaves n.

Lemma ids_same_label (a b : attrs) :
  In a L -> In b L -> a_id a = a_id b -> attrs_label l a = attrs_label l b.
Proof.
  intros Ha Hb E. unfold ids_identify in n_ids.
  rewrite forallb_forall in n_ids. specialize (n_ids a Ha).
  rewrite forallb_forall in n_ids. specialize (n_ids b Hb).
  apply orb_prop in n_ids as [H | H].
  - apply negb_true_iff, str_eqb_neq in H. congruence.
  - now apply str_eqb_eq.
Qed.

Lemma no_id_in_label (i a : attrs) :
  In i L -> In a L ->
  ~ infix ("_"%char :: a_id i) (attrs_label l a) /\
  ~ infix ("_"%char :: a_id i) (display l L a).
Proof.
  intros Hi Ha. unfold hygienic in n_hygienic.
  rewrite forallb_forall in n_hygienic. specialize (n_hygienic i Hi).
  rewrite forallb_forall in n_hygienic. specialize (n_hygienic a Ha).
  apply andb_prop in n_hygienic as [H1 H2].
  apply negb_true_iff in H1, H2.
  change (py "_" ++ a_id i) with ("_"%char :: a_id i) in H1, H2.
  split; intros H; apply infixb_complete in H; unfold L in *; congruence.
Qed.

(** Replacing the label with id of one leaf by its displayed label
    rewrites that leaf wherever it stands, and nothing else. *)
Lemma replace_stage (K : list str) (a0 : attrs) :
  In a0 L ->
  str_replace (Node_label_with_id l a0) (display l L a0)
    (render (stage l L K) (tokens l n))
  = render (stage l L (Node_label_with_id l a0 :: K)) (tokens l n).
Proof.
  intros H0.
  assert (Hk : Node_label_with_id l a0 <> []).
  { unfold Node_label_with_id. destruct (attrs_label l a0); discriminate. }
  pose proof (finished_leaves_uuid n a0 n_finished H0) as U0.
  rewrite str_replace_nonempty by assumption.
  rewrite replace_render; [| assumption |].
  - apply render_ext. intros a Ha. apply tokens_leaves in Ha.
    pose proof (finished_leaves_uuid n a n_finished Ha) as Ua.
    unfold stage. simpl str_mem.
    destruct (str_mem (Node_label_with_id l a) K) eqn:EK.
    + rewrite orb_true_r.
      destruct (str_eqb (display l L a) (Node_label_with_id l a0)) eqn:E;
        [| reflexivity].
      apply str_eqb_eq in E. exfalso.
      apply (proj2 (no_id_in_label a0 a H0 Ha)).
      exists (attrs_label l a0), []. rewrite E. unfold Node_label_with_id.
      simpl. now rewrite app_nil_r.
    + rewrite orb_false_r.
      destruct (str_eqb (Node_label_with_id l a) (Node_label_with_id l a0))
        eqn:E; [| reflexivity].
      apply str_eqb_eq in E.
      apply Node_label_with_id_inj in E as [E1 E2]; try assumption.
      symmetry. now apply display_ext.
  - (* every occurrence of the key is that leaf *)
    intros x y E.
    destruct (@tag_aligned l (a_id a0) (stage l L K) U0 (tokens l n)
                (good_tokens l n n_finished)) with
      (x := x ++ attrs_label l a0) (y := y)
      as (ts1 & a & ts2 & E1 & E2 & E3 & E4 & E5).
    + intros a Ha. apply tokens_leaves in Ha.
      split; [apply (finished_leaves_uuid n a n_finished Ha) |].
      split; [apply (no_id_in_label a0 a H0 Ha) |].
      unfold stage. destruct (str_mem (Node_label_with_id l a) K);
        [right; apply (no_id_in_label a0 a H0 Ha) | now left].
    + rewrite E. unfold Node_label_with_id. simpl.
      now rewrite <- !app_assoc.
    + assert (Ha : In a L).
      { apply (tokens_leaves l). rewrite E1. apply in_or_app. right.
        now left. }
      pose proof (ids_same_label a a0 Ha H0 E3) as Elab.
      rewrite Elab in E4. apply app_inv_tail in E4.
      exists ts1, a, ts2. repeat split; try assumption.
      rewrite E2. unfold Node_label_with_id. now rewrite Elab, E3.
Qed.

Lemma replace_all (M : list (str * str)) : forall K,
  (forall k v, In (k, v) M ->
               exists a, In a L /\ k = Node_label_with_id l a /\
                         v = display l L a) ->
  fold_left (fun label kv => str_replace (fst kv) (snd kv) label) M
    (render (stage l L K) (tokens l n))
  = render (stage l L (rev (map fst M) ++ K)) (tokens l n).
Proof.
  induction M as [| [k v] M IH]; intros K H; [reflexivity |].
  destruct (H k v (or_introl eq_refl)) as (a0 & H0 & -> & ->).
  simpl fold_left. rewrite replace_stage by assumption.
  rewrite IH by (intros; apply H; now right).
  simpl. now rewrite <- app_assoc.
Qed.

(** The rendered label of a finished tree whose labels embed no id. *)
Lemma _label_finished :
  _label (LabelSpace_init n) l = label_with l (display l L) n.
Proof.
  unfold _label. rewrite _check_if_label_changed_init. simpl.
  destruct (_get_suffix_mapping_finished n l n_finished) as [Hkeys Hvals].
  rewrite label_with_id_label_with, !label_with_tokens.
  rewrite (render_ext (Node_label_with_id l) (stage l L []))
    by reflexivity.
  rewrite replace_all by assumption.
  apply render_ext. intros a Ha. apply tokens_leaves in Ha.
  unfold stage.
  replace (str_mem (Node_label_with_id l a)
             (rev (map fst (_get_suffix_mapping n l)) ++ []))
    with true; [reflexivity |].
  symmetry. apply str_mem_In. rewrite app_nil_r. apply in_rev.
  rewrite rev_involutive. now apply Hkeys.
Qed.

End Rendering.


(** *** LabelSpace: shared leaves *)

Lemma dict_set_keys_inv {V} (d : list (str * V)) k v k' :
  In k' (map fst (dict_set d k v)) -> k' = k \/ In k' (map fst d).
Proof.
  induction d as [| [k0 v0] d IH]; simpl.
  - intros [E | []]. now left.
  - destruct (str_eq_dec k k0) as [-> | N0]; simpl; [tauto |].
    intros [E | H]; [tauto |]. destruct (IH H); tauto.
Qed.

Lemma dict_set_NoDup {V} (d : list (str * V)) k v :
  NoDup (map fst d) -> NoDup (map fst (dict_set d k v)).
Proof.
  induction d as [| [k0 v0] d IH]; simpl; intros H.
  - constructor; [intros [] | constructor].
  - destruct (str_eq_dec k k0) as [-> | N0]; simpl; [assumption |].
    inversion H; subst. constructor; [| now apply IH].
    intros Hin. apply dict_set_keys_inv in Hin as [E | Hin]; congruence.
Qed.

Lemma visit_NoDup (l : label_type) a st :
  NoDup (map fst (snd st)) -> NoDup (map fst (snd (visit l a st))).
Proof.
  intros H. unfold visit.
  destruct (dict_get (fst st) (attrs_label l a)) as [ids |]; simpl.
  - destruct (str_mem (a_id a) ids); simpl; [assumption |].
    now apply dict_set_NoDup.
  - now apply dict_set_NoDup.
Qed.

Lemma fold_visit_NoDup (l : label_type) Q : forall st,
  NoDup (map fst (snd st)) ->
  NoDup (map fst (snd (fold_left (fun s a => visit l a s) Q st))).
Proof.
  induction Q as [| a Q IH]; intros st H; simpl; [assumption |].
  apply IH. now apply visit_NoDup.
Qed.

Lemma dict_get_In {V} (d : list (str * V)) k v :
  NoDup (map fst d) -> In (k, v) d -> dict_get d k = Some v.
Proof.
  induction d as [| [k0 v0] d IH]; simpl; intros N H; [destruct H |].
  inversion N; subst.
  destruct H as [E | H].
  - inversion E; subst. destruct (str_eq_dec k k); congruence.
  - destruct (str_eq_dec k k0) as [-> | _]; [| now apply IH].
    exfalso. apply H2. apply in_map_iff. now exists (k0, v).
Qed.

Lemma add_new_seen seen x : In x seen -> add_new seen x = seen.
Proof.
  intros H. unfold add_new.
  replace (str_mem x seen) with true; [reflexivity |].
  symmetry. now apply str_mem_In.
Qed.

Lemma fold_add_new_keeps xs : forall seen x,
  In x seen -> In x (fold_left add_new xs seen).
Proof.
  induction xs as [| y xs IH]; intros seen x H; simpl; [assumption |].
  apply IH. apply add_new_In. now left.
Qed.

Lemma distinct_In xs x : In x xs -> In x (distinct xs).
Proof.
  unfold distinct. generalize (@nil str).
  induction xs as [| y xs IH]; intros seen; simpl; [intros [] |].
  intros [-> | H]; [| now apply IH].
  apply fold_add_new_keeps. apply add_new_In. now right.
Qed.

(** A further occurrence of a leaf that has occurred changes the rank of
    no leaf. *)
Lemma same_label_ids_repeat (l : label_type) P a Q label :
  In a P ->
  same_label_ids l (P ++ a :: Q) label = same_label_ids l (P ++ Q) label.
Proof.
  intros H. unfold same_label_ids, distinct.
  rewrite !filter_app, !map_app, !fold_left_app. simpl.
  destruct (str_eqb (attrs_label l a) label) eqn:E; [| reflexivity].
  simpl. f_equal. apply add_new_seen.
  apply (distinct_In (map a_id (filter _ P))).
  apply in_map. apply filter_In. now split.
Qed.

Lemma display_repeat (l : label_type) P a Q b :
  In a P -> display l (P ++ a :: Q) b = display l (P ++ Q) b.
Proof.
  intros H. unfold display, rank. now rewrite same_label_ids_repeat.
Qed.


(** *** LabelSpace: two leaves *)

Lemma infixb_no_underscore (u s : str) :
  ~ In "_"%char s -> infixb ("_"%char :: u) s = false.
Proof.
  induction s as [| c s IH]; intros H; [reflexivity |].
  change (infixb ("_"%char :: u) (c :: s))
    with ((Ascii.eqb "_" c && prefixb u s) || infixb ("_"%char :: u) s).
  rewrite IH by (intros X; apply H; now right).
  destruct (Ascii.eqb "_" c) eqn:E; [| reflexivity].
  apply Ascii.eqb_eq in E. exfalso. apply H. now left.
Qed.

Lemma display_first (l : label_type) (a : attrs) Q :
  display l (a :: Q) a = attrs_label l a.
Proof.
  unfold display, rank.
  destruct (same_label_ids_app l [a] Q (attrs_label l a)) as [t Ht].
  simpl app in Ht. rewrite Ht.
  rewrite (same_label_ids_snoc l [] a), str_eqb_refl. simpl.
  destruct (str_eq_dec (a_id a) (a_id a)); [| congruence].
  apply app_nil_r.
Qed.

Lemma display_second_same (l : label_type) (a b : attrs) :
  attrs_label l a = attrs_label l b -> a_id a <> a_id b ->
  display l [a; b] b = attrs_label l b ++ suffix l 2.
Proof.
  intros E N. unfold display, rank, same_label_ids, distinct. simpl.
  rewrite E, str_eqb_refl. simpl. unfold add_new at 2. simpl.
  unfold add_new. simpl.
  replace (str_eqb (a_id b) (a_id a)) with false
    by (symmetry; apply str_eqb_neq; congruence).
  simpl. destruct (str_eq_dec (a_id b) (a_id a)); [congruence |].
  destruct (str_eq_dec (a_id b) (a_id b)); [reflexivity | congruence].
Qed.

Lemma display_second_other (l : label_type) (a b : attrs) :
  attrs_label l a <> attrs_label l b ->
  display l [a; b] b = attrs_label l b.
Proof.
  intros N. unfold display, rank, same_label_ids, distinct. simpl.
  replace (str_eqb (attrs_label l a) (attrs_label l b)) with false
    by (symmetry; now apply str_eqb_neq).
  rewrite str_eqb_refl. simpl. unfold add_new. simpl.
  destruct (str_eq_dec (a_id b) (a_id b)); [| congruence].
  apply app_nil_r.
Qed.

(** [PowerLaw() + PowerLaw()] *)
Lemma PowerLaw_plus_PowerLaw fa fb ia ib io ga gb na nb pa pb qa qb mt nc :
  is_uuid ia = true -> is_uuid ib = true -> ia <> ib ->
  LabelSpace_name
    (LabelSpace_init
       (ModelOperationNode (mk_attrs (py "+") (py "+") true io) mt nc
          (ModelNode (mk_attrs (py "PowerLaw") fa false ia) add ga na pa qa
             : node)
          (ModelNode (mk_attrs (py "PowerLaw") fb false ib) add gb nb pb
             qb)))
  = py "PowerLaw + PowerLaw2".
Proof.
  intros Ua Ub N. unfold LabelSpace_name.
  set (a := mk_attrs (py "PowerLaw") fa false ia).
  set (b := mk_attrs (py "PowerLaw") fb false ib).
  assert (Da : display name [a; b] a = py "PowerLaw")
    by apply display_first.
  assert (Db : display name [a; b] b = py "PowerLaw2")
    by (rewrite display_second_same; [reflexivity | reflexivity | exact N]).
  rewrite _label_finished.
  - simpl leaves. simpl label_with. fold a b. rewrite Da, Db. reflexivity.
  - simpl. rewrite Ua, Ub. reflexivity.
  - change (leaves _) with [a; b]. unfold ids_identify.
    apply forallb_forall. intros x Hx. apply forallb_forall. intros y Hy.
    destruct Hx as [<- | [<- | []]]; destruct Hy as [<- | [<- | []]];
      apply orb_true_iff; right; apply str_eqb_eq; reflexivity.
  - change (leaves _) with [a; b]. unfold hygienic.
    apply forallb_forall. intros i _. apply forallb_forall. intros x Hx.
    change (py "_" ++ a_id i) with ("_"%char :: a_id i).
    destruct Hx as [<- | [<- | []]]; rewrite ?Da, ?Db;
      rewrite !infixb_no_underscore; try reflexivity;
      simpl; intuition discriminate.
Qed.

(** [PhAbs() * PowerLaw()] *)
Lemma PhAbs_times_PowerLaw fa fb ia ib io ga gb na nb pa pb qa qb mt nc :
  is_uuid ia = true -> is_uuid ib = true -> ia <> ib ->
  LabelSpace_name
    (LabelSpace_init
       (ModelOperationNode (mk_attrs (py "*") (py "\times") true io) mt nc
          (ModelNode (mk_attrs (py "PhAbs") fa false ia) mul ga na pa qa
             : node)
          (ModelNode (mk_attrs (py "PowerLaw") fb false ib) add gb nb pb
             qb)))
  = py "PhAbs * PowerLaw".
Proof.
  intros Ua Ub N. unfold LabelSpace_name.
  set (a := mk_attrs (py "PhAbs") fa false ia).
  set (b := mk_attrs (py "PowerLaw") fb false ib).
  assert (Da : display name [a; b] a = py "PhAbs")
    by apply display_first.
  assert (Db : display name [a; b] b = py "PowerLaw")
    by (rewrite display_second_other; [reflexivity | discriminate]).
  rewrite _label_finished.
  - simpl leaves. simpl label_with. fold a b. rewrite Da, Db. reflexivity.
  - simpl. rewrite Ua, Ub. reflexivity.
  - change (leaves _) with [a; b]. unfold ids_identify.
    apply forallb_forall. intros x Hx. apply forallb_forall. intros y Hy.
    destruct Hx as [<- | [<- | []]]; destruct Hy as [<- | [<- | []]];
      try (apply orb_true_iff; right; apply str_eqb_eq; reflexivity);
      apply orb_true_iff; left; apply negb_true_iff, str_eqb_neq;
      simpl; congruence.
  - change (leaves _) with [a; b]. unfold hygienic.
    apply forallb_forall. intros i _. apply forallb_forall. intros x Hx.
    change (py "_" ++ a_id i) with ("_"%char :: a_id i).
    destruct Hx as [<- | [<- | []]]; rewrite ?Da, ?Db;
      rewrite !infixb_no_underscore; try reflexivity;
      simpl; intuition discriminate.
Qed.

(** C9 (amended): on a finished tree in which ids stand for leaves and no
    raw or displayed label contains an underscore followed by the id of a
    leaf, [LabelSpace.name] and [LabelSpace.fmt] are the label of the tree
    with every leaf displayed by its raw label, followed, for the [n]-th
    distinct leaf with that raw label ([n >= 2]) in traversal order, by
    [n] (names) or [_n] (formulas); the first leaf with a raw label keeps
    it. Whatever distinct ids the leaves carry, [PowerLaw() + PowerLaw()]
    is named [PowerLaw + PowerLaw2] and [PhAbs() * PowerLaw()] is named
    [PhAbs * PowerLaw]. *)
Theorem LabelSpace_displays_leaves :
  forall (n : node),
    finished n = true ->
    (ids_identify name (leaves n) = true ->
     hygienic name (leaves n) = true ->
     LabelSpace_name (LabelSpace_init n)
     = label_with name (display name (leaves n)) n) /\
    (ids_identify fmt (leaves n) = true ->
     hygienic fmt (leaves n) = true ->
     LabelSpace_fmt (LabelSpace_init n)
     = label_with fmt (display fmt (leaves n)) n) /\
    (forall l a,
        display l (leaves n) a
        = attrs_label l a
          ++ (if Nat.eqb (rank l (leaves n) a) 1 then []
              else match l with
                   | name => str_of_nat (rank l (leaves n) a)
                   | fmt => py "_" ++ str_of_nat (rank l (leaves n) a)
                   end)) /\
    (forall l P a Q,
        leaves n = P ++ a :: Q ->
        (forall b, In b P -> attrs_label l b <> attrs_label l a) ->
        display l (leaves n) a = attrs_label l a) /\
    (forall fa fb ia ib io ga gb na nb pa pb qa qb mt nc,
        is_uuid ia = true -> is_uuid ib = true -> ia <> ib ->
        LabelSpace_name
          (LabelSpace_init
             (ModelOperationNode (mk_attrs (py "+") (py "+") true io) mt nc
                (ModelNode (mk_attrs (py "PowerLaw") fa false ia) add ga na
                   pa qa : node)
                (ModelNode (mk_attrs (py "PowerLaw") fb false ib) add gb nb
                   pb qb)))
        = py "PowerLaw + PowerLaw2") /\
    (forall fa fb ia ib io ga gb na nb pa pb qa qb mt nc,
        is_uuid ia = true -> is_uuid ib = true -> ia <> ib ->
        LabelSpace_name
          (LabelSpace_init
             (ModelOperationNode (mk_attrs (py "*") (py "\times") true io)
                mt nc
                (ModelNode (mk_attrs (py "PhAbs") fa false ia) mul ga na
                   pa qa : node)
                (ModelNode (mk_attrs (py "PowerLaw") fb false ib) add gb nb
                   pb qb)))
        = py "PhAbs * PowerLaw").
Proof.
  intros n F.
  split; [intros Hi Hh; now apply _label_finished |].
  split; [intros Hi Hh; now apply _label_finished |].
  split; [reflexivity |].
  split; [| split; intros; [now apply PowerLaw_plus_PowerLaw
                           | now apply PhAbs_times_PowerLaw]].
  - intros l P a Q E Hfirst. unfold display, rank.
    replace (same_label_ids l (leaves n) (attrs_label l a))
      with (a_id a :: tl (same_label_ids l (leaves n) (attrs_label l a))).
    + simpl. destruct (str_eq_dec (a_id a) (a_id a)); [| congruence].
      simpl. apply app_nil_r.
    + rewrite E. replace (P ++ a :: Q) with ((P ++ [a]) ++ Q)
        by (rewrite <- app_assoc; reflexivity).
      destruct (same_label_ids_app l (P ++ [a]) Q (attrs_label l a))
        as [t ->].
      rewrite same_label_ids_snoc, str_eqb_refl.
      replace (same_label_ids l P (attrs_label l a)) with (@nil str);
        [reflexivity |].
      destruct (same_label_ids l P (attrs_label l a)) as [| x xs] eqn:Ex;
        [reflexivity |].
      destruct (@same_label_ids_In l P (attrs_label l a) x)
        as (b & Hb & Elab & _); [rewrite Ex; now left |].
      destruct (Hfirst b Hb Elab).
Qed.

(** C10 (amended): in the suffix mapping of a finished tree every leaf has
    exactly one entry, under its label with id, whatever the number of
    its occurrences; the entry is the label the leaf is displayed with,
    numbered among the distinct ids with its raw label, and a further
    occurrence of a leaf changes the displayed label of no leaf. When
    moreover ids stand for leaves and no raw or displayed label contains
    an underscore followed by the id of a leaf, every occurrence of the
    leaf is rendered with that one label. *)
Theorem shared_leaf_counted_once :
  forall (n : node) (l : label_type),
    finished n = true ->
    NoDup (map fst (_get_suffix_mapping n l)) /\
    (forall a, In a (leaves n) ->
               dict_get (_get_suffix_mapping n l) (Node_label_with_id l a)
               = Some (display l (leaves n) a)) /\
    (forall P a Q b,
        leaves n = P ++ a :: Q -> In a P ->
        display l (leaves n) b = display l (P ++ Q) b) /\
    (ids_identify l (leaves n) = true ->
     hygienic l (leaves n) = true ->
     _label (LabelSpace_init n) l
     = label_with l (display l (leaves n)) n).
Proof.
  intros n l F.
  assert (N : NoDup (map fst (_get_suffix_mapping n l))).
  { rewrite _get_suffix_mapping_fold. apply fold_visit_NoDup. constructor. }
  destruct (_get_suffix_mapping_finished n l F) as [Hkeys Hvals].
  split; [assumption |]. split; [| split].
  - intros a Ha. specialize (Hkeys a Ha).
    apply in_map_iff in Hkeys as ([k v] & Ek & Hin). simpl in Ek. subst k.
    rewrite (dict_get_In _ _ _ N Hin). f_equal.
    destruct (Hvals _ _ Hin) as (b & Hb & Ekey & ->).
    apply Node_label_with_id_inj in Ekey as [E1 E2];
      try (eapply finished_leaves_uuid; eassumption).
    symmetry. now apply display_ext.
  - intros P a Q b E Hin. rewrite E. now apply display_repeat.
  - intros Hi Hh. now apply _label_finished.
Qed.


(** *** What the constructors accept *)

Lemma ntype_eqb_eq (a b : ntype) : ntype_eqb a b = true <-> a = b.
Proof. destruct a, b; simpl; split; congruence. Qed.

Lemma mtype_eqb_eq (a b : mtype) : mtype_eqb a b = true <-> a = b.
Proof. destruct a, b; simpl; split; congruence. Qed.

Lemma _check_type_err (lh rh : node) op :
  str_mem op [py "+"; py "*"] = false \/ type lh <> type rh ->
  _check_type lh rh op = Err TypeError.
Proof.
  unfold _check_type. intros [H | H].
  - now rewrite H.
  - destruct (str_mem op _); [| reflexivity]. simpl.
    destruct (ntype_eqb (type lh) (type rh)) eqn:E; [| reflexivity].
    apply ntype_eqb_eq in E. contradiction.
Qed.

(** X1: an operation node is built from two nodes of the same type, both
    parameters or both models, and one of the operators [+] and [*]. With
    another operator, or a parameter and a model, both
    [ParameterOperationNode] and [ModelOperationNode] raise [TypeError]
    before anything is drawn; otherwise (the registry being empty)
    [ParameterOperationNode] succeeds, also on two model nodes. *)
Theorem operation_needs_operator_and_equal_types :
  forall (lh rh : node) (op : str) (w : world),
    (str_mem op [py "+"; py "*"] = false \/ type lh <> type rh ->
     ParameterOperationNode_init lh rh op w = (Err TypeError, w) /\
     ModelOperationNode_init lh rh op w = (Err TypeError, w)) /\
    (str_mem op [py "+"; py "*"] = true -> type lh = type rh ->
     _UUID w = [] ->
     ParameterOperationNode_init lh rh op w
     = (Ok (ParameterOperationNode
              (mk_attrs op (if str_eqb op (py "*") then py "\times" else op)
                 true (uuid4_hex w (drawn w))) lh rh),
        after_draw w)).
Proof.
  intros lh rh op w. split.
  - intros H. apply _check_type_err in H.
    unfold ParameterOperationNode_init, ModelOperationNode_init,
      OperationNode_init, bind, lift. rewrite H. split; reflexivity.
  - intros Hop Hty Hreg. unfold ParameterOperationNode_init, bind.
    rewrite OperationNode_init_fresh by assumption. reflexivity.
Qed.

(** The operands, kinds and flags behind a successful
    [ModelOperationNode.__init__]. *)
Lemma ModelOperationNode_init_inv (lh rh n : node) op (w w' : world) :
  ModelOperationNode_init lh rh op w = (Ok n, w') ->
  exists a k1 n1 k2 n2,
    attrs_mtype lh = Ok k1 /\ attrs_is_ncon lh = Ok n1 /\
    attrs_mtype rh = Ok k2 /\ attrs_is_ncon rh = Ok n2 /\
    a_name a = op /\ a_is_operation a = true /\
    n = ModelOperationNode a
          (if mtype_eqb k1 add || mtype_eqb k2 add then add
           else if mtype_eqb k1 con || mtype_eqb k2 con then con else mul)
          (negb (mtype_eqb k1 add || mtype_eqb k2 add)
           && (mtype_eqb k1 con || mtype_eqb k2 con) && (n1 || n2))
          lh rh /\
    (if str_eqb op (py "+") then k1 = add /\ k2 = add
     else (mtype_eqb k1 add && (mtype_eqb k2 add || mtype_eqb k2 con))
          || (n1 && n2) = false).
Proof.
  intros H.
  destruct (attrs_mtype lh) as [k1 |] eqn:K1.
  2:{ revert H. unfold ModelOperationNode_init, bind, lift.
      destruct (_check_type lh rh op); [rewrite K1 |]; discriminate. }
  destruct (attrs_mtype rh) as [k2 |] eqn:K2.
  2:{ revert H. unfold ModelOperationNode_init, bind, lift.
      destruct (_check_type lh rh op); [rewrite K1, K2 |]; discriminate. }
  destruct (attrs_mtype_is_ncon _ K1) as [n1 N1].
  destruct (attrs_mtype_is_ncon _ K2) as [n2 N2].
  revert H. unfold ModelOperationNode_init, bind, lift.
  destruct (_check_type lh rh op); [| discriminate].
  rewrite K1, K2.
  destruct (str_eqb op (py "+")) eqn:Eop;
    destruct k1, k2; simpl; rewrite ?N1, ?N2; simpl;
    destruct n1, n2; simpl; rewrite ?N1, ?N2; simpl; try discriminate;
    (destruct (OperationNode_init lh rh op w) as [[at_ | e_] w1] eqn:E;
     [| discriminate]);
    apply OperationNode_init_attrs in E as (Ho & Hn & _ & _);
    unfold ret; intros X; inversion X; subst n;
    exists (if negb (is_ModelOperationNode lh) && attrs_get_mtype_is_con lh
            then with_fmt at_ (py "*") else at_);
    eexists _, _, _, _;
    repeat (split; [first [reflexivity | eassumption
                          | destruct (_ && _); assumption]
                   |]);
    simpl; auto.
Qed.

(** X2: [+] on two model nodes succeeds exactly when both are additive
    (the registry being empty); with an operand of another kind it raises
    [TypeError] and the process state is unchanged. *)
Theorem Model_add_needs_additive_operands :
  forall (lh rh : node) (w : world) k1 k2,
    attrs_mtype lh = Ok k1 -> attrs_mtype rh = Ok k2 -> _UUID w = [] ->
    ((exists n w', Model_add lh rh w = (Ok n, w'))
     <-> k1 = add /\ k2 = add) /\
    (k1 <> add \/ k2 <> add -> Model_add lh rh w = (Err TypeError, w)).
Proof.
  intros lh rh w k1 k2 K1 K2 Hreg.
  assert (Bad : k1 <> add \/ k2 <> add ->
                Model_add lh rh w = (Err TypeError, w)).
  { intros Hbad. unfold Model_add, ModelOperationNode_init, bind, lift,
      _check_type.
    rewrite (attrs_mtype_model _ K1), (attrs_mtype_model _ K2), K1, K2.
    simpl. destruct k1, k2; simpl; try reflexivity.
    destruct Hbad; congruence. }
  split; [split |]; [| | assumption].
  - intros (n & w' & H).
    destruct (mtype_eqb k1 add) eqn:E1, (mtype_eqb k2 add) eqn:E2;
      try (rewrite Bad in H;
           [discriminate
           | destruct k1, k2; simpl in *; try discriminate;
             (left; discriminate) || (right; discriminate)]).
    apply mtype_eqb_eq in E1, E2. auto.
  - intros [-> ->]. unfold Model_add.
    rewrite ModelOperationNode_init_plus by assumption. eauto.
Qed.

(** X3: a model operation is only ever built over two model nodes. Over
    two parameter nodes, with either operator, [ModelOperationNode]
    raises [KeyError] when it reads the kind of its left operand, and the
    process state is unchanged. *)
Theorem ModelOperationNode_init_only_models :
  forall (lh rh : node) (op : str) (w : world),
    (forall n w', ModelOperationNode_init lh rh op w = (Ok n, w') ->
                  type lh = model /\ type rh = model /\
                  (op = py "+" \/ op = py "*") /\ predecessor n = [lh; rh]) /\
    (type lh = parameter -> type rh = parameter ->
     op = py "+" \/ op = py "*" ->
     ModelOperationNode_init lh rh op w = (Err KeyError, w)).
Proof.
  intros lh rh op w. split.
  - intros n w' H.
    pose proof (ModelOperationNode_init_inv _ _ _ _ H)
      as (a & k1 & n1 & k2 & n2 & K1 & _ & K2 & _ & _ & _ & -> & _).
    split; [eapply attrs_mtype_model; eassumption |].
    split; [eapply attrs_mtype_model; eassumption |].
    split; [| reflexivity].
    revert H. unfold ModelOperationNode_init, bind, lift, _check_type.
    destruct (str_mem op [py "+"; py "*"]) eqn:Hop; [| discriminate].
    intros _. apply str_mem_In in Hop.
    destruct Hop as [<- | [<- | []]]; auto.
  - intros T1 T2 Hop.
    unfold ModelOperationNode_init, bind, lift, _check_type.
    rewrite T1, T2.
    replace (str_mem op [py "+"; py "*"]) with true
      by (destruct Hop; subst op; reflexivity).
    simpl. destruct lh; try discriminate; reflexivity.
Qed.

(** X4: [ModelNode] raises [TypeError] for a kind other than ['add'],
    ['mul'] and ['con'], whatever the parameters are; for a known kind it
    raises [ValueError] when a value of [params] is a model node. With a
    known kind and parameter nodes only (the registry being empty) it
    builds a leaf whose parameter names and predecessors are the keys and
    values of [params] in their order, with the norm flag as given,
    whatever the kind. *)
Theorem ModelNode_init_outcome :
  forall nm fm mt (ps : option (list (str * node))) fg nc (w : world),
    (mt <> py "add" -> mt <> py "mul" -> mt <> py "con" ->
     ModelNode_init nm fm mt ps fg nc w = (Err TypeError, w)) /\
    (forall k d v,
        parse_mtype mt = Some k -> ps = Some d ->
        In v (map snd d) -> type v = model ->
        ModelNode_init nm fm mt ps fg nc w = (Err ValueError, w)) /\
    (forall k,
        parse_mtype mt = Some k ->
        (forall d v, ps = Some d -> In v (map snd d) -> type v = parameter) ->
        _UUID w = [] ->
        ModelNode_init nm fm mt ps fg nc w
        = (Ok (ModelNode (mk_attrs nm fm false (uuid4_hex w (drawn w))) k fg
                 nc
                 (match ps with Some d => map fst d | None => [] end)
                 (match ps with Some d => map snd d | None => [] end)),
           after_draw w)).
Proof.
  intros nm fm mt ps fg nc w. split; [| split].
  - intros H1 H2 H3. unfold ModelNode_init, parse_mtype.
    apply str_eqb_neq in H1, H2, H3. now rewrite H1, H2, H3.
  - intros k d v Hk -> Hin Hv. unfold ModelNode_init. rewrite Hk.
    unfold bind.
    replace (forallb _ (map snd d)) with false; [reflexivity |].
    symmetry. apply not_true_is_false. intros F.
    rewrite forallb_forall in F. specialize (F v Hin).
    rewrite Hv in F. discriminate.
  - intros k Hk Hps Hreg. unfold ModelNode_init. rewrite Hk. unfold bind.
    assert (F : str_mem (uuid4_hex w (drawn w)) (_UUID w) = false)
      by (rewrite Hreg; reflexivity).
    destruct ps as [d |].
    + replace (forallb _ (map snd d)) with true.
      * unfold ret. rewrite Node_init_fresh by (reflexivity || assumption).
        reflexivity.
      * symmetry. apply forallb_forall. intros v Hv.
        rewrite (Hps d v eq_refl Hv). reflexivity.
    + unfold ret. rewrite Node_init_fresh by (reflexivity || assumption).
      reflexivity.
Qed.


(** X5: the operator a model operation is written with. A model operation
    built with [op] is named [op]; in formulas a sum is written [+], a
    product whose left operand is a convolution leaf is written [*], and
    every other product [\times]. *)
Theorem model_operation_formula_operator :
  forall (lh rh n : node) (op : str) (w w' : world),
    ModelOperationNode_init lh rh op w = (Ok n, w') ->
    a_name (node_attrs n) = op /\
    a_fmt (node_attrs n)
    = (if str_eqb op (py "+") then py "+"
       else if negb (is_ModelOperationNode lh) && attrs_get_mtype_is_con lh
            then py "*" else py "\times").
Proof.
  intros lh rh n op w w' H.
  pose proof (ModelOperationNode_init_inv _ _ _ _ H)
    as (a & k1 & n1 & k2 & n2 & K1 & N1 & K2 & N2 & _ & _ & _ & L).
  revert H. unfold ModelOperationNode_init, bind, lift.
  destruct (_check_type lh rh op); [| discriminate].
  rewrite K1, K2.
  destruct (str_eqb op (py "+")) eqn:Eop;
    destruct k1, k2; simpl in L |- *; rewrite ?N1, ?N2; simpl;
    destruct n1, n2; simpl in L |- *; rewrite ?N1, ?N2; simpl;
    try discriminate; try (destruct L; discriminate);
    (destruct (OperationNode_init lh rh op w) as [[at_ | e_] w1] eqn:E;
     [| discriminate]);
    apply OperationNode_init_attrs in E as (Ho & Hn & Hop & Hf);
    unfold ret; intros X; inversion X; subst n; simpl;
    unfold attrs_get_mtype_is_con; rewrite K1;
    destruct (is_ModelOperationNode lh); simpl;
    (split; [assumption |]);
    try rewrite Hf; apply str_mem_In in Hop;
    destruct Hop as [<- | [<- | []]];
    try reflexivity; vm_compute in Eop; discriminate.
Qed.


(** *** Kinds and norm flags of built trees *)

Lemma ModelNode_init_inv nm fm mt ps fg nc (w w' : world) (n : node) :
  ModelNode_init nm fm mt ps fg nc w = (Ok n, w') ->
  exists a k pn qs,
    n = ModelNode a k fg nc pn qs /\ a_is_operation a = false /\
    a_name a = nm /\ a_fmt a = fm /\
    List.length pn = List.length qs /\
    Forall (fun v : node => type v = parameter) qs.
Proof.
  unfold ModelNode_init, Node_init, bind, lift, ret, raise, uuid4, read_UUID.
  destruct (parse_mtype mt) as [k |]; [| discriminate].
  destruct ps as [d |]; [destruct (forallb _ _) eqn:F |]; simpl;
    try discriminate;
    (destruct (str_mem _ (_UUID w)); [discriminate |]);
    intros X; inversion X; subst n; eexists _, _, _, _;
    (split; [reflexivity |]); simpl; repeat (split; [reflexivity |]).
  - split; [now rewrite !length_map |].
    apply Forall_forall. intros v Hv.
    rewrite forallb_forall in F. specialize (F v Hv).
    now apply ntype_eqb_eq in F.
  - constructor.
Qed.

Lemma built_invariant (n : node) :
  built n ->
  exists k nc,
    attrs_mtype n = Ok k /\ attrs_is_ncon n = Ok nc /\
    (k = add <-> Exists (fun m => attrs_mtype m = Ok add) (leaf_nodes n)) /\
    (k = mul <-> Forall (fun m => attrs_mtype m = Ok mul) (leaf_nodes n)) /\
    (Forall (fun m => is_norm m = true -> attrs_mtype m = Ok con)
       (leaf_nodes n) ->
     (nc = true -> k = con) /\
     (Forall (fun m => attrs_mtype m <> Ok add) (leaf_nodes n) ->
      List.length (filter (@is_norm _ _ _) (leaf_nodes n))
      = if nc then 1 else 0)).
Proof.
  induction 1 as [nm fm mt ps fg nc w n w' H
                 | lh rh op w n w' Bl IHl Br IHr H].
  - apply ModelNode_init_inv in H as (a & k & pn & qs & -> & _).
    exists k, nc. simpl. split; [reflexivity |]. split; [reflexivity |].
    split; [| split].
    + split; [intros ->; now constructor |].
      intros E. inversion E as [? ? E' | ? ? E']; subst;
        [simpl in E'; congruence | inversion E'].
    + split; [intros ->; repeat constructor |].
      intros E. inversion E as [| ? ? E' _]; subst. simpl in E'.
      congruence.
    + intros Wf. inversion Wf as [| ? ? W _]; subst.
      unfold is_norm in *. simpl in *. split.
      * intros ->. specialize (W eq_refl). congruence.
      * intros _. destruct nc; reflexivity.
  - apply ModelOperationNode_init_inv in H
      as (a & k1 & n1 & k2 & n2 & K1 & N1 & K2 & N2 & _ & _ & -> & Legal).
    destruct IHl as (k1' & n1' & K1' & N1' & Al & Ml & Wl).
    destruct IHr as (k2' & n2' & K2' & N2' & Ar & Mr & Wr).
    assert (k1' = k1) by congruence. assert (k2' = k2) by congruence.
    assert (n1' = n1) by congruence. assert (n2' = n2) by congruence.
    subst k1' k2' n1' n2'. clear K1' K2' N1' N2'.
    eexists _, _. simpl. split; [reflexivity |]. split; [reflexivity |].
    rewrite Exists_app, Forall_app, <- Al, <- Ar, <- Ml, <- Mr.
    split; [| split].
    + destruct k1, k2; simpl; intuition congruence.
    + destruct k1, k2; simpl; intuition congruence.
    + intros Wf. apply Forall_app in Wf as [Wf1 Wf2].
      destruct (Wl Wf1) as [C1 Cnt1]. destruct (Wr Wf2) as [C2 Cnt2].
      split.
      * destruct k1, k2; simpl; try discriminate; reflexivity.
      * intros NA. apply Forall_app in NA as [NA1 NA2].
        rewrite filter_app, length_app, (Cnt1 NA1), (Cnt2 NA2).
        assert (k1 <> add).
        { intros ->. destruct Al as [Al _]. specialize (Al eq_refl).
          apply Exists_exists in Al as (m & Hm & Em).
          rewrite Forall_forall in NA1. now apply (NA1 m Hm). }
        assert (k2 <> add).
        { intros ->. destruct Ar as [Ar _]. specialize (Ar eq_refl).
          apply Exists_exists in Ar as (m & Hm & Em).
          rewrite Forall_forall in NA2. now apply (NA2 m Hm). }
        destruct (str_eqb op (py "+")); [destruct Legal; congruence |].
        destruct k1, k2, n1, n2; simpl in *; try congruence;
          try reflexivity;
          try (specialize (C1 eq_refl); discriminate);
          try (specialize (C2 eq_refl); discriminate).
Qed.

(** X6: the kind of a built model tree is read off its leaves: it is
    additive exactly when some leaf is additive, multiplicative exactly
    when every leaf is multiplicative, and convolution otherwise. *)
Theorem built_kind_from_leaves :
  forall (n : node),
    built n ->
    exists k,
      attrs_mtype n = Ok k /\
      (k = add <-> Exists (fun m => attrs_mtype m = Ok add) (leaf_nodes n)) /\
      (k = mul <-> Forall (fun m => attrs_mtype m = Ok mul) (leaf_nodes n)).
Proof.
  intros n B.
  destruct (built_invariant B) as (k & nc & K & _ & A & M & _).
  exists k. auto.
Qed.

(** X7: norm convolution is used at most once per component. In a built
    model tree whose leaves carry the norm flag only when they are
    convolutions, a node with the norm flag is a convolution; and when the
    tree has no additive leaf, at most one of its leaves carries the norm
    flag, the root carrying it exactly when one does. *)
Theorem norm_convolution_at_most_once :
  forall (n : node),
    built n ->
    Forall (fun m => is_norm m = true -> attrs_mtype m = Ok con)
      (leaf_nodes n) ->
    (is_norm n = true -> attrs_mtype n = Ok con) /\
    (Forall (fun m => attrs_mtype m <> Ok add) (leaf_nodes n) ->
     List.length (filter (@is_norm _ _ _) (leaf_nodes n))
     = if is_norm n then 1 else 0).
Proof.
  intros n B Wf.
  destruct (built_invariant B) as (k & nc & K & N & _ & _ & W).
  destruct (W Wf) as [C Cnt]. unfold is_norm at 1 3. rewrite N, K.
  split.
  - destruct nc; [| discriminate]. intros _. now rewrite C.
  - intros NA. rewrite (Cnt NA). destruct nc; reflexivity.
Qed.


(** *** Components and parameters of built trees *)

Lemma dict_merge_In {V} (b : list (str * V)) : forall a kv,
  In kv (dict_merge a b) -> In kv a \/ In kv b.
Proof.
  unfold dict_merge.
  induction b as [| [k v] b IH]; intros a kv H; simpl in *; [auto |].
  apply IH in H as [H | H]; [| auto].
  destruct kv as [k' v']. apply dict_set_In in H as [H | H]; auto.
Qed.

Lemma dict_merge_keys {V} (b : list (str * V)) : forall a k,
  In k (map fst (dict_merge a b)) <-> In k (map fst a) \/ In k (map fst b).
Proof.
  unfold dict_merge.
  induction b as [| [k' v] b IH]; intros a k; simpl; [tauto |].
  rewrite IH. split.
  - intros [H | H]; [| auto].
    apply dict_set_keys_inv in H as [-> | H]; auto.
  - intros [H | [<- | H]]; auto.
    + left. now apply dict_set_keys.
    + left. apply dict_set_key.
Qed.

Lemma dict_merge_NoDup {V} (b : list (str * V)) : forall a,
  NoDup (map fst a) -> NoDup (map fst (dict_merge a b)).
Proof.
  unfold dict_merge.
  induction b as [| [k v] b IH]; intros a H; simpl; [assumption |].
  apply IH. now apply dict_set_NoDup.
Qed.

Lemma dict_set_new {V} (d : list (str * V)) k v :
  ~ In k (map fst d) -> dict_set d k v = d ++ [(k, v)].
Proof.
  induction d as [| [k' v'] d IH]; simpl; intros H; [reflexivity |].
  destruct (str_eq_dec k k'); [subst; tauto |].
  rewrite IH by tauto. reflexivity.
Qed.

(** A comprehension over distinct keys lists its entries in order. *)
Lemma dict_merge_fresh {V} (b : list (str * V)) : forall a,
  NoDup (map fst b) ->
  (forall k, In k (map fst b) -> ~ In k (map fst a)) ->
  dict_merge a b = a ++ b.
Proof.
  unfold dict_merge.
  induction b as [| [k v] b IH]; intros a N D; simpl;
    [now rewrite app_nil_r |].
  inversion N as [| ? ? Hnew N']; subst.
  rewrite dict_set_new by (apply D; now left).
  rewrite IH; [now rewrite <- app_assoc | assumption |].
  intros k' Hk'. rewrite map_app, in_app_iff. simpl.
  intros [H | [<- | []]]; [| contradiction].
  apply (D k'); [now right | assumption].
Qed.

(** X8: [comps] never raises on a built model tree and lists the names
    with id of its leaves from left to right, one for every occurrence of
    a leaf. *)
Theorem comps_lists_leaf_occurrences :
  forall (n : node),
    built n ->
    comps n = Ok (map (label_with_id name) (leaf_nodes n)) /\
    forall c, comps n = Ok c ->
              List.length c = List.length (leaf_nodes n).
Proof.
  intros n B.
  assert (E : comps n = Ok (map (label_with_id name) (leaf_nodes n))).
  { induction B as [nm fm mt ps fg nc w n w' H
                   | lh rh op w n w' Bl IHl Br IHr H].
    - apply ModelNode_init_inv in H as (a & k & pn & qs & -> & _).
      reflexivity.
    - apply ModelOperationNode_init_shape in H as (a & k & nc & -> & _).
      simpl. rewrite IHl, IHr. simpl. now rewrite map_app. }
  split; [assumption |].
  intros c Hc. rewrite E in Hc. inversion Hc. now rewrite length_map.
Qed.

(** X9: [params] never raises on a built model tree; it has one entry for
    every distinct name with id among the leaves, however often a leaf
    occurs, and every entry is the entry [params] gives for a leaf of the
    tree. *)
Theorem params_one_entry_per_leaf :
  forall (n : node),
    built n ->
    exists d,
      params n = Ok d /\
      NoDup (map fst d) /\
      (forall k, In k (map fst d)
                 <-> In k (map (label_with_id name) (leaf_nodes n))) /\
      (forall k v, In (k, v) d ->
                   exists m, In m (leaf_nodes n) /\ params m = Ok [(k, v)]).
Proof.
  induction 1 as [nm fm mt ps fg nc w n w' H
                 | lh rh op w n w' Bl IHl Br IHr H].
  - apply ModelNode_init_inv in H as (a & k & pn & qs & -> & _).
    eexists. split; [reflexivity |]. simpl. split; [| split].
    + constructor; [simpl; tauto | constructor].
    + tauto.
    + intros k' v [E | []]. inversion E; subst.
      eexists. split; [left; reflexivity | reflexivity].
  - apply ModelOperationNode_init_shape in H as (a & k & nc & -> & _).
    destruct IHl as (dl & Pl & Nl & Kl & El).
    destruct IHr as (dr & Pr & Nr & Kr & Er).
    exists (dict_merge dl dr). simpl. rewrite Pl, Pr. simpl.
    split; [reflexivity |]. split; [| split].
    + now apply dict_merge_NoDup.
    + intros k'. rewrite dict_merge_keys, map_app, in_app_iff, Kl, Kr.
      tauto.
    + intros k' v Hin. apply dict_merge_In in Hin as [Hin | Hin].
      * destruct (El _ _ Hin) as (m & Hm & E). exists m.
        rewrite in_app_iff. auto.
      * destruct (Er _ _ Hin) as (m & Hm & E). exists m.
        rewrite in_app_iff. auto.
Qed.

(** X10: the parameters given to [ModelNode] are read back by [params]:
    for a leaf built from a dictionary [d], the one entry of [params],
    under the name with id of the leaf, lists the parameter names of [d]
    in their order, each with the name with id of its parameter node. *)
Theorem params_reads_back_the_parameters :
  forall nm fm mt (d : list (str * node)) fg nc (w w' : world) (n : node),
    NoDup (map fst d) ->
    ModelNode_init nm fm mt (Some d) fg nc w = (Ok n, w') ->
    params n
    = Ok [(label_with_id name n,
           map (fun kv => (fst kv, label_with_id name (snd kv))) d)] /\
    predecessor n = map snd d.
Proof.
  intros nm fm mt d fg nc w w' n N.
  unfold ModelNode_init, Node_init, bind, lift, ret, raise, uuid4, read_UUID.
  destruct (parse_mtype mt) as [k |]; [| discriminate].
  destruct (forallb _ _); simpl; [| discriminate].
  destruct (str_mem _ (_UUID w)); [discriminate |].
  intros X. inversion X; subst n. simpl. split; [| reflexivity].
  do 3 f_equal. unfold dict_of.
  assert (C : combine (map fst d) (map (label_with_id name) (map snd d))
              = map (fun kv : str * node =>
                       (fst kv, label_with_id name (snd kv))) d).
  { clear. induction d as [| [k v] d IH]; simpl; [reflexivity |].
    now rewrite IH. }
  rewrite C. rewrite dict_merge_fresh; [reflexivity | | intros ? _ []].
  rewrite map_map. simpl. assumption.
Qed.


(** *** Defaults live in their leaves *)




(** *** More on labels *)

(** X12: with ids of the form [uuid4] gives them, the name with id of a
    leaf tells leaves apart: two leaves have the same name (or formula)
    with id exactly when they have the same raw label and the same id. *)
Theorem label_with_id_tells_leaves_apart :
  forall (l : label_type) (a b : attrs),
    is_uuid (a_id a) = true -> is_uuid (a_id b) = true ->
    (Node_label_with_id l a = Node_label_with_id l b
     <-> attrs_label l a = attrs_label l b /\ a_id a = a_id b).
Proof.
  intros l a b Ua Ub. split.
  - now apply Node_label_with_id_inj.
  - intros [E1 E2]. unfold Node_label_with_id. now rewrite E1, E2.
Qed.

Lemma string_of_uint_no_underscore (d : Decimal.uint) :
  ~ In "_"%char (list_ascii_of_string (NilEmpty.string_of_uint d)).
Proof. induction d; simpl; intuition discriminate. Qed.

Lemma str_of_nat_no_underscore (n : nat) : ~ In "_"%char (str_of_nat n).
Proof.
  unfold str_of_nat, NilZero.string_of_uint.
  destruct (Nat.to_uint n) eqn:E;
    try (rewrite <- E; apply string_of_uint_no_underscore).
  simpl. intuition discriminate.
Qed.

(** X13: names without underscore are always rendered right. On a
    finished tree in which ids stand for leaves and no raw name of a leaf
    contains an underscore, [LabelSpace.name] is the name of the tree with
    every leaf displayed by its raw name and its number. *)
Theorem LabelSpace_name_without_underscore :
  forall (n : node),
    finished n = true ->
    ids_identify name (leaves n) = true ->
    (forall a, In a (leaves n) -> ~ In "_"%char (a_name a)) ->
    LabelSpace_name (LabelSpace_init n)
    = label_with name (display name (leaves n)) n.
Proof.
  intros n F I NoU. apply _label_finished; try assumption.
  unfold hygienic. apply forallb_forall. intros i _.
  apply forallb_forall. intros a Ha.
  change (py "_" ++ a_id i) with ("_"%char :: a_id i).
  rewrite !infixb_no_underscore; [reflexivity | | now apply NoU].
  unfold display, suffix. rewrite in_app_iff. intros [H | H].
  - now apply (NoU a).
  - destruct (Nat.eqb _ 1); [destruct H |].
    now apply str_of_nat_no_underscore in H.
Qed.

Lemma _label_leaf (n : node) (l : label_type) :
  a_is_operation (node_attrs n) = false ->
  label_with_id l n = Node_label_with_id l (node_attrs n) ->
  _label (LabelSpace_init n) l = attrs_label l (node_attrs n).
Proof.
  intros Hop Hlab. unfold _label. rewrite _check_if_label_changed_init.
  simpl. rewrite _get_suffix_mapping_fold, (sub_nodes_leaf n Hop), Hlab.
  simpl. unfold Node_label_with_id.
  set (lab := attrs_label l (node_attrs n)).
  set (k := lab ++ py "_" ++ a_id (node_attrs n)).
  assert (K : k <> []) by (subst k; destruct lab; discriminate).
  rewrite str_replace_nonempty by assumption.
  change (replace_from 0 k lab k = lab).
  replace (replace_from 0 k lab k) with (replace_from 0 k lab (k ++ []))
    by now rewrite app_nil_r.
  rewrite replace_from_match by assumption.
  simpl. apply app_nil_r.
Qed.

(** X14: the [LabelSpace] of a single leaf renders its raw label, for
    names and formulas, whatever the label and the id are. *)
Theorem LabelSpace_of_a_leaf :
  forall (a : attrs) (l : label_type),
    a_is_operation a = false ->
    (forall c d det,
        _label (LabelSpace_init (ParameterNode a c d det : node)) l
        = attrs_label l a) /\
    (forall k fg nc pn ps,
        _label (LabelSpace_init (ModelNode a k fg nc pn ps : node)) l
        = attrs_label l a).
Proof.
  intros a l Hop. split; intros;
    match goal with |- _label (LabelSpace_init ?n) _ = _ =>
      apply (@_label_leaf n l Hop eq_refl) end.
Qed.


(** *** More on compiled evaluators *)

Lemma first_failure_app (mapping : list (str * str)) (l1 l2 : list node) :
  first_failure mapping (l1 ++ l2)
  = match first_failure mapping l1 with
    | Some e => Some e
    | None => first_failure mapping l2
    end.
Proof.
  induction l1 as [| m l1 IH]; simpl; [reflexivity |].
  destruct (leaf_failure mapping m); [reflexivity | assumption].
Qed.

Lemma generate_func_built (n : node) (mapping : list (str * str)) :
  built n ->
  match first_failure mapping (leaf_nodes n) with
  | Some e => generate_func n mapping = Err e
  | None => exists ev, generate_func n mapping = Ok ev
  end.
Proof.
  induction 1 as [nm fm mt ps fg nc w n w' H
                 | lh rh op w n w' Bl IHl Br IHr H].
  - apply ModelNode_init_inv in H as (a & k & pn & qs & -> & _).
    simpl.
    destruct (dict_get mapping (Node_label_with_id name a)) as [s |];
      [| reflexivity].
    destruct (fg s) as [g |]; simpl; [| reflexivity].
    destruct (copy_function g) as [f |]; simpl; [| reflexivity].
    destruct k; [| | destruct nc]; eauto.
  - apply ModelOperationNode_init_inv in H
      as (a & k1 & n1 & k2 & n2 & K1 & N1 & K2 & N2 & _ & _ & -> & _).
    cbn [leaf_nodes]. rewrite first_failure_app. simpl.
    destruct (first_failure mapping (leaf_nodes lh)) as [e1 |];
      [now rewrite IHl |].
    destruct IHl as [m1 ->].
    destruct (first_failure mapping (leaf_nodes rh)) as [e2 |];
      [simpl; now rewrite IHr |].
    destruct IHr as [m2 ->]. rewrite K1, K2. simpl.
    match goal with
    | |- context [str_eqb ?x ?y] => destruct (str_eqb x y)
    end; [eauto |].
    destruct k1, k2; simpl; rewrite ?N1, ?N2; simpl;
      destruct n1, n2; simpl; eauto.
Qed.

Lemma first_failure_None (mapping : list (str * str)) (l : list node) :
  first_failure mapping l = None
  <-> Forall (fun m => exists model_name,
                dict_get mapping (label_with_id name m) = Some model_name /\
                generates m model_name) l.
Proof.
  induction l as [| m l IH]; simpl; [split; [constructor | reflexivity] |].
  split.
  - destruct (leaf_failure mapping m) eqn:E; [discriminate |].
    intros H. constructor; [| now apply IH].
    destruct m as [| | a k fg nc pn ps |]; try discriminate. simpl in *.
    destruct (dict_get mapping (Node_label_with_id name a)) as [s |];
      [| discriminate].
    exists s. split; [reflexivity |].
    destruct (fg s) as [g |] eqn:G; [| discriminate]. simpl in E.
    destruct (copy_function g) as [f |] eqn:C; [| discriminate].
    now exists a, k, fg, nc, pn, ps, g, f.
  - intros H. inversion H as [| ? ? Hm Hl]; subst.
    destruct Hm as (s & D & a & k & fg & nc & pn & ps & g & f & -> & G & C).
    simpl in *. rewrite D, G. simpl. rewrite C. now apply IH.
Qed.

(** X15: compiling a built model tree goes through its leaves from left to
    right and stops at the first that fails. A leaf fails with [KeyError]
    when [mapping] has no entry for its name with id, and otherwise with
    what its generator raises for the mapped name or what copying the
    generated object raises. [generate_func] raises the exception of the
    first failing leaf, and it succeeds exactly when every leaf has an
    entry in [mapping] under which its generator returns an object that
    can be copied. *)
Theorem generate_func_stops_at_first_failing_leaf :
  forall (n : node) (mapping : list (str * str)),
    built n ->
    (forall e, first_failure mapping (leaf_nodes n) = Some e ->
               generate_func n mapping = Err e) /\
    ((exists ev, generate_func n mapping = Ok ev)
     <-> Forall (fun m => exists model_name,
                   dict_get mapping (label_with_id name m)
                   = Some model_name /\
                   generates m model_name) (leaf_nodes n)).
Proof.
  intros n mapping B. pose proof (generate_func_built mapping B) as H.
  rewrite <- first_failure_None.
  destruct (first_failure mapping (leaf_nodes n)) as [e |].
  - split; [intros e' E; congruence |].
    split; [intros [ev E]; congruence | discriminate].
  - split; [discriminate |]. split; [reflexivity | intros _; exact H].
Qed.

Lemma leaf_nodes_leaves (n m : node) :
  In m (leaf_nodes n) ->
  In (node_attrs m) (leaves n) /\
  forall l, label_with_id l m = Node_label_with_id l (node_attrs m).
Proof.
  induction n as [a c d dt | a lh IHl rh IHr | a mt fg nc pn ps
                 | a mt nc lh IHl rh IHr]; simpl; intros H;
    try (destruct H as [<- | []]; split; [now left | reflexivity]);
    apply in_app_iff in H as [H | H];
    [destruct (IHl H) | destruct (IHr H)
    | destruct (IHl H) | destruct (IHr H)];
    (split; [apply in_app_iff; auto | assumption]).
Qed.

(** The suffix mapping of a finished tree has, under the label with id of
    every leaf, the label the leaf is displayed with. *)
Lemma _get_suffix_mapping_lookup (n : node) (l : label_type) (a : attrs) :
  finished n = true -> In a (leaves n) ->
  dict_get (_get_suffix_mapping n l) (Node_label_with_id l a)
  = Some (display l (leaves n) a).
Proof.
  intros F Ha.
  assert (N : NoDup (map fst (_get_suffix_mapping n l))).
  { rewrite _get_suffix_mapping_fold. apply fold_visit_NoDup. constructor. }
  destruct (_get_suffix_mapping_finished n l F) as [Hkeys Hvals].
  specialize (Hkeys a Ha).
  apply in_map_iff in Hkeys as ([k v] & Ek & Hin). simpl in Ek. subst k.
  rewrite (dict_get_In _ _ _ N Hin). f_equal.
  destruct (Hvals _ _ Hin) as (b & Hb & Ekey & ->).
  apply Node_label_with_id_inj in Ekey as [E1 E2];
    try (eapply finished_leaves_uuid; eassumption).
  symmetry. now apply display_ext.
Qed.

(** X16: the name mapping of the [LabelSpace] of a tree names every leaf.
    For a finished built model tree, [LabelSpace.mapping] returns the
    suffix mappings computed at construction; with the one for names
    [generate_func] compiles every leaf under the name the leaf is
    displayed with, so no leaf fails for a missing name, and it succeeds
    exactly when the generator of every leaf returns, for the displayed
    name of the leaf, an object that can be copied. *)
Theorem generate_func_with_LabelSpace_mapping :
  forall (n : node),
    built n -> finished n = true ->
    let mapping := snd (LabelSpace_mapping (LabelSpace_init n)) name in
    snd (LabelSpace_mapping (LabelSpace_init n)) = _get_suffix_mapping n /\
    (forall m, In m (leaf_nodes n) ->
               dict_get mapping (label_with_id name m)
               = Some (display name (leaves n) (node_attrs m))) /\
    ((exists ev, generate_func n mapping = Ok ev)
     <-> Forall (fun m =>
                   generates m (display name (leaves n) (node_attrs m)))
           (leaf_nodes n)).
Proof.
  intros n B F mapping. subst mapping. unfold LabelSpace_mapping.
  rewrite _check_if_label_changed_init. simpl.
  assert (L : forall m : node,
             In m (leaf_nodes n) ->
             dict_get (_get_suffix_mapping n name) (label_with_id name m)
             = Some (display name (leaves n) (node_attrs m))).
  { intros m Hm. destruct (leaf_nodes_leaves _ _ Hm) as [Hin Hlab].
    rewrite Hlab. now apply _get_suffix_mapping_lookup. }
  split; [reflexivity |]. split; [exact L |].
  pose proof (generate_func_built (_get_suffix_mapping n name) B) as H.
  rewrite !Forall_forall.
  destruct (first_failure (_get_suffix_mapping n name) (leaf_nodes n))
    as [e |] eqn:E.
  - split; [intros [ev X]; congruence |]. intros G. exfalso.
    assert (N : first_failure (_get_suffix_mapping n name) (leaf_nodes n)
                = None); [| congruence].
    apply first_failure_None, Forall_forall. intros m Hm.
    eexists. split; [apply (L m Hm) | apply (G m Hm)].
  - split; [| intros _; exact H]. intros _ m Hm.
    apply first_failure_None in E. rewrite Forall_forall in E.
    destruct (E m Hm) as (s & D & G). rewrite (L m Hm) in D.
    inversion D; subst. exact G.
Qed.


(** X17: what an evaluator does with arguments it has no use for. The
    evaluator compiled for an additive or a multiplicative built tree
    ignores every argument after the second, and the one compiled for a
    convolution tree without norm flag ignores every argument after the
    third. *)
Theorem evaluator_ignores_further_arguments :
  forall (n : node) (mapping : list (str * str)) ev,
    built n ->
    generate_func n mapping = Ok ev ->
    (attrs_mtype n = Ok add \/ attrs_mtype n = Ok mul ->
     forall p e rest, ev (p :: e :: rest) = ev [p; e]) /\
    (attrs_mtype n = Ok con -> attrs_is_ncon n = Ok false ->
     forall p e f rest, ev (p :: e :: f :: rest) = ev [p; e; f]).
Proof.
  intros n mapping ev B G.
  destruct B as [nm fm mt ps fg nc w n w' H | lh rh op w n w' Bl Br H].
  - apply ModelNode_init_inv in H as (a & k & pn & qs & -> & _).
    apply generate_func_leaf in G as (s & g & f & _ & _ & _ & ->).
    simpl.
    destruct k; [| | destruct nc];
      (split; [intros [E | E] | intros E1 E2]); try discriminate;
      reflexivity.
  - apply ModelOperationNode_init_inv in H
      as (a & k1 & n1 & k2 & n2 & K1 & N1 & K2 & N2 & Hname & _ & -> & L).
    simpl in G.
    destruct (generate_func lh mapping) as [m1 |]; [| discriminate].
    destruct (generate_func rh mapping) as [m2 |]; [| discriminate].
    rewrite K1, K2, Hname in G. simpl in G. simpl.
    destruct (str_eqb op (py "+")) eqn:Eop;
      change (py "+") with ["+"%char] in Eop; rewrite Eop in G.
    + destruct L as [-> ->]. inversion G; subst ev.
      split; [reflexivity | discriminate].
    + destruct k1, k2; simpl in G, L |- *; try discriminate;
        rewrite ?N1, ?N2 in G; simpl in G;
        destruct n1, n2; simpl in G, L |- *; try discriminate;
        inversion G; subst ev;
        (split; [intros [E | E] | intros E1 E2]); try discriminate;
        reflexivity.
Qed.

(** X18: a compiled evaluator returns a value only for a call whose first
    argument is a parameter dictionary: with no argument, or with an
    array, [None] or a function in first position, it raises. *)
Theorem evaluator_needs_parameters_first :
  forall (n : node) (mapping : list (str * str)) ev,
    generate_func n mapping = Ok ev ->
    is_ok (ev []) = false /\
    forall x rest,
      (forall d, x <> AVal (VDict d)) -> is_ok (ev (x :: rest)) = false.
Proof.
  induction n as [ | | a mt fg nc pn ps | a mt nc lh IHl rh IHr ];
    intros mapping ev H; try discriminate.
  - apply generate_func_leaf in H as (s & g & f & _ & _ & _ & ->).
    destruct mt; [| | destruct nc];
      (split; [reflexivity |]); intros x rest Hx;
      (destruct x as [[| d |] |]; [| destruct (Hx d eq_refl) | |]);
      destruct rest as [| ? [| ? [| ? [| ? ?]]]]; reflexivity.
  - simpl in H.
    destruct (generate_func lh mapping) as [m1 |] eqn:G1;
      [| discriminate].
    destruct (generate_func rh mapping) as [m2 |] eqn:G2;
      [| discriminate].
    destruct (IHl _ _ G1) as [_ IH1]. destruct (IHr _ _ G2) as [_ IH2].
    simpl in H.
    assert (F1 : forall x rest, (forall d, x <> AVal (VDict d)) ->
                   m1 (x :: rest) = Err
                     match m1 (x :: rest) with
                     | Err e => e | Ok _ => TypeError end).
    { intros x rest Hx. specialize (IH1 x rest Hx).
      destruct (m1 _); [discriminate | reflexivity]. }
    assert (F2 : forall x rest, (forall d, x <> AVal (VDict d)) ->
                   m2 (x :: rest) = Err
                     match m2 (x :: rest) with
                     | Err e => e | Ok _ => TypeError end).
    { intros x rest Hx. specialize (IH2 x rest Hx).
      destruct (m2 _); [discriminate | reflexivity]. }
    destruct (attrs_mtype lh) as [t1 |]; [| discriminate].
    destruct (attrs_mtype rh) as [t2 |]; [| discriminate]. simpl in H.
    match type of H with
    | context [str_eqb ?x ?y] => destruct (str_eqb x y)
    end;
      [| destruct t1, t2; simpl in H;
         repeat match type of H with
                | context [attrs_is_ncon ?x] =>
                    destruct (attrs_is_ncon x) as [[] |]; simpl in H
                end; try discriminate ];
      inversion H; subst;
      (split; [reflexivity |]); intros x rest Hx;
      destruct rest as [| ? [| ? [| ? [| ? ?]]]]; simpl;
      try reflexivity;
      try (rewrite (F2 _ _ Hx); reflexivity);
      try (rewrite (F1 _ _ Hx); reflexivity).
Qed.


(** *** What the remaining checks and loops do *)

(** X19: what [ParameterNode] accepts as [deterministic]: nothing, or a
    sequence of exactly two items, a sequence of strings and a callable.
    Anything else makes the constructor raise [ValueError] before the
    default is looked at, and the process state is unchanged. *)
Theorem deterministic_must_be_names_and_callable :
  forall nm fm d (ds : dist num Distribution) det (w : world),
    (_validate_input ds det = Ok tt
     <-> det = None \/
         exists names f,
           det = Some (PySeq [PySeq names; f]) /\
           is_callable f = true /\ forallb (@is_str num) names = true) /\
    (_validate_input ds det <> Ok tt ->
     @ParameterNode_init num num_eqb Distribution validate_sample array
       nm fm d ds det w
     = (Err ValueError, w)).
Proof.
  intros nm fm d ds det w. split.
  - split.
    + unfold _validate_input.
      destruct det as [[s | x | | [| [s | x | | names] [| d1 [| d2 rest]]]] |];
        try discriminate; auto.
      destruct (is_callable d1) eqn:C; simpl; [| discriminate].
      destruct (forallb _ names) eqn:S; simpl; [| discriminate].
      intros _. right. eauto.
    + intros [-> | (names & f & -> & C & S)]; [reflexivity |].
      simpl. rewrite C, S. reflexivity.
  - intros H. unfold ParameterNode_init, bind, lift.
    destruct (_validate_input_result ds det) as [E | E];
      [contradiction | now rewrite E].
Qed.

Lemma sub_nodes_leaf_nodes (n : node) :
  finished n = true -> sub_nodes n = leaf_nodes n.
Proof.
  induction n as [a c d dt | a lh IHl rh IHr | a mt fg nc pn ps
                 | a mt nc lh IHl rh IHr]; simpl; intros H.
  - apply andb_prop in H as [H _]. apply negb_true_iff in H.
    rewrite H. reflexivity.
  - repeat (apply andb_prop in H as [H ?]). rewrite H. simpl.
    rewrite IHl, IHr by assumption. reflexivity.
  - apply andb_prop in H as [H _]. apply negb_true_iff in H.
    rewrite H. reflexivity.
  - repeat (apply andb_prop in H as [H ?]). rewrite H. simpl.
    rewrite IHl, IHr by assumption. reflexivity.
Qed.

(** X20: the stack loop of [_get_sub_nodes_label] visits a finished tree
    from left to right: the label space of a new [LabelSpace] lists every
    occurrence of a leaf, in the order of the leaves, with the raw label
    the leaf has; and checking such a label space for changed labels
    leaves the object as it is. *)
Theorem label_space_lists_the_leaves :
  forall (n : node) (l : label_type),
    finished n = true ->
    _label_space (LabelSpace_init n) l
    = map (fun m => (m, attrs_label l (node_attrs m))) (leaf_nodes n) /\
    _check_if_label_changed (LabelSpace_init n) l = LabelSpace_init n.
Proof.
  intros n l F. split; [| apply _check_if_label_changed_init].
  simpl. unfold _get_sub_nodes_label. rewrite sub_nodes_loop_fold.
  simpl. now rewrite app_nil_r, (sub_nodes_leaf_nodes n F).
Qed.


(** *** Sites *)

Lemma node_nested_ind (P : node -> Prop) :
  (forall a c d dt, P (ParameterNode a c d dt)) ->
  (forall a lh rh, P lh -> P rh -> P (ParameterOperationNode a lh rh)) ->
  (forall a mt fg nc pn ps, Forall P ps -> P (ModelNode a mt fg nc pn ps)) ->
  (forall a mt nc lh rh,
      P lh -> P rh -> P (ModelOperationNode a mt nc lh rh)) ->
  forall n, P n.
Proof.
  intros H1 H2 H3 H4. fix IH 1.
  intros [a c d dt | a lh rh | a mt fg nc pn ps | a mt nc lh rh].
  - apply H1.
  - apply H2; apply IH.
  - apply H3. induction ps as [| p ps IHps]; constructor;
      [apply IH | exact IHps].
  - apply H4; apply IH.
Qed.

Lemma entries_are_merge {V} (R : node -> V -> Prop) (L1 L2 : list node)
  s1 s2 :
  entries_are R L1 s1 -> entries_are R L2 s2 ->
  entries_are R (L1 ++ L2) (dict_merge s1 s2).
Proof.
  intros (N1 & K1 & E1) (N2 & K2 & E2). split; [| split].
  - now apply dict_merge_NoDup.
  - intros k. rewrite dict_merge_keys, map_app, in_app_iff, K1, K2. tauto.
  - intros k d Hin. apply dict_merge_In in Hin as [Hin | Hin].
    + destruct (E1 _ _ Hin) as (m & Hm & E). exists m.
      rewrite in_app_iff. auto.
    + destruct (E2 _ _ Hin) as (m & Hm & E). exists m.
      rewrite in_app_iff. auto.
Qed.

Lemma entries_are_set {V} (R : node -> V -> Prop) (L : list node) s
  (n : node) v :
  entries_are R L s -> R n v ->
  entries_are R (L ++ [n]) (dict_set s (label_with_id name n) v).
Proof.
  intros (N & K & E) Hn. split; [| split].
  - now apply dict_set_NoDup.
  - intros k. rewrite map_app, in_app_iff. simpl. split.
    + intros H. apply dict_set_keys_inv in H as [-> | H]; [auto |].
      left. now apply K.
    + intros [H | [<- | []]]; [| apply dict_set_key].
      apply dict_set_keys. now apply K.
  - intros k v' Hin. apply dict_set_In in Hin as [Hin | Hin].
    + inversion Hin; subst. exists n. rewrite in_app_iff. simpl. auto.
    + destruct (E _ _ Hin) as (m & Hm & X). exists m.
      rewrite in_app_iff. auto.
Qed.

Lemma entries_are_fold {V} (R : node -> V -> Prop)
  (leaves_of : node -> list node) (part : site_info num Distribution
                                          -> list (str * V))
  (qs : list node) :
  forall (sites : list (site_info num Distribution)) L0 x,
    Forall2 (fun q s => entries_are R (leaves_of q) (part s)) qs sites ->
    entries_are R L0 x ->
    entries_are R (L0 ++ flat_map leaves_of qs)
      (fold_left (@dict_merge _) (map part sites) x).
Proof.
  induction qs as [| q qs IH]; intros sites L0 x F H0;
    inversion F as [| ? s ? sites' Hq F']; subst; simpl.
  - now rewrite app_nil_r.
  - rewrite app_assoc. apply IH; [assumption |].
    now apply entries_are_merge.
Qed.

Lemma entries_are_nil {V} (R : node -> V -> Prop) : entries_are R [] [].
Proof.
  split; [constructor | split]; simpl; [tauto | intros ? ? []].
Qed.

Section Sites.

Variable str_format : str -> str -> result str.

Local Abbreviation site := (site str_format).

Lemma site_fails_below (m t : node) :
  In m (leaf_nodes t) -> is_ok (site m) = false -> is_ok (site t) = false.
Proof.
  intros Hin Hm.
  induction t as [a c d dt | a lh IHl rh IHr | a mt fg nc pn ps
                 | a mt nc lh IHl rh IHr];
    try (destruct Hin as [<- | []]; assumption);
    simpl in Hin; apply in_app_iff in Hin; simpl;
    destruct (site lh) as [sl | el]; simpl; try reflexivity;
    destruct (site rh) as [sr | er]; simpl; try reflexivity;
    destruct Hin as [Hin | Hin];
    try (specialize (IHl Hin); discriminate);
    try (specialize (IHr Hin); discriminate).
Qed.

(** X21: a model leaf without parameters has no site: [site] reduces an
    empty list and raises [TypeError]; and [site] raises on every tree
    that has such a leaf. *)
Theorem site_needs_a_parameter :
  forall nm fm mt (ps : option (list (str * node))) fg nc (w w' : world)
         (n : node),
    ps = None \/ ps = Some [] ->
    ModelNode_init nm fm mt ps fg nc w = (Ok n, w') ->
    site n = Err TypeError /\
    forall t : node, In n (leaf_nodes t) -> is_ok (site t) = false.
Proof.
  intros nm fm mt ps fg nc w w' n Hps H.
  assert (E : site n = Err TypeError).
  { revert H.
    unfold ModelNode_init, Node_init, bind, lift, ret, raise, uuid4,
      read_UUID.
    destruct (parse_mtype mt) as [k |]; [| discriminate].
    destruct Hps as [-> | ->]; simpl;
      (destruct (str_mem _ (_UUID w)); [discriminate |]);
      intros X; inversion X; subst n; reflexivity. }
  split; [assumption |].
  intros t Hin. apply (site_fails_below _ _ Hin). now rewrite E.
Qed.

(** X22: the constructor accepts a deterministic specification with any
    number of names, but [site] unpacks exactly one: for a leaf built with
    names [names] and a callable, [site] raises [ValueError] unless there
    is one name, and with one name [t] it has the leaf's distribution as
    its one sample site and one deterministic site, keyed by
    [t.format(name=name)], that depends on the leaf. *)
Theorem deterministic_names_unpacked_by_site :
  forall nm fm d ds (names : list (pyobj num)) (w w' : world) (n : node),
    ParameterNode_init num_eqb validate_sample nm fm d ds
      (Some (PySeq [PySeq names; PyCallable])) w = (Ok n, w') ->
    (List.length names <> 1 -> site n = Err ValueError) /\
    (forall t, names = [PyStr t] ->
       site n
       = (key <- str_format t (label_with_id name n) ;;
          Ok (mk_site [(label_with_id name n, ds)]
                [(key, ([label_with_id name n], given PyCallable))]))%res).
Proof.
  intros nm fm d ds names w w' n H.
  apply ParameterNode_init_ok in H as (_ & a & cell & -> & _).
  split.
  - intros L. simpl. unfold ParameterNode_site. simpl.
    destruct names as [| x [| y r]]; simpl; try reflexivity.
    now contradiction L.
  - intros t ->. simpl. unfold ParameterNode_site. simpl.
    destruct (str_format t _); reflexivity.
Qed.

(** The site of a tree in which every model leaf has a parameter and no
    parameter leaf a deterministic specification. *)
Lemma site_sampled (n : node) :
  sampled n = true ->
  exists s,
    site n = Ok s /\
    entries_are (@sample_of _ _ _) (parameter_leaves n) (s_sample s) /\
    entries_are (@deterministic_of _ _ _) (parameter_operations n)
      (s_deterministic s).
Proof.
  induction n as [a c d dt | a lh rh IHl IHr | a mt fg nc pn ps IHps
                 | a mt nc lh rh IHl IHr] using node_nested_ind;
    intros S.
  - simpl in S. destruct dt; [discriminate |].
    eexists. split; [reflexivity |]. simpl.
    split; [| apply entries_are_nil].
    split; [| split].
    + constructor; [simpl; tauto | constructor].
    + tauto.
    + intros k d' [E | []]. inversion E; subst.
      eexists. split; [left; reflexivity |]. split; [reflexivity |].
      eexists _, _, _. reflexivity.
  - simpl in S. apply andb_prop in S as [Sl Sr].
    destruct (IHl Sl) as (sl & El & Hl & Dl).
    destruct (IHr Sr) as (sr & Er & Hr & Dr).
    change (site (ParameterOperationNode a lh rh))
      with (lh0 <- site lh ;;
            rh0 <- site rh ;;
            let sample := dict_merge (s_sample lh0) (s_sample rh0) in
            let deterministic :=
              dict_merge (s_deterministic lh0) (s_deterministic rh0) in
            let operand_name :=
              [label_with_id name lh; label_with_id name rh] in
            if str_eqb (a_name a) (py "+") then
              Ok (mk_site sample
                    (dict_set deterministic
                       (label_with_id name (ParameterOperationNode a lh rh))
                       (operand_name, lambda_add num)))
            else
              Ok (mk_site sample
                    (dict_set deterministic
                       (label_with_id name (ParameterOperationNode a lh rh))
                       (operand_name, lambda_mul num))))%res.
    rewrite El, Er. cbv beta iota zeta delta [rbind].
    assert (D : deterministic_of (ParameterOperationNode a lh rh)
                  ([label_with_id name lh; label_with_id name rh],
                   if str_eqb (a_name a) (py "+")
                   then lambda_add num else lambda_mul num))
      by (eexists _, _, _; split; reflexivity).
    change (parameter_operations (ParameterOperationNode a lh rh))
      with ((parameter_operations lh ++ parameter_operations rh)
            ++ [ParameterOperationNode a lh rh : node]).
    destruct (str_eqb (a_name a) (py "+")); eexists;
      (split; [reflexivity |]); cbn [s_sample s_deterministic];
      (split; [now apply entries_are_merge |]);
      apply entries_are_set; try assumption;
      now apply entries_are_merge.
  - change (sampled (ModelNode a mt fg nc pn ps))
      with (match ps with [] => false | _ :: _ => true end
            && forallb (@sampled _ _ _) ps) in S.
    apply andb_prop in S as [Sne Sall].
    assert (A : exists sites,
               all_sites str_format ps = Ok sites /\
               Forall2 (fun q s =>
                          entries_are (@sample_of _ _ _)
                            (parameter_leaves q) (s_sample s))
                 ps sites /\
               Forall2 (fun q s =>
                          entries_are (@deterministic_of _ _ _)
                            (parameter_operations q) (s_deterministic s))
                 ps sites).
    { clear Sne.
      induction ps as [| p ps IH];
        [exists []; repeat split; constructor |].
      inversion IHps as [| ? ? Hp Hps]; subst. simpl in Sall.
      apply andb_prop in Sall as [Sp Sps].
      destruct (Hp Sp) as (s & Es & Hs & Ds).
      destruct (IH Hps Sps) as (sites & Ea & Ha & Da).
      exists (s :: sites). simpl.
      rewrite Es, Ea. repeat split; try reflexivity; now constructor. }
    destruct A as (sites & Ea & Ha & Da).
    change (site (ModelNode a mt fg nc pn ps))
      with (sites <- all_sites str_format ps ;;
            sample <- reduce (@dict_merge _) (map (@s_sample _ _) sites) ;;
            deterministic <-
              reduce (@dict_merge _) (map (@s_deterministic _ _) sites) ;;
            Ok (mk_site sample deterministic))%res.
    rewrite Ea.
    destruct Ha as [| p s ps' sites' Hp Ha]; [discriminate |].
    inversion Da as [| ? ? ? ? Dp Da']; subst.
    simpl. eexists. split; [reflexivity |].
    cbn [s_sample s_deterministic].
    change (parameter_leaves (ModelNode a mt fg nc pn (p :: ps')))
      with (parameter_leaves p ++ flat_map (@parameter_leaves _ _ _) ps').
    change (parameter_operations (ModelNode a mt fg nc pn (p :: ps')))
      with (parameter_operations p
            ++ flat_map (@parameter_operations _ _ _) ps').
    split; now apply entries_are_fold.
  - simpl in S. apply andb_prop in S as [Sl Sr].
    destruct (IHl Sl) as (sl & El & Hl & Dl).
    destruct (IHr Sr) as (sr & Er & Hr & Dr).
    simpl. rewrite El, Er. simpl. eexists. split; [reflexivity |].
    split; now apply entries_are_merge.
Qed.

(** X23: the deterministic sites of a tree are its parameter operations.
    For a model or parameter tree in which every model leaf has a
    parameter and no parameter leaf has a deterministic specification,
    [site] succeeds, and its deterministic sites have one key for every
    distinct name with id among the parameter operations the tree depends
    on; every entry depends on the names with id of the two operands of
    such an operation, through the lambda for [+] or for [*]; and a
    parameter operation finds its own entry under its own name. *)
Theorem site_determines_the_parameter_operations :
  forall (n : node),
    sampled n = true ->
    exists s,
      site n = Ok s /\
      NoDup (map fst (s_deterministic s)) /\
      (forall k, In k (map fst (s_deterministic s))
                 <-> In k (map (label_with_id name)
                             (parameter_operations n))) /\
      (forall k v,
          In (k, v) (s_deterministic s) ->
          exists a (lh rh : node),
            In (ParameterOperationNode a lh rh) (parameter_operations n) /\
            k = label_with_id name (ParameterOperationNode a lh rh : node) /\
            v = ([label_with_id name lh; label_with_id name rh],
                 if str_eqb (a_name a) (py "+")
                 then lambda_add num else lambda_mul num)) /\
      (forall a (lh rh : node),
          n = ParameterOperationNode a lh rh ->
          dict_get (s_deterministic s) (label_with_id name n)
          = Some ([label_with_id name lh; label_with_id name rh],
                  if str_eqb (a_name a) (py "+")
                  then lambda_add num else lambda_mul num)).
Proof.
  intros n S. destruct (site_sampled n S) as (s & E & _ & (N & K & V)).
  exists s. split; [assumption |]. split; [assumption |].
  split; [assumption |]. split.
  - intros k v Hin. destruct (V k v Hin) as (m & Hm & -> & a & lh & rh & -> & ->).
    exists a, lh, rh. auto.
  - intros a lh rh ->. simpl in S. apply andb_prop in S as [Sl Sr].
    destruct (site_sampled lh Sl) as (sl & El & _).
    destruct (site_sampled rh Sr) as (sr & Er & _).
    revert E.
    change (site (ParameterOperationNode a lh rh))
      with (lh0 <- site lh ;;
            rh0 <- site rh ;;
            let sample := dict_merge (s_sample lh0) (s_sample rh0) in
            let deterministic :=
              dict_merge (s_deterministic lh0) (s_deterministic rh0) in
            let operand_name :=
              [label_with_id name lh; label_with_id name rh] in
            if str_eqb (a_name a) (py "+") then
              Ok (mk_site sample
                    (dict_set deterministic
                       (label_with_id name (ParameterOperationNode a lh rh))
                       (operand_name, lambda_add num)))
            else
              Ok (mk_site sample
                    (dict_set deterministic
                       (label_with_id name (ParameterOperationNode a lh rh))
                       (operand_name, lambda_mul num))))%res.
    rewrite El, Er. cbv beta iota zeta delta [rbind].
    destruct (str_eqb (a_name a) (py "+")); intros X; inversion X;
      apply dict_get_set_same.
Qed.

(** X24: the sample sites of a tree are its parameter leaves. For a model
    or parameter tree in which every model leaf has a parameter and no
    parameter leaf has a deterministic specification, [site] succeeds, and
    its sample sites have one key for every distinct name with id among
    the parameter leaves the tree depends on, each with the distribution
    of a leaf of that name. *)
Theorem site_samples_the_parameter_leaves :
  forall (n : node),
    sampled n = true ->
    exists s,
      site n = Ok s /\
      NoDup (map fst (s_sample s)) /\
      (forall k, In k (map fst (s_sample s))
                 <-> In k (map (label_with_id name) (parameter_leaves n))) /\
      (forall k d, In (k, d) (s_sample s) ->
                   exists a c det,
                     In (ParameterNode a c d det : node)
                       (parameter_leaves n) /\
                     k = Node_label_with_id name a).
Proof.
  intros n S. destruct (site_sampled n S) as (s & E & (N & K & V) & _).
  exists s. split; [assumption |]. split; [assumption |].
  split; [assumption |].
  intros k d Hin. destruct (V k d Hin) as (m & Hm & -> & a & c & det & ->).
  exists a, c, det. auto.
Qed.

End Sites.

End Properties.

(** ** Concrete runs *)

(** In the process whose source repeats itself, two creations in a row get
    the same id. *)
Lemma Node_init_collision_undetected_witness :
  let keys := [py "mtype"; py "func_generator"; py "is_ncon"] in
  _UUID Toy.w_stuck = [] /\
  uuid4_hex Toy.w_stuck 1 = uuid4_hex Toy.w_stuck 0 /\
  exists a1 w1 a2 w2,
    Node_init (py "PowerLaw") (py "PL") false keys Toy.w_stuck
    = (Ok a1, w1) /\
    Node_init (py "PowerLaw") (py "PL") false keys w1 = (Ok a2, w2) /\
    a_id a2 = a_id a1 /\ _UUID w1 = [] /\ _UUID w2 = [].
Proof.
  intros keys. split; [reflexivity |]. split; [reflexivity |].
  apply (Node_init_collision_undetected Toy.w_stuck); reflexivity.
Defined.

(** C3 fails as stated: no allowed row of the claimed table has a
    convolution on the left and an additive operand on the right, yet the
    construction succeeds and yields an additive node. *)
Lemma star_convolution_additive_succeeds :
  claimed_star_row con false add false = None /\
  exists (lh rh n : Toy.node) w1 w2 w3,
    ModelNode_init (py "Smooth") (py "Smooth") (py "con") None
      (Toy.const_gen [1%Z]) false Toy.w0 = (Ok lh, w1) /\
    ModelNode_init (py "PowerLaw") (py "PL") (py "add") None
      (Toy.const_gen [2%Z]) false w1 = (Ok rh, w2) /\
    ModelOperationNode_init lh rh (py "*") w2 = (Ok n, w3) /\
    attrs_mtype n = Ok add.
Proof.
  split; [reflexivity |].
  do 6 eexists. repeat split; reflexivity.
Qed.

(** A flux-convolution leaf times an additive leaf is an additive node. *)
Lemma star_composition_outcome_witness :
  exists (n : Toy.node) w',
    ModelOperationNode_init
      (ModelNode (mk_attrs (py "Smooth") (py "Smooth") false (Toy.hex_of 0))
         con (Toy.const_gen [1%Z]) false [] [])
      (ModelNode (mk_attrs (py "PowerLaw") (py "PL") false (Toy.hex_of 1))
         add (Toy.const_gen [2%Z]) false [] [])
      (py "*") Toy.w0 = (Ok n, w') /\
    attrs_mtype n = Ok add.
Proof.
  destruct (@star_composition_outcome Toy.num Toy.Distribution Toy.array
              (ModelNode (mk_attrs (py "Smooth") (py "Smooth") false
                            (Toy.hex_of 0))
                 con (Toy.const_gen [1%Z]) false [] [])
              (ModelNode (mk_attrs (py "PowerLaw") (py "PL") false
                            (Toy.hex_of 1))
                 add (Toy.const_gen [2%Z]) false [] [])
              Toy.w0 con false add false
              eq_refl eq_refl eq_refl eq_refl eq_refl) as [_ H].
  destruct H as (n & w' & E & _ & A & _).
  - intros [[E _] | [E _]]; discriminate E.
  - exists n, w'. split; [exact E |]. apply A. right. reflexivity.
Defined.

(** Two additive leaves: [*] raises, [+] builds their sum. *)
Lemma additive_star_raises_plus_succeeds_witness :
  let lh := Toy.leaf "PowerLaw" 0 add false [2%Z] in
  let rh := Toy.leaf "BlackBody" 1 add false [3%Z] in
  attrs_mtype lh = Ok add /\ attrs_mtype rh = Ok add /\
  _UUID Toy.w0 = [] /\
  ModelOperationNode_init lh rh (py "*") Toy.w0 = (Err TypeError, Toy.w0) /\
  exists n w', ModelOperationNode_init lh rh (py "+") Toy.w0 = (Ok n, w') /\
               attrs_mtype n = Ok add /\ predecessor n = [lh; rh].
Proof.
  intros lh rh.
  destruct (@additive_star_raises_plus_succeeds _ _ _ lh rh Toy.w0
              eq_refl eq_refl) as [Hmul Hadd].
  do 3 (split; [reflexivity |]). split; [exact Hmul | exact (Hadd eq_refl)].
Defined.

(** Two norm-convolution leaves cannot be multiplied, in either order. *)
Lemma norm_convolution_star_raises_witness :
  let lh := Toy.leaf "EnFlux" 0 con true [2%Z] in
  let rh := Toy.leaf "PhFlux" 1 con true [3%Z] in
  attrs_mtype lh = Ok con /\ attrs_is_ncon lh = Ok true /\
  attrs_mtype rh = Ok con /\ attrs_is_ncon rh = Ok true /\
  ModelOperationNode_init lh rh (py "*") Toy.w0 = (Err TypeError, Toy.w0) /\
  ModelOperationNode_init rh lh (py "*") Toy.w0 = (Err TypeError, Toy.w0).
Proof.
  intros lh rh.
  destruct (@norm_convolution_star_raises _ _ _ lh rh Toy.w0
              eq_refl eq_refl eq_refl eq_refl) as [H1 H2].
  do 4 (split; [reflexivity |]). split; [exact H1 | exact H2].
Defined.

(** A parameter on the interval from 0 to 5: built with default 2, set to 4,
    not set to 7. *)
Lemma parameter_default_in_domain_witness :
  (exists (n : Toy.node) w',
      ParameterNode_init Z.eqb Toy.validate_sample (py "alpha") (py "\alpha")
        2%Z (Dist (0, 5)%Z) None Toy.w0 = (Ok n, w') /\
      default Z.add Z.mul n w' = Ok 2%Z /\
      in_domain Z.eqb Toy.validate_sample (Dist (0, 5)%Z) 2%Z) /\
  (exists w',
      set_default (fun x => x) Z.eqb Toy.validate_sample
        (Toy.param "alpha" 0 (Dist (0, 5)%Z)) 4%Z Toy.w0 = (Ok tt, w') /\
      default Z.add Z.mul (Toy.param "alpha" 0 (Dist (0, 5)%Z)) w' = Ok 4%Z) /\
  set_default (fun x => x) Z.eqb Toy.validate_sample
    (Toy.param "alpha" 0 (Dist (0, 5)%Z)) 7%Z Toy.w0
  = (Err ValueError, Toy.w0).
Proof.
  destruct (@parameter_default_in_domain Toy.num Toy.Distribution Toy.array
              (fun x => x) Z.eqb Z.add Z.mul Toy.validate_sample Toy.w0)
    as (Hnew & _ & Hset & Hbad).
  split; [| split].
  - do 2 eexists. split; [reflexivity |].
    exact (Hnew (py "alpha") (py "\alpha") 2%Z (Dist (0, 5)%Z) None _ _
             eq_refl).
  - eexists. split; [unfold Toy.param; reflexivity |].
    exact (proj1 (Hset (mk_attrs (py "alpha") (py "alpha") false
                          (Toy.hex_of 0))
                   0 (Dist (0, 5)%Z) None 4%Z _ eq_refl)).
  - apply Hbad. simpl. discriminate.
Defined.

(** The sum and the product of two parameters follow the first operand
    when its default is set to 4. *)
Lemma composite_default_from_operands_witness :
  let p := Toy.param "alpha" 0 (Dist (0, 5)%Z) in
  let q := Toy.param "beta" 1 (Fixed 3%Z) in
  type p = parameter /\ type q = parameter /\ _UUID Toy.w0 = [] /\
  exists plus w1 times w2,
    ParameterOperationNode_init p q (py "+") Toy.w0 = (Ok plus, w1) /\
    ParameterOperationNode_init p q (py "*") w1 = (Ok times, w2) /\
    forall v v',
      set_default (fun x => x) Z.eqb Toy.validate_sample p 4%Z v
      = (Ok tt, v') ->
      default Z.add Z.mul plus v' = Ok (4 + heap v' 1)%Z /\
      default Z.add Z.mul times v' = Ok (4 * heap v' 1)%Z.
Proof.
  intros p q. repeat split.
  destruct (@composite_default_from_operands Toy.num Toy.Distribution
              Toy.array (fun x => x) Z.eqb Z.add Z.mul Toy.validate_sample
              p q Toy.w0 eq_refl eq_refl eq_refl)
    as (plus & w1 & times & w2 & E1 & E2 & _ & Hset).
  exists plus, w1, times, w2. repeat split; try assumption;
    destruct (Hset _ _ _ _ 4%Z v v' eq_refl H) as [Hp Ht]; assumption.
Defined.

(** A norm-convolution leaf times a multiplicative leaf: the compiled
    evaluator raises [IndexError] when called with the parameters first. *)
Lemma ncon_mul_evaluator_rejects_uniform_call_witness :
  let lh := Toy.leaf "EnFlux" 0 con true [2%Z] in
  let rh := Toy.leaf "PhAbs" 1 mul false [3%Z] in
  let mapping := Toy.raw_names [lh; rh] in
  let d := [(py "EnFlux", []); (py "PhAbs", [])] in
  attrs_mtype lh = Ok con /\ attrs_is_ncon lh = Ok true /\
  attrs_mtype rh = Ok mul /\
  exists n w' ev,
    ModelOperationNode_init lh rh (py "*") Toy.w0 = (Ok n, w') /\
    generate_func Toy.v_add Toy.v_mul n mapping = Ok ev /\
    is_ok (ev [AVal (VDict d); AVal (VArr [1; 2]%Z); AVal (VArr [5%Z]);
               AFun (fun _ => Ok (VArr [5%Z]))]) = false /\
    ev [AVal (VDict d); AVal (VArr [1; 2]%Z); AVal (VArr [5%Z]);
        AFun (fun _ => Ok (VArr [5%Z]))] = Err IndexError.
Proof.
  intros lh rh mapping d. repeat split.
  do 3 eexists. split; [reflexivity |]. split; [reflexivity |].
  split; [| reflexivity].
  exact (proj1 (@ncon_mul_evaluator_rejects_uniform_call Toy.num
                  Toy.Distribution Toy.array Toy.v_add Toy.v_mul lh rh _
                  Toy.w0 _ mapping _ eq_refl eq_refl eq_refl eq_refl eq_refl
                  d [1; 2]%Z _ _)).
Defined.

(** A norm-convolution leaf applied to the sum of two additive leaves with
    outputs 2 and 3: its function receives the flux 5. *)
Lemma ncon_times_sum_evaluator_witness :
  let d : list (str * kwargs Toy.num) :=
    [(py "EnFlux", []); (py "PowerLaw", []); (py "BlackBody", [])] in
  let A : Toy.node :=
    ModelNode (mk_attrs (py "EnFlux") (py "EnFlux") false (Toy.hex_of 0))
      con (fun _ => Ok (PyFunction (Toy.probe_func d [1; 2]%Z))) true
      [] [] in
  let B := Toy.leaf "PowerLaw" 1 add false [2%Z] in
  let C := Toy.leaf "BlackBody" 2 add false [3%Z] in
  let mapping := Toy.raw_names [A; B; C] in
  exists bc w1 t w2 evBC evT,
    ModelOperationNode_init B C (py "+") Toy.w0 = (Ok bc, w1) /\
    ModelOperationNode_init A bc (py "*") w1 = (Ok t, w2) /\
    generate_func Toy.v_add Toy.v_mul bc mapping = Ok evBC /\
    generate_func Toy.v_add Toy.v_mul t mapping = Ok evT /\
    evBC [AVal (VDict d); AVal (VArr [1; 2]%Z)] = Ok (VArr [5%Z]) /\
    evT [AVal (VDict d); AVal (VArr [1; 2]%Z)] = Ok (VArr [10%Z]).
Proof.
  intros d A B C mapping.
  destruct (@ncon_times_sum_evaluator Toy.num Toy.Distribution Toy.array
              Toy.v_add Toy.v_mul
              (mk_attrs (py "EnFlux") (py "EnFlux") false (Toy.hex_of 0))
              (fun _ => Ok (PyFunction (Toy.probe_func d [1; 2]%Z))) [] []
              (mk_attrs (py "PowerLaw") (py "PowerLaw") false (Toy.hex_of 1))
              (Toy.const_gen [2%Z]) false [] []
              (mk_attrs (py "BlackBody") (py "BlackBody") false
                 (Toy.hex_of 2))
              (Toy.const_gen [3%Z]) false [] []
              Toy.w0 mapping (py "EnFlux") (py "PowerLaw") (py "BlackBody")
              _ _ _ _ _ _
              eq_refl eq_refl eq_refl eq_refl
              eq_refl eq_refl eq_refl eq_refl eq_refl eq_refl)
    as (bc & w1 & t & w2 & evA & evB & evC & evBC & evT & ff
        & E1 & E2 & _ & _ & _ & G1 & G2 & Hff & HBC & _ & _ & Hconst).
  exists bc, w1, t, w2, evBC, evT.
  do 4 (split; [assumption |]).
  destruct (Hconst (VArr [2%Z]) (VArr [3%Z]) (VArr [5%Z]) d [] [] []
              (AVal (VArr [1; 2]%Z)) []
              (fun _ _ => eq_refl) (fun _ _ => eq_refl)
              eq_refl eq_refl eq_refl eq_refl) as [Hev Hcall].
  split.
  - exact (eq_trans (eq_sym (Hff [VDict d; VArr [1; 2]%Z]))
             (Hcall d [] [] (VArr [1; 2]%Z) eq_refl eq_refl)).
  - refine (eq_trans Hev _). unfold Toy.probe_func.
    match goal with
    | |- match ?call with _ => _ end = _ =>
        replace call with (Ok (VArr [5%Z]) : result (val Toy.num Toy.array))
          by (symmetry;
              exact (Hcall d [] [] (VArr [1; 2]%Z) eq_refl eq_refl))
    end.
    reflexivity.
Defined.

(** C9 fails as stated: the second leaf is named after the id of the
    first; replacing the first leaf's label with id also rewrites the
    label of the second, whose own id then stays in the rendered name. *)
Lemma label_embedding_an_id_keeps_its_suffix :
  exists (A B n : Toy.node) w1 w2 w3,
    ModelNode_init (py "X") (py "X") (py "add") None
      (Toy.const_gen [1%Z]) false Toy.w0 = (Ok A, w1) /\
    ModelNode_init (py "X_" ++ a_id (node_attrs A)) (py "Y") (py "add") None
      (Toy.const_gen [2%Z]) false w1 = (Ok B, w2) /\
    ModelOperationNode_init A B (py "+") w2 = (Ok n, w3) /\
    finished n = true /\
    label_with name (display name (leaves n)) n
    = py "X + X_00000000000000000000000000000000" /\
    LabelSpace_name (LabelSpace_init n)
    = py "X + X_00000000000000000000000000000001".
Proof.
  do 6 eexists. repeat split; vm_compute; reflexivity.
Qed.

(** C10 fails as stated: the leaf named ["P_" ++ id] occurs twice; the
    replacement for the leaf ["Q + P"] hits its first occurrence, which
    follows a ["Q"], and not the second, so the two occurrences of one
    leaf are rendered differently. *)
Lemma shared_leaf_rendered_two_ways :
  exists (q c a n1 n2 n3 n4 : Toy.node) w1 w2 w3 w4 w5 w6 w7,
    ModelNode_init (py "Q") (py "Q") (py "add") None
      (Toy.const_gen [1%Z]) false Toy.w0 = (Ok q, w1) /\
    ModelNode_init (py "Q + P") (py "QP") (py "add") None
      (Toy.const_gen [2%Z]) false w1 = (Ok c, w2) /\
    ModelNode_init (py "P_" ++ a_id (node_attrs c)) (py "P") (py "add") None
      (Toy.const_gen [3%Z]) false w2 = (Ok a, w3) /\
    ModelOperationNode_init q c (py "+") w3 = (Ok n1, w4) /\
    ModelOperationNode_init n1 q (py "+") w4 = (Ok n2, w5) /\
    ModelOperationNode_init n2 a (py "+") w5 = (Ok n3, w6) /\
    ModelOperationNode_init n3 a (py "+") w6 = (Ok n4, w7) /\
    finished n4 = true /\
    label_with name (display name (leaves n4)) n4
    = py ("Q + Q + P + Q + P_00000000000000000000000000000001"
          ++ " + P_00000000000000000000000000000001") /\
    LabelSpace_name (LabelSpace_init n4)
    = py ("Q + Q + P + Q + P_00000000000000000000000000000002"
          ++ " + P_00000000000000000000000000000001").
Proof.
  do 14 eexists. repeat split; vm_compute; reflexivity.
Qed.

(** [PhAbs() * (PowerLaw() + PowerLaw())] *)
Lemma LabelSpace_displays_leaves_witness :
  let n := Toy.op_node "*" "\times" 12 add
             (Toy.leaf "PhAbs" 3 mul false [1%Z])
             (Toy.op_node "+" "+" 11 add
                (Toy.leaf "PowerLaw" 0 add false [2%Z])
                (Toy.leaf "PowerLaw" 1 add false [3%Z])) in
  finished n = true /\
  ids_identify name (leaves n) = true /\ hygienic name (leaves n) = true /\
  ids_identify fmt (leaves n) = true /\ hygienic fmt (leaves n) = true /\
  LabelSpace_name (LabelSpace_init n) = py "PhAbs * (PowerLaw + PowerLaw2)" /\
  LabelSpace_fmt (LabelSpace_init n)
  = py "PhAbs \times (PowerLaw + PowerLaw_2)".
Proof.
  intros n.
  destruct (@LabelSpace_displays_leaves Toy.num Toy.Distribution Toy.array
              n eq_refl) as (Hname & Hfmt & _).
  do 5 (split; [reflexivity |]). split.
  - rewrite (Hname eq_refl eq_refl). reflexivity.
  - rewrite (Hfmt eq_refl eq_refl). reflexivity.
Defined.

(** One [PowerLaw] leaf used twice around a second one: two entries in the
    mapping, and the shared leaf is displayed without a number both
    times. *)
Lemma shared_leaf_counted_once_witness :
  let pl := Toy.leaf "PowerLaw" 0 add false [2%Z] in
  let n := Toy.op_node "+" "+" 11 add
             (Toy.op_node "+" "+" 10 add pl
                (Toy.leaf "PowerLaw" 1 add false [3%Z]))
             pl in
  finished n = true /\
  ids_identify name (leaves n) = true /\ hygienic name (leaves n) = true /\
  List.length (_get_suffix_mapping n name) = 2 /\
  NoDup (map fst (_get_suffix_mapping n name)) /\
  _label (LabelSpace_init n) name = py "PowerLaw + PowerLaw2 + PowerLaw".
Proof.
  intros pl n.
  destruct (@shared_leaf_counted_once Toy.num Toy.Distribution Toy.array
              n name eq_refl) as (Hnodup & _ & _ & Hrender).
  do 4 (split; [reflexivity |]). split; [exact Hnodup |].
  rewrite (Hrender eq_refl eq_refl). reflexivity.
Defined.


(** *** Built trees, kinds and introspection *)

Lemma Toy_leaf_built label n mt nc out :
  built (Toy.leaf label n mt nc out).
Proof.
  apply (@built_leaf _ _ _ (py label) (py label)
           (match mt with
            | add => py "add" | mul => py "mul" | con => py "con"
            end)
           None (Toy.const_gen out) nc
           (mk_world [] Toy.hex_of n (fun _ => 0%Z) 0) _
           (mk_world [] Toy.hex_of (S n) (fun _ => 0%Z) 0)).
  destruct mt; reflexivity.
Qed.

Lemma Toy_sum_built :
  built (Toy.op_node "+" "+" 2 add
           (Toy.leaf "PowerLaw" 0 add false [2%Z])
           (Toy.leaf "PowerLaw" 1 add false [3%Z])).
Proof.
  apply (@built_op _ _ _ (Toy.leaf "PowerLaw" 0 add false [2%Z])
           (Toy.leaf "PowerLaw" 1 add false [3%Z]) (py "+")
           (mk_world [] Toy.hex_of 2 (fun _ => 0%Z) 0) _
           (mk_world [] Toy.hex_of 3 (fun _ => 0%Z) 0));
    [apply Toy_leaf_built | apply Toy_leaf_built | reflexivity].
Qed.

Lemma operation_needs_operator_and_equal_types_witness :
  let p := Toy.param "alpha" 0 (Dist (0, 5)%Z) in
  let q := Toy.param "beta" 1 (Fixed 3%Z) in
  let m := Toy.leaf "PowerLaw" 2 add false [2%Z] in
  (type p <> type m /\
   ParameterOperationNode_init p m (py "+") Toy.w0 = (Err TypeError, Toy.w0) /\
   ModelOperationNode_init p m (py "+") Toy.w0 = (Err TypeError, Toy.w0)) /\
  (str_mem (py "*") [py "+"; py "*"] = true /\ type p = type q /\
   _UUID Toy.w0 = [] /\
   exists n w', ParameterOperationNode_init p q (py "*") Toy.w0 = (Ok n, w')).
Proof.
  intros p q m. split.
  - assert (T : type p <> type m) by (simpl; discriminate).
    split; [exact T |].
    exact (proj1 (@operation_needs_operator_and_equal_types Toy.num
                    Toy.Distribution Toy.array p m (py "+") Toy.w0)
             (or_intror T)).
  - do 3 (split; [reflexivity |]). eexists _, _.
    exact (proj2 (@operation_needs_operator_and_equal_types Toy.num
                    Toy.Distribution Toy.array p q (py "*") Toy.w0)
             eq_refl eq_refl eq_refl).
Defined.

Lemma Model_add_needs_additive_operands_witness :
  let lh := Toy.leaf "PowerLaw" 0 add false [2%Z] in
  let rh := Toy.leaf "PhAbs" 1 mul false [3%Z] in
  attrs_mtype lh = Ok add /\ attrs_mtype rh = Ok mul /\
  _UUID Toy.w0 = [] /\ (add <> add \/ mul <> add) /\
  Model_add lh rh Toy.w0 = (Err TypeError, Toy.w0).
Proof.
  intros lh rh.
  assert (Hbad : add <> add \/ mul <> add) by (right; discriminate).
  do 3 (split; [reflexivity |]). split; [exact Hbad |].
  exact (proj2 (@Model_add_needs_additive_operands Toy.num Toy.Distribution
                  Toy.array lh rh Toy.w0 add mul eq_refl eq_refl eq_refl)
           Hbad).
Defined.

Lemma ModelOperationNode_init_only_models_witness :
  let p := Toy.param "alpha" 0 (Dist (0, 5)%Z) in
  let q := Toy.param "beta" 1 (Fixed 3%Z) in
  type p = parameter /\ type q = parameter /\
  ModelOperationNode_init p q (py "+") Toy.w0 = (Err KeyError, Toy.w0).
Proof.
  intros p q. do 2 (split; [reflexivity |]).
  exact (proj2 (@ModelOperationNode_init_only_models Toy.num
                  Toy.Distribution Toy.array p q (py "+") Toy.w0)
           eq_refl eq_refl (or_introl eq_refl)).
Defined.

Lemma ModelNode_init_outcome_witness :
  let p := Toy.param "alpha" 0 (Dist (0, 5)%Z) in
  let d := [(py "alpha", p)] in
  let fg := Toy.const_gen [2%Z] in
  (py "pow" <> py "add" /\ py "pow" <> py "mul" /\ py "pow" <> py "con" /\
   ModelNode_init (py "PowerLaw") (py "PL") (py "pow") (Some d) fg false
     Toy.w0 = (Err TypeError, Toy.w0)) /\
  (parse_mtype (py "add") = Some add /\ _UUID Toy.w0 = [] /\
   exists n w',
     ModelNode_init (py "PowerLaw") (py "PL") (py "add") (Some d) fg false
       Toy.w0 = (Ok n, w') /\
     predecessor n = [p]).
Proof.
  intros p d fg. split.
  - assert (H1 : py "pow" <> py "add") by discriminate.
    assert (H2 : py "pow" <> py "mul") by discriminate.
    assert (H3 : py "pow" <> py "con") by discriminate.
    do 3 (split; [assumption |]).
    exact (proj1 (@ModelNode_init_outcome Toy.num Toy.Distribution Toy.array
                    (py "PowerLaw") (py "PL") (py "pow") (Some d) fg false
                    Toy.w0) H1 H2 H3).
  - do 2 (split; [reflexivity |]).
    assert (Hps : forall d' (v : Toy.node),
               Some d = Some d' -> In v (map snd d') -> type v = parameter).
    { intros d' v E Hin. inversion E; subst d'.
      destruct Hin as [<- | []]. reflexivity. }
    eexists _, _. split.
    + exact (proj2 (proj2 (@ModelNode_init_outcome Toy.num Toy.Distribution
                             Toy.array (py "PowerLaw") (py "PL") (py "add")
                             (Some d) fg false Toy.w0))
               add eq_refl Hps eq_refl).
    + reflexivity.
Defined.

Lemma model_operation_formula_operator_witness :
  let lh := Toy.leaf "EnFlux" 0 con true [2%Z] in
  let rh := Toy.leaf "PowerLaw" 1 add false [3%Z] in
  exists n w',
    ModelOperationNode_init lh rh (py "*") Toy.w0 = (Ok n, w') /\
    a_name (node_attrs n) = py "*" /\ a_fmt (node_attrs n) = py "*".
Proof.
  intros lh rh. eexists _, _. split; [reflexivity |].
  exact (@model_operation_formula_operator Toy.num Toy.Distribution
           Toy.array lh rh _ (py "*") Toy.w0 _ eq_refl).
Defined.

Lemma built_kind_from_leaves_witness :
  let t := Toy.op_node "+" "+" 2 add
             (Toy.leaf "PowerLaw" 0 add false [2%Z])
             (Toy.leaf "PowerLaw" 1 add false [3%Z]) in
  built t /\
  exists k,
    attrs_mtype t = Ok k /\
    (k = add <-> Exists (fun m => attrs_mtype m = Ok add) (leaf_nodes t)) /\
    (k = mul <-> Forall (fun m => attrs_mtype m = Ok mul) (leaf_nodes t)).
Proof.
  intros t. split; [exact Toy_sum_built |].
  exact (built_kind_from_leaves Toy_sum_built).
Defined.

Lemma norm_convolution_at_most_once_witness :
  let lh := Toy.leaf "EnFlux" 0 con true [2%Z] in
  let rh := Toy.leaf "PhAbs" 1 mul false [3%Z] in
  let t : Toy.node :=
    ModelOperationNode (mk_attrs (py "*") (py "*") true (Toy.hex_of 2))
      con true lh rh in
  built t /\
  Forall (fun m => is_norm m = true -> attrs_mtype m = Ok con)
    (leaf_nodes t) /\
  Forall (fun m => attrs_mtype m <> Ok add) (leaf_nodes t) /\
  (is_norm t = true -> attrs_mtype t = Ok con) /\
  List.length (filter (@is_norm _ _ _) (leaf_nodes t)) = 1.
Proof.
  intros lh rh t.
  assert (B : built t).
  { apply (@built_op _ _ _ lh rh (py "*")
             (mk_world [] Toy.hex_of 2 (fun _ => 0%Z) 0) _
             (mk_world [] Toy.hex_of 3 (fun _ => 0%Z) 0));
      [apply Toy_leaf_built | apply Toy_leaf_built | reflexivity]. }
  assert (W : Forall (fun m : Toy.node =>
                        is_norm m = true -> attrs_mtype m = Ok con)
                (leaf_nodes t)).
  { repeat constructor; simpl; intros X; try reflexivity; discriminate X. }
  assert (NA : Forall (fun m : Toy.node => attrs_mtype m <> Ok add)
                 (leaf_nodes t)).
  { repeat constructor; simpl; discriminate. }
  destruct (norm_convolution_at_most_once B W) as [C Cnt].
  split; [exact B |]. split; [exact W |]. split; [exact NA |].
  split; [exact C | exact (Cnt NA)].
Defined.

Lemma comps_lists_leaf_occurrences_witness :
  let t := Toy.op_node "+" "+" 2 add
             (Toy.leaf "PowerLaw" 0 add false [2%Z])
             (Toy.leaf "PowerLaw" 1 add false [3%Z]) in
  built t /\
  comps t = Ok (map (label_with_id name) (leaf_nodes t)).
Proof.
  intros t. split; [exact Toy_sum_built |].
  exact (proj1 (comps_lists_leaf_occurrences Toy_sum_built)).
Defined.

Lemma params_one_entry_per_leaf_witness :
  let t := Toy.op_node "+" "+" 2 add
             (Toy.leaf "PowerLaw" 0 add false [2%Z])
             (Toy.leaf "PowerLaw" 1 add false [3%Z]) in
  built t /\
  exists d, params t = Ok d /\ NoDup (map fst d).
Proof.
  intros t. split; [exact Toy_sum_built |].
  destruct (params_one_entry_per_leaf Toy_sum_built) as (d & E & N & _).
  exists d. split; assumption.
Defined.

Lemma params_reads_back_the_parameters_witness :
  let p := Toy.param "alpha" 0 (Dist (0, 5)%Z) in
  let q := Toy.param "K" 1 (Fixed 3%Z) in
  let d := [(py "alpha", p); (py "K", q)] in
  let fg := Toy.const_gen [2%Z] in
  NoDup (map fst d) /\
  exists n w',
    ModelNode_init (py "PowerLaw") (py "PL") (py "add") (Some d) fg false
      Toy.w0 = (Ok n, w') /\
    params n
    = Ok [(label_with_id name n,
           [(py "alpha", label_with_id name p);
            (py "K", label_with_id name q)])].
Proof.
  intros p q d fg.
  assert (N : NoDup (map fst d)).
  { repeat constructor; simpl; intuition discriminate. }
  split; [exact N |]. eexists _, _. split; [reflexivity |].
  exact (proj1 (@params_reads_back_the_parameters Toy.num Toy.Distribution
                  Toy.array (py "PowerLaw") (py "PL") (py "add") d fg false
                  Toy.w0 _ _ N eq_refl)).
Defined.


Lemma label_with_id_tells_leaves_apart_witness :
  let a := mk_attrs (py "PowerLaw") (py "PL") false (Toy.hex_of 0) in
  let b := mk_attrs (py "PowerLaw") (py "PL") false (Toy.hex_of 1) in
  is_uuid (a_id a) = true /\ is_uuid (a_id b) = true /\
  Node_label_with_id name a <> Node_label_with_id name b.
Proof.
  intros a b. do 2 (split; [reflexivity |]). intros E.
  apply (label_with_id_tells_leaves_apart name a b eq_refl eq_refl) in E.
  destruct E as [_ E]. vm_compute in E. discriminate E.
Defined.

Lemma LabelSpace_name_without_underscore_witness :
  let n := Toy.op_node "+" "+" 2 add
             (Toy.leaf "PowerLaw" 0 add false [2%Z])
             (Toy.leaf "PowerLaw" 1 add false [3%Z]) in
  finished n = true /\ ids_identify name (leaves n) = true /\
  (forall a, In a (leaves n) -> ~ In "_"%char (a_name a)) /\
  LabelSpace_name (LabelSpace_init n) = py "PowerLaw + PowerLaw2".
Proof.
  intros n.
  assert (H : forall a, In a (leaves n) -> ~ In "_"%char (a_name a)).
  { intros a [<- | [<- | []]]; simpl; intuition discriminate. }
  do 2 (split; [reflexivity |]). split; [exact H |].
  rewrite (@LabelSpace_name_without_underscore Toy.num Toy.Distribution
             Toy.array n eq_refl eq_refl H).
  reflexivity.
Defined.

Lemma LabelSpace_of_a_leaf_witness :
  let a := mk_attrs (py "PowerLaw") (py "PL") false (py "not_a_uuid") in
  a_is_operation a = false /\
  _label (LabelSpace_init
            (ModelNode a add (Toy.const_gen [2%Z]) false [] []
             : Toy.node)) fmt
  = py "PL".
Proof.
  intros a. split; [reflexivity |].
  exact (proj2 (@LabelSpace_of_a_leaf Toy.num Toy.Distribution Toy.array
                  a fmt eq_refl)
           add (Toy.const_gen [2%Z]) false [] []).
Defined.

Lemma generate_func_stops_at_first_failing_leaf_witness :
  let lh := Toy.leaf "PowerLaw" 0 add false [2%Z] in
  let rh : Toy.node :=
    ModelNode (mk_attrs (py "BlackBody") (py "BlackBody") false
                 (Toy.hex_of 1))
      add (fun _ => Err RuntimeError) false [] [] in
  let t := Toy.op_node "+" "+" 2 add lh rh in
  built t /\
  first_failure (@nil (str * str)) (leaf_nodes t) = Some KeyError /\
  generate_func Toy.v_add Toy.v_mul t [] = Err KeyError /\
  first_failure (Toy.raw_names [lh; rh]) (leaf_nodes t)
  = Some RuntimeError /\
  generate_func Toy.v_add Toy.v_mul t (Toy.raw_names [lh; rh])
  = Err RuntimeError.
Proof.
  intros lh rh t.
  assert (B : built t).
  { apply (@built_op _ _ _ lh rh (py "+")
             (mk_world [] Toy.hex_of 2 (fun _ => 0%Z) 0) _
             (mk_world [] Toy.hex_of 3 (fun _ => 0%Z) 0));
      [apply Toy_leaf_built | | reflexivity].
    apply (@built_leaf _ _ _ (py "BlackBody") (py "BlackBody") (py "add")
             None (fun _ => Err RuntimeError) false
             (mk_world [] Toy.hex_of 1 (fun _ => 0%Z) 0) _
             (mk_world [] Toy.hex_of 2 (fun _ => 0%Z) 0)).
    reflexivity. }
  split; [exact B |]. split; [reflexivity |].
  split.
  - exact (proj1 (@generate_func_stops_at_first_failing_leaf Toy.num
                    Toy.Distribution Toy.array Toy.v_add Toy.v_mul t []
                    B) KeyError eq_refl).
  - split; [reflexivity |].
    exact (proj1 (@generate_func_stops_at_first_failing_leaf Toy.num
                    Toy.Distribution Toy.array Toy.v_add Toy.v_mul t
                    (Toy.raw_names [lh; rh]) B) RuntimeError eq_refl).
Defined.

Lemma generate_func_with_LabelSpace_mapping_witness :
  let t := Toy.op_node "+" "+" 2 add
             (Toy.leaf "PowerLaw" 0 add false [2%Z])
             (Toy.leaf "PowerLaw" 1 add false [3%Z]) in
  built t /\ finished t = true /\
  Forall (fun m => generates m (display name (leaves t) (node_attrs m)))
    (leaf_nodes t) /\
  exists ev,
    generate_func Toy.v_add Toy.v_mul t
      (snd (LabelSpace_mapping (LabelSpace_init t)) name) = Ok ev.
Proof.
  intros t.
  assert (G : Forall (fun m : Toy.node =>
                        generates m
                          (display name (leaves t) (node_attrs m)))
                (leaf_nodes t)).
  { repeat constructor; eexists _, _, _, _, _, _, _, _;
      (split; [reflexivity |]); split; reflexivity. }
  split; [exact Toy_sum_built |]. split; [reflexivity |].
  split; [exact G |].
  exact (proj2 (proj2 (proj2 (@generate_func_with_LabelSpace_mapping
                                Toy.num Toy.Distribution Toy.array
                                Toy.v_add Toy.v_mul t Toy_sum_built
                                eq_refl))) G).
Defined.

Lemma evaluator_ignores_further_arguments_witness :
  let lh := Toy.leaf "PowerLaw" 0 add false [2%Z] in
  let rh := Toy.leaf "PowerLaw" 1 add false [3%Z] in
  let t := Toy.op_node "+" "+" 2 add lh rh in
  built t /\
  exists ev,
    generate_func Toy.v_add Toy.v_mul t (Toy.raw_names [lh; rh]) = Ok ev /\
    attrs_mtype t = Ok add /\
    forall p e rest, ev (p :: e :: rest) = ev [p; e].
Proof.
  intros lh rh t. split; [exact Toy_sum_built |].
  eexists. split; [reflexivity |]. split; [reflexivity |].
  exact (proj1 (@evaluator_ignores_further_arguments Toy.num
                  Toy.Distribution Toy.array Toy.v_add Toy.v_mul t
                  (Toy.raw_names [lh; rh]) _ Toy_sum_built eq_refl)
           (or_introl eq_refl)).
Defined.

Lemma evaluator_needs_parameters_first_witness :
  let n := Toy.leaf "PowerLaw" 0 add false [2%Z] in
  exists ev,
    generate_func Toy.v_add Toy.v_mul n (Toy.raw_names [n]) = Ok ev /\
    is_ok (ev []) = false /\
    is_ok (ev [AVal (VArr [1; 2]%Z); AVal (VDict [(py "PowerLaw", [])])])
    = false.
Proof.
  intros n. eexists. split; [reflexivity |].
  destruct (@evaluator_needs_parameters_first Toy.num Toy.Distribution
              Toy.array Toy.v_add Toy.v_mul n (Toy.raw_names [n]) _ eq_refl)
    as [H0 H1].
  split; [exact H0 |]. apply H1. intros d. discriminate.
Defined.

Lemma deterministic_must_be_names_and_callable_witness :
  let det : option (pyobj Toy.num) := Some (PyNum 3%Z) in
  _validate_input (Dist (0, 5)%Z : dist Toy.num Toy.Distribution) det
  <> Ok tt /\
  @ParameterNode_init Toy.num Z.eqb Toy.Distribution Toy.validate_sample
    Toy.array (py "alpha") (py "\alpha") 1%Z (Dist (0, 5)%Z) det Toy.w0
  = (Err ValueError, Toy.w0).
Proof.
  intros det.
  assert (H : _validate_input (Dist (0, 5)%Z : dist Toy.num Toy.Distribution)
                det <> Ok tt) by (simpl; discriminate).
  split; [exact H |].
  exact (proj2 (@deterministic_must_be_names_and_callable Toy.num
                  Toy.Distribution Toy.array Z.eqb Toy.validate_sample
                  (py "alpha") (py "\alpha") 1%Z (Dist (0, 5)%Z) det Toy.w0)
           H).
Defined.

Lemma label_space_lists_the_leaves_witness :
  let lh := Toy.leaf "PowerLaw" 0 add false [2%Z] in
  let rh := Toy.leaf "PhAbs" 1 mul false [3%Z] in
  let n := Toy.op_node "*" "\times" 2 add rh lh in
  finished n = true /\
  _label_space (LabelSpace_init n) name
  = [(rh, py "PhAbs"); (lh, py "PowerLaw")].
Proof.
  intros lh rh n. split; [reflexivity |].
  exact (proj1 (@label_space_lists_the_leaves Toy.num Toy.Distribution
                  Toy.array n name eq_refl)).
Defined.

Lemma site_needs_a_parameter_witness :
  exists (n : Toy.node) w',
    ModelNode_init (py "PowerLaw") (py "PL") (py "add") None
      (Toy.const_gen [2%Z]) false Toy.w0 = (Ok n, w') /\
    site Toy.str_format n = Err TypeError.
Proof.
  eexists _, _. split; [reflexivity |].
  exact (proj1 (@site_needs_a_parameter Toy.num Toy.Distribution Toy.array
                  Toy.str_format (py "PowerLaw") (py "PL") (py "add") None
                  (Toy.const_gen [2%Z]) false Toy.w0 _ _
                  (or_introl eq_refl) eq_refl)).
Defined.

Lemma deterministic_names_unpacked_by_site_witness :
  let names : list (pyobj Toy.num) := [PyStr (py "a"); PyStr (py "b")] in
  List.length names <> 1 /\
  exists (n : Toy.node) w',
    ParameterNode_init Z.eqb Toy.validate_sample (py "alpha") (py "\alpha")
      1%Z (Dist (0, 5)%Z) (Some (PySeq [PySeq names; PyCallable])) Toy.w0
    = (Ok n, w') /\
    site Toy.str_format n = Err ValueError.
Proof.
  intros names.
  assert (L : List.length names <> 1) by (simpl; lia).
  split; [exact L |]. eexists _, _. split; [reflexivity |].
  exact (proj1 (@deterministic_names_unpacked_by_site Toy.num
                  Toy.Distribution Toy.array Z.eqb Toy.validate_sample
                  Toy.str_format (py "alpha") (py "\alpha") 1%Z
                  (Dist (0, 5)%Z) names Toy.w0 _ _ eq_refl) L).
Defined.

Lemma site_determines_the_parameter_operations_witness :
  let p := Toy.param "alpha" 0 (Dist (0, 5)%Z) in
  let q := Toy.param "beta" 1 (Fixed 3%Z) in
  let n : Toy.node :=
    ParameterOperationNode
      (mk_attrs (py "+") (py "+") true (Toy.hex_of 2)) p q in
  sampled n = true /\
  exists s,
    site Toy.str_format n = Ok s /\
    dict_get (s_deterministic s) (label_with_id name n)
    = Some ([label_with_id name p; label_with_id name q],
            lambda_add Toy.num).
Proof.
  intros p q n. split; [reflexivity |].
  destruct (@site_determines_the_parameter_operations Toy.num
              Toy.Distribution Toy.array Toy.str_format n eq_refl)
    as (s & E & _ & _ & _ & Hroot).
  exists s. split; [exact E |]. exact (Hroot _ _ _ eq_refl).
Defined.

Lemma site_samples_the_parameter_leaves_witness :
  let p := Toy.param "alpha" 0 (Dist (0, 5)%Z) in
  let q := Toy.param "K" 1 (Fixed 3%Z) in
  let n : Toy.node :=
    ModelNode (mk_attrs (py "PowerLaw") (py "PL") false (Toy.hex_of 2)) add
      (Toy.const_gen [2%Z]) false [py "alpha"; py "K"] [p; q] in
  sampled n = true /\
  exists s,
    site Toy.str_format n = Ok s /\
    NoDup (map fst (s_sample s)) /\
    forall k, In k (map fst (s_sample s))
              <-> In k [label_with_id name p; label_with_id name q].
Proof.
  intros p q n. split; [reflexivity |].
  destruct (@site_samples_the_parameter_leaves Toy.num Toy.Distribution
              Toy.array Toy.str_format n eq_refl)
    as (s & E & N & K & _).
  exists s. split; [exact E |]. split; [exact N | exact K].
Defined.
